(** * A shallow embedding of [advanced-vector/vector.h]

    The header defines two class templates: [RawMemory<T>], an owning handle
    on a block of uninitialised slots, and [Vector<T>], which keeps a count of
    live objects at the front of a [RawMemory<T>].

    The embedding keeps the layering of the source.

    - The free store is a finite map from block addresses to blocks; a block
      is a list of slots, a slot being either raw ([None]) or holding a live
      object ([Some v]).
    - [Vector] objects live in an object store and every method takes the
      identity [this] of the object it is called on, so that [a = a] and
      [a = std::move(a)] are expressible.
    - Code runs in a state-and-exception monad with a third outcome for
      behaviour the C++ standard leaves undefined (and for failed [assert]s).
    - Scope exit of a local with a destructor is written out on every path
      that leaves the scope, exceptional paths included.
    - [size_t] is modelled by [nat]: the free store of the model is unbounded,
      so no count reaches the point where [size_t] arithmetic would wrap. *)

From stdpp Require Import base option list gmap.

Set Default Proof Using "Type".

(** ** Observable events *)

(** Where an object lives: in slot [i] of block [p], in the local [tmp] of
    [Emplace], or in an object of the caller. *)
Inductive Loc :=
| Slot (p i : nat)
| Tmp
| Ext.

Inductive Event :=
| EvNew (p n : nat)            (* operator new gave block p, n slots *)
| EvDelete (p : nat)           (* operator delete released block p *)
| EvValueCtor (dst : Loc)      (* T() *)
| EvArgsCtor (dst : Loc)       (* T(args...) from arguments that are not a T *)
| EvCopyCtor (src dst : Loc)   (* T(const T&) *)
| EvMoveCtor (src dst : Loc)   (* T(T&&) *)
| EvCopyAssign (src dst : Loc) (* operator=(const T&) *)
| EvMoveAssign (src dst : Loc) (* operator=(T&&) *)
| EvDtor (l : Loc).            (* ~T() *)

Global Instance Loc_eq_dec : EqDecision Loc.
Proof. solve_decision. Defined.
Global Instance Event_eq_dec : EqDecision Event.
Proof. solve_decision. Defined.

(** ** The element type

    [Vector<T>] is generic in [T]; what it needs from [T] is collected in a
    class.  An operation of [T] may throw; whether it does may depend on the
    value it reads and on everything that happened before (which covers both
    a [throw_on_copy] flag inside the object and a global countdown).  A
    throwing operation leaves its operands as they were.  The two booleans are
    the traits [CopyOrMove] branches on. *)
Class ElementType (T : Type) := {
  value_init : T;
  value_ctor_throws : list Event → bool;
  copy_ctor_throws : list Event → T → bool;
  move_ctor_throws : list Event → T → bool;
  copy_assign_throws : list Event → T → bool;
  move_assign_throws : list Event → T → bool;
  moved_from : T → T;
  is_nothrow_move_constructible_v : bool;
  is_copy_constructible_v : bool;
  nothrow_move_constructible :
    is_nothrow_move_constructible_v = true →
    ∀ h v, move_ctor_throws h v = false;
}.

(** ** The monad

    State passing with two ways of not returning: an exception in flight,
    which carries the state it left behind so that handlers and destructors
    can run on it, and undefined behaviour, after which nothing is known. *)

Section Monad.
Context {S : Type}.

Inductive Res (A : Type) :=
| Ret (a : A) (s : S)   (* normal return *)
| Throw (s : S)         (* an exception is in flight *)
| Undef.                (* undefined behaviour, or a failed assert *)
Global Arguments Ret {A} a s.
Global Arguments Throw {A} s.
Global Arguments Undef {A}.

Definition Exec (A : Type) : Type := S → Res A.

Definition ret {A} (a : A) : Exec A := λ s, Ret a s.
Definition bind {A B} (m : Exec A) (k : A → Exec B) : Exec B :=
  λ s, match m s with
       | Ret a s' => k a s'
       | Throw s' => Throw s'
       | Undef => Undef
       end.
(** [throw;] and [throw e;] *)
Definition throw {A} : Exec A := λ s, Throw s.
Definition undef {A} : Exec A := λ _, Undef.
Definition gets {A} (f : S → A) : Exec A := λ s, Ret (f s) s.
Definition modify (f : S → S) : Exec unit := λ s, Ret tt (f s).
(** [assert(b)] *)
Definition assert (b : bool) : Exec unit := if b then ret tt else undef.
(** [try { m } catch (...) { h }] *)
Definition try_catch {A} (m : Exec A) (h : Exec A) : Exec A :=
  λ s, match m s with
       | Throw s' => h s'
       | r => r
       end.
(** Stack unwinding through a scope: the destructors of its locals run and
    the exception goes on. *)
Definition on_unwind {A} (m : Exec A) (cleanup : Exec unit) : Exec A :=
  try_catch m (bind cleanup (λ _, throw)).

(** [wp m Q E s]: run from [s], [m] returns in a state satisfying [Q] or
    throws in a state satisfying [E], if its behaviour is defined at all. *)
Definition wp {A} (m : Exec A) (Q : A → S → Prop) (E : S → Prop) (s : S) : Prop :=
  match m s with
  | Ret a s' => Q a s'
  | Throw s' => E s'
  | Undef => True
  end.

End Monad.

Global Arguments Res : clear implicits.
Global Arguments Exec : clear implicits.

Declare Scope cpp_scope.
Delimit Scope cpp_scope with cpp.
Notation "x ← m ; k" := (bind m (λ x, k))
  (at level 20, m at level 100, k at level 200, only parsing) : cpp_scope.
Notation "m ;; k" := (bind m (λ _, k))
  (at level 100, k at level 200, only parsing, right associativity) : cpp_scope.
Local Open Scope cpp_scope.

(** ** Objects and state *)

Record RawMemory := mkRawMemory {
  buffer_ : option nat;   (* T* buffer_ = nullptr *)
  capacity_ : nat;        (* size_t capacity_ = 0 *)
}.

Record Vector := mkVector {
  data_ : RawMemory;
  size_ : nat;            (* size_t size_ = 0 *)
}.

(** A [T*]: a block (or [nullptr]) and an offset into it. *)
Record Ptr := mkPtr {
  base : option nat;
  off : nat;
}.

Definition ptr_add (q : Ptr) (k : nat) : Ptr := mkPtr (base q) (off q + k).
Definition ptr_sub (q : Ptr) (k : nat) : Ptr := mkPtr (base q) (off q - k).

Definition loc_of (q : Ptr) : Loc :=
  match base q with
  | Some p => Slot p (off q)
  | None => Ext
  end.

Global Instance RawMemory_eq_dec : EqDecision RawMemory.
Proof. solve_decision. Defined.
Global Instance Vector_eq_dec : EqDecision Vector.
Proof. solve_decision. Defined.
Global Instance Ptr_eq_dec : EqDecision Ptr.
Proof. solve_decision. Defined.

Section Model.
Context {T : Type} `{ET : ElementType T}.

Record State := mkState {
  heap : gmap nat (list (option T));  (* the free store *)
  next : nat;                         (* the next address operator new gives *)
  vecs : gmap nat Vector;             (* the Vector objects, by identity *)
  log : list Event;                   (* what happened so far *)
}.

Definition set_heap (h : gmap nat (list (option T))) (s : State) : State :=
  mkState h (next s) (vecs s) (log s).
Definition set_next (n : nat) (s : State) : State :=
  mkState (heap s) n (vecs s) (log s).
Definition set_vecs (vs : gmap nat Vector) (s : State) : State :=
  mkState (heap s) (next s) vs (log s).
Definition add_log (e : Event) (s : State) : State :=
  mkState (heap s) (next s) (vecs s) (log s ++ [e]).

Definition init : State := mkState ∅ 0 ∅ [].

Local Abbreviation M := (Exec State).

Definition emit (e : Event) : M unit := modify (add_log e).

(** ** The free store *)

(** [operator new(n * sizeof(T))]: a fresh block of [n] raw slots. *)
Definition operator_new (n : nat) : M nat :=
  λ s, let p := next s in
       Ret p (add_log (EvNew p n)
                (set_next (S p) (set_heap (<[p := replicate n None]> (heap s)) s))).

(** [operator delete(buf)]: nothing for [nullptr]; releasing a block that is
    not allocated is undefined. *)
Definition operator_delete (buf : option nat) : M unit :=
  match buf with
  | None => ret tt
  | Some p =>
      λ s, match heap s !! p with
           | Some _ => Ret tt (add_log (EvDelete p) (set_heap (delete p (heap s)) s))
           | None => Undef
           end
  end.

(** The slot a pointer designates, if it designates one. *)
Definition slot_at (s : State) (q : Ptr) : option (option T) :=
  match base q with
  | Some p =>
      match heap s !! p with
      | Some b => b !! off q
      | None => None
      end
  | None => None
  end.

(** Reading through a pointer: the slot must hold a live object. *)
Definition read_slot (q : Ptr) : M T :=
  λ s, match slot_at s q with
       | Some (Some v) => Ret v s
       | _ => Undef
       end.

(** Writing a slot of an allocated block, in bounds. *)
Definition write_slot (q : Ptr) (o : option T) : M unit :=
  λ s, match base q with
       | Some p =>
           match heap s !! p with
           | Some b =>
               if decide (off q < length b)
               then Ret tt (set_heap (<[p := <[off q := o]> b]> (heap s)) s)
               else Undef
           | None => Undef
           end
       | None => Undef
       end.

(** ** Operations of [T] at addresses *)

(** [new (dst) T()] *)
Definition value_construct (dst : Ptr) : M unit :=
  h ← gets log;
  if value_ctor_throws h then throw
  else (write_slot dst (Some value_init);; emit (EvValueCtor (loc_of dst))).

(** [new (dst) T(src[0])] *)
Definition copy_construct (src dst : Ptr) : M unit :=
  v ← read_slot src;
  h ← gets log;
  if copy_ctor_throws h v then throw
  else (write_slot dst (Some v);; emit (EvCopyCtor (loc_of src) (loc_of dst))).

(** [new (dst) T(std::move(src[0]))] *)
Definition move_construct (src dst : Ptr) : M unit :=
  v ← read_slot src;
  h ← gets log;
  if move_ctor_throws h v then throw
  else (write_slot dst (Some v);;
        write_slot src (Some (moved_from v));;
        emit (EvMoveCtor (loc_of src) (loc_of dst))).

(** [dst[0] = src[0]] *)
Definition copy_assign (src dst : Ptr) : M unit :=
  v ← read_slot src;
  _ ← read_slot dst;
  h ← gets log;
  if copy_assign_throws h v then throw
  else (write_slot dst (Some v);; emit (EvCopyAssign (loc_of src) (loc_of dst))).

(** [dst[0] = std::move(src[0])] *)
Definition move_assign (src dst : Ptr) : M unit :=
  v ← read_slot src;
  _ ← read_slot dst;
  h ← gets log;
  if move_assign_throws h v then throw
  else (write_slot dst (Some v);;
        write_slot src (Some (moved_from v));;
        emit (EvMoveAssign (loc_of src) (loc_of dst))).

(** [q->~T()] *)
Definition destroy_at (q : Ptr) : M unit :=
  _ ← read_slot q;
  write_slot q None;;
  emit (EvDtor (loc_of q)).

(** ** The arguments of [EmplaceBack] and [Emplace]

    What [T(std::forward<Args>(args)...)] is built from: a [const T&]
    (the [Insert] and [PushBack] taking [const T&]), a [T&&] (those taking
    [T&&]), or arguments that are not a [T], in which case the constructor
    gives an object or throws.  A reference is either to an object of the
    caller outside the free store, or to a slot, which may be a slot of the
    very vector the method is called on. *)
Inductive Ref :=
| RExt (v : T)
| RSlot (q : Ptr).

Inductive Args :=
| ByCopy (r : Ref)
| ByMove (r : Ref)
| FromArgs (r : option T).

(** [T(args...)] for an object at [dst]; gives the value of the new object. *)
Definition construct_value (a : Args) (dst : Loc) : M T :=
  match a with
  | ByCopy (RExt v) =>
      h ← gets log;
      if copy_ctor_throws h v then throw
      else (emit (EvCopyCtor Ext dst);; ret v)
  | ByCopy (RSlot q) =>
      v ← read_slot q;
      h ← gets log;
      if copy_ctor_throws h v then throw
      else (emit (EvCopyCtor (loc_of q) dst);; ret v)
  | ByMove (RExt v) =>
      h ← gets log;
      if move_ctor_throws h v then throw
      else (emit (EvMoveCtor Ext dst);; ret v)
  | ByMove (RSlot q) =>
      v ← read_slot q;
      h ← gets log;
      if move_ctor_throws h v then throw
      else (write_slot q (Some (moved_from v));;
            emit (EvMoveCtor (loc_of q) dst);; ret v)
  | FromArgs (Some v) => emit (EvArgsCtor dst);; ret v
  | FromArgs None => throw
  end.

(** [new (dst) T(args...)] *)
Definition placement_new (dst : Ptr) (a : Args) : M unit :=
  v ← construct_value a (loc_of dst);
  write_slot dst (Some v).

(** ** Algorithms of [<memory>] and [<algorithm>] *)

(** [std::destroy_n(first, n)] *)
Fixpoint destroy_n (first : Ptr) (n : nat) : M unit :=
  match n with
  | 0 => ret tt
  | S n' => destroy_at first;; destroy_n (ptr_add first 1) n'
  end.

(** The three [uninitialized_*_n] share one shape: a loop constructing at
    [cur] from [first], inside a [try] whose handler destroys [result, cur)
    and rethrows.  Only the construction can throw, so the handler is put
    around it; [done] is [cur - result]. *)
Fixpoint uninitialized_n (construct : Ptr → Ptr → M unit)
    (first : Ptr) (n : nat) (result : Ptr) (done : nat) : M unit :=
  match n with
  | 0 => ret tt
  | S n' =>
      try_catch (construct first (ptr_add result done))
                (destroy_n result done;; throw);;
      uninitialized_n construct (ptr_add first 1) n' result (S done)
  end.

(** [std::uninitialized_copy_n(first, n, result)] *)
Definition uninitialized_copy_n (first : Ptr) (n : nat) (result : Ptr) : M unit :=
  uninitialized_n copy_construct first n result 0.

(** [std::uninitialized_move_n(first, n, result)] *)
Definition uninitialized_move_n (first : Ptr) (n : nat) (result : Ptr) : M unit :=
  uninitialized_n move_construct first n result 0.

(** [std::uninitialized_value_construct_n(first, n)] *)
Definition uninitialized_value_construct_n (first : Ptr) (n : nat) : M unit :=
  uninitialized_n (λ _ dst, value_construct dst) first n first 0.

(** [std::move_backward(first, last, d_last)]:
    [while (first != last) { --d_last; --last; d_last[0] = std::move(last[0]); }] *)
Fixpoint move_backward_n (last d_last : Ptr) (n : nat) : M unit :=
  match n with
  | 0 => ret tt
  | S n' =>
      move_assign (ptr_sub last 1) (ptr_sub d_last 1);;
      move_backward_n (ptr_sub last 1) (ptr_sub d_last 1) n'
  end.
Definition move_backward (first last d_last : Ptr) : M unit :=
  move_backward_n last d_last (off last - off first).

(** [std::move(first, last, d_first)]:
    [for (; first != last; ++first, ++d_first) d_first[0] = std::move(first[0]);] *)
Fixpoint move_n (first d_first : Ptr) (n : nat) : M unit :=
  match n with
  | 0 => ret tt
  | S n' =>
      move_assign first d_first;;
      move_n (ptr_add first 1) (ptr_add d_first 1) n'
  end.
Definition move_range (first last d_first : Ptr) : M unit :=
  move_n first d_first (off last - off first).

(** ** [RawMemory<T>] *)

(** [static T* Allocate(size_t n)] *)
Definition Allocate (n : nat) : M (option nat) :=
  if decide (n ≠ 0) then (p ← operator_new n; ret (Some p)) else ret None.

(** [static void Deallocate(T* buf) noexcept] *)
Definition Deallocate (buf : option nat) : M unit := operator_delete buf.

(** [RawMemory() = default] *)
Definition RawMemory_default : RawMemory := mkRawMemory None 0.

(** [explicit RawMemory(size_t capacity)] *)
Definition RawMemory_ctor (capacity : nat) : M RawMemory :=
  b ← Allocate capacity; ret (mkRawMemory b capacity).

(** [~RawMemory()] *)
Definition RawMemory_dtor (m : RawMemory) : M unit := Deallocate (buffer_ m).

(** [void Swap(RawMemory& other) noexcept], on the two values. *)
Definition RawMemory_Swap (a b : RawMemory) : RawMemory * RawMemory := (b, a).

(** [RawMemory(RawMemory&& other) noexcept]: a default-initialised object
    swapped with [other].  Gives the new object and what is left in [other]. *)
Definition RawMemory_move_ctor (other : RawMemory) : RawMemory * RawMemory :=
  RawMemory_Swap RawMemory_default other.

(** [T* operator+(size_t offset) noexcept] *)
Definition RawMemory_plus (m : RawMemory) (offset : nat) : M Ptr :=
  assert (bool_decide (offset ≤ capacity_ m));;
  ret (mkPtr (buffer_ m) offset).

(** [T& operator[](size_t index) noexcept]; the reference is kept as its
    address. *)
Definition RawMemory_at (m : RawMemory) (index : nat) : M Ptr :=
  assert (bool_decide (index < capacity_ m));;
  ret (mkPtr (buffer_ m) index).

(** [T* GetAddress() noexcept] *)
Definition GetAddress (m : RawMemory) : Ptr := mkPtr (buffer_ m) 0.

(** ** [Vector<T>] *)

(** Member access through [this]; using an object that does not exist is
    undefined. *)
Definition get_vec (this : nat) : M Vector :=
  λ s, match vecs s !! this with
       | Some v => Ret v s
       | None => Undef
       end.
Definition put_vec (this : nat) (v : Vector) : M unit :=
  modify (λ s, set_vecs (<[this := v]> (vecs s)) s).
Definition get_data (this : nat) : M RawMemory := v ← get_vec this; ret (data_ v).
Definition get_size (this : nat) : M nat := v ← get_vec this; ret (size_ v).
Definition set_data (this : nat) (d : RawMemory) : M unit :=
  v ← get_vec this; put_vec this (mkVector d (size_ v)).
Definition set_size (this : nat) (n : nat) : M unit :=
  v ← get_vec this; put_vec this (mkVector (data_ v) n).

(** A constructor brings a new object into being: its identity must be
    unused. *)
Definition new_vec (this : nat) (v : Vector) : M unit :=
  λ s, match vecs s !! this with
       | Some _ => Undef
       | None => Ret tt (set_vecs (<[this := v]> (vecs s)) s)
       end.

(** [Vector() = default] *)
Definition Vector_default (this : nat) : M unit :=
  new_vec this (mkVector RawMemory_default 0).

(** [explicit Vector(size_t size)]; when the body throws, the member
    [data_] is destroyed and no object comes into being. *)
Definition Vector_sized (this : nat) (size : nat) : M unit :=
  d ← RawMemory_ctor size;
  on_unwind (uninitialized_value_construct_n (GetAddress d) size)
            (RawMemory_dtor d);;
  new_vec this (mkVector d size).

(** [Vector(const Vector& other)], as a value: the copy is also made as a
    local of [operator=]. *)
Definition Vector_copy_ctor (other : nat) : M Vector :=
  o ← get_vec other;
  d ← RawMemory_ctor (size_ o);
  on_unwind (uninitialized_copy_n (GetAddress (data_ o)) (size_ o) (GetAddress d))
            (RawMemory_dtor d);;
  ret (mkVector d (size_ o)).

Definition Vector_copy (this other : nat) : M unit :=
  v ← Vector_copy_ctor other; new_vec this v.

(** [Vector(Vector&& other) noexcept] *)
Definition Vector_move (this other : nat) : M unit :=
  od ← get_data other;
  let '(d, od') := RawMemory_move_ctor od in
  set_data other od';;
  sz ← get_size other;
  set_size other 0;;
  new_vec this (mkVector d sz).

(** [~Vector()], of a local held as a value, and of an object of the store. *)
Definition Vector_dtor_local (v : Vector) : M unit :=
  destroy_n (GetAddress (data_ v)) (size_ v);;
  RawMemory_dtor (data_ v).
Definition Vector_dtor (this : nat) : M unit :=
  v ← get_vec this;
  Vector_dtor_local v;;
  modify (λ s, set_vecs (delete this (vecs s)) s).

(** [size_t Size() const noexcept] *)
Definition Size (this : nat) : M nat := get_size this.

(** [size_t Capacity() const noexcept] *)
Definition Capacity (this : nat) : M nat := d ← get_data this; ret (capacity_ d).

(** [iterator begin() noexcept] *)
Definition begin_ (this : nat) : M Ptr := d ← get_data this; ret (GetAddress d).

(** [iterator end() noexcept] *)
Definition end_ (this : nat) : M Ptr :=
  d ← get_data this; sz ← get_size this; RawMemory_plus d sz.

(** [T& operator[](size_t index) noexcept], read through. *)
Definition Vector_at (this : nat) (index : nat) : M T :=
  sz ← get_size this;
  assert (bool_decide (index < sz));;
  d ← get_data this;
  q ← RawMemory_at d index;
  read_slot q.

(** [void Swap(Vector& other) noexcept] *)
Definition Swap (this other : nat) : M unit :=
  a ← get_data this; b ← get_data other;
  set_data this b;; set_data other a;;
  n ← get_size this; m ← get_size other;
  set_size this m;; set_size other n.

(** [void CopyOrMove(T* from, T* to, size_t count)] *)
Definition CopyOrMove (from to : Ptr) (count : nat) : M unit :=
  (if is_nothrow_move_constructible_v || negb is_copy_constructible_v
   then uninitialized_move_n from count to
   else uninitialized_copy_n from count to);;
  destroy_n from count.

(** [void Reserve(size_t new_capacity)] *)
Definition Reserve (this : nat) (new_capacity : nat) : M unit :=
  d ← get_data this;
  if bool_decide (new_capacity ≤ capacity_ d) then ret tt
  else
    new_data ← RawMemory_ctor new_capacity;
    on_unwind (sz ← get_size this;
               CopyOrMove (GetAddress d) (GetAddress new_data) sz)
              (RawMemory_dtor new_data);;
    set_data this new_data;;
    RawMemory_dtor d.

(** [void Resize(size_t new_size)] *)
Definition Resize (this : nat) (new_size : nat) : M unit :=
  sz ← get_size this;
  if bool_decide (new_size = sz) then ret tt
  else
    (if bool_decide (new_size < sz) then
       d ← get_data this;
       q ← RawMemory_plus d new_size;
       destroy_n q (sz - new_size)
     else
       Reserve this new_size;;
       d ← get_data this;
       q ← RawMemory_plus d sz;
       uninitialized_value_construct_n q (new_size - sz));;
    set_size this new_size.

(** [void PopBack()] *)
Definition PopBack (this : nat) : M unit :=
  sz ← get_size this;
  if bool_decide (0 < sz) then
    d ← get_data this;
    q ← RawMemory_plus d sz;
    destroy_n (ptr_sub q 1) 1;;
    set_size this (sz - 1)
  else ret tt.

(** [template <typename... Args> T& EmplaceBack(Args&&... args)];
    the reference returned is kept as its address. *)
Definition EmplaceBack (this : nat) (args : Args) : M Ptr :=
  sz ← get_size this;
  cap ← Capacity this;
  elem ← (if bool_decide (sz = cap) then
            new_data ← RawMemory_ctor (if bool_decide (sz = 0) then 1 else sz * 2);
            elem ← on_unwind
                     (q ← RawMemory_plus new_data sz;
                      placement_new q args;;
                      d ← get_data this;
                      CopyOrMove (GetAddress d) (GetAddress new_data) sz;;
                      ret q)
                     (RawMemory_dtor new_data);
            d ← get_data this;
            set_data this new_data;;
            RawMemory_dtor d;;
            ret elem
          else
            d ← get_data this;
            q ← RawMemory_plus d sz;
            placement_new q args;;
            ret q);
  sz' ← get_size this;
  set_size this (S sz');;
  ret elem.

(** [void PushBack(const T& value)] and [void PushBack(T&& value)] *)
Definition PushBack_copy (this : nat) (value : Ref) : M unit :=
  EmplaceBack this (ByCopy value);; ret tt.
Definition PushBack_move (this : nat) (value : Ref) : M unit :=
  EmplaceBack this (ByMove value);; ret tt.

(** [template <typename... Args> iterator Emplace(const_iterator pos, Args&&... args)];
    [pos] is given as [pos - begin()]. *)
Definition Emplace (this : nat) (pos : nat) (args : Args) : M Ptr :=
  sz ← get_size this;
  _ ← end_ this;
  assert (bool_decide (pos ≤ sz));;
  if bool_decide (pos = sz) then EmplaceBack this args
  else
    let index := pos in
    cap ← Capacity this;
    (if bool_decide (sz ≠ cap) then
       tmp ← construct_value args Tmp;
       on_unwind
         (let last_el := sz - 1 in
          d ← get_data this;
          e ← end_ this;
          src ← RawMemory_at d last_el;
          move_construct src e;;
          first ← RawMemory_plus d index;
          last ← RawMemory_plus d last_el;
          d_last ← end_ this;
          move_backward first last d_last;;
          dst ← RawMemory_at d index;
          _ ← read_slot dst;
          h ← gets log;
          if move_assign_throws h tmp then throw
          else (write_slot dst (Some tmp);; emit (EvMoveAssign Tmp (loc_of dst))))
         (emit (EvDtor Tmp));;
       emit (EvDtor Tmp)
     else
       new_data ← RawMemory_ctor (if bool_decide (sz = 0) then 1 else sz * 2);
       on_unwind
         (q ← RawMemory_plus new_data index;
          placement_new q args;;
          d ← get_data this;
          try_catch (CopyOrMove (GetAddress d) (GetAddress new_data) index)
                    (q' ← RawMemory_at new_data index;
                     destroy_at q';;
                     throw);;
          try_catch (from ← RawMemory_plus d index;
                     to ← RawMemory_plus new_data (index + 1);
                     CopyOrMove from to (sz - index))
                    (destroy_n (GetAddress new_data) (index + 1)))
         (RawMemory_dtor new_data);;
       d ← get_data this;
       set_data this new_data;;
       RawMemory_dtor d);;
    sz' ← get_size this;
    set_size this (S sz');;
    d ← get_data this;
    RawMemory_plus d index.

(** [iterator Insert(const_iterator pos, const T& value)] and
    [iterator Insert(const_iterator pos, T&& value)] *)
Definition Insert_copy (this : nat) (pos : nat) (value : Ref) : M Ptr :=
  Emplace this pos (ByCopy value).
Definition Insert_move (this : nat) (pos : nat) (value : Ref) : M Ptr :=
  Emplace this pos (ByMove value).

(** [iterator Erase(const_iterator pos)]; [pos] is given as [pos - begin()]. *)
Definition Erase (this : nat) (pos : nat) : M Ptr :=
  sz ← get_size this;
  _ ← end_ this;
  assert (bool_decide (pos ≤ sz));;
  if bool_decide (pos = sz) then
    PopBack this;;
    end_ this
  else
    let index := pos in
    d ← get_data this;
    q ← RawMemory_plus d index;
    e ← end_ this;
    q' ← RawMemory_plus d index;
    move_range (ptr_add q 1) e q';;
    PopBack this;;
    d' ← get_data this;
    RawMemory_plus d' index.

(** [for (; i != n; ++i) { data_[i] = rhs.data_[i]; }], with [count]
    iterations left. *)
Fixpoint for_copy_assign (rd d : RawMemory) (i count : nat) : M unit :=
  match count with
  | 0 => ret tt
  | S count' =>
      src ← RawMemory_at rd i;
      dst ← RawMemory_at d i;
      copy_assign src dst;;
      for_copy_assign rd d (S i) count'
  end.

(** [Vector& operator=(const Vector& rhs)] *)
Definition Vector_copy_assign (this rhs : nat) : M unit :=
  (if bool_decide (this ≠ rhs) then
     rsz ← get_size rhs;
     cap ← Capacity this;
     if bool_decide (cap < rsz) then
       rhs_copy ← Vector_copy_ctor rhs;
       (* Swap(rhs_copy), then rhs_copy goes out of scope *)
       old ← get_vec this;
       put_vec this rhs_copy;;
       Vector_dtor_local old
     else
       sz ← get_size this;
       d ← get_data this;
       rd ← get_data rhs;
       if bool_decide (rsz < sz) then
         for_copy_assign rd d 0 rsz;;
         q ← RawMemory_plus d rsz;
         destroy_n q (sz - rsz)
       else
         for_copy_assign rd d 0 sz;;
         from ← RawMemory_plus rd sz;
         to ← RawMemory_plus d sz;
         uninitialized_copy_n from (rsz - sz) to
   else ret tt);;
  rsz ← get_size rhs;
  set_size this rsz.

(** [Vector& operator=(Vector&& rhs) noexcept]; the member assignment
    [data_ = std::move(rhs.data_)] is [RawMemory]'s move assignment, which
    tests [this != &rhs] on the members and overwrites [buffer_] and
    [capacity_] without releasing what they held. *)
Definition Vector_move_assign (this rhs : nat) : M unit :=
  (if bool_decide (this ≠ rhs) then
     rd ← get_data rhs;
     set_data rhs (mkRawMemory None 0);;
     set_data this rd
   else ret tt);;
  rsz ← get_size rhs;
  set_size rhs 0;;
  set_size this rsz.

(** ** Events of the loops *)

(** Events of a loop over consecutive slots. *)
Definition dtor_events (p i n : nat) : list Event :=
  (λ k, EvDtor (Slot p k)) <$> seq i n.

Definition copy_events (p q i j n : nat) : list Event :=
  (λ k, EvCopyCtor (Slot p (i + k)) (Slot q (j + k))) <$> seq 0 n.
Definition move_events (p q i j n : nat) : list Event :=
  (λ k, EvMoveCtor (Slot p (i + k)) (Slot q (j + k))) <$> seq 0 n.

(** The policy of [CopyOrMove], and what follows from it. *)
Definition relocates_by_move : bool :=
  is_nothrow_move_constructible_v || negb is_copy_constructible_v.
Definition relocation_throws (h : list Event) (v : T) : bool :=
  if relocates_by_move then move_ctor_throws h v else copy_ctor_throws h v.
Definition relocation_events (p q i j n : nat) : list Event :=
  if relocates_by_move then move_events p q i j n else copy_events p q i j n.

(** ** Storage and events of whole methods *)

(** What [operator delete] leaves of the free store. *)
Definition released (buf : option nat) (h : gmap nat (list (option T))) :
    gmap nat (list (option T)) :=
  match buf with
  | Some p => delete p h
  | None => h
  end.

(** The events of relocating [n] elements out of [buf] into the start of block [q] and
    releasing [buf]. *)
Definition moving_out_events (buf : option nat) (q n : nat) : list Event :=
  match buf with
  | Some p => relocation_events p q 0 0 n ++ dtor_events p 0 n ++ [EvDelete p]
  | None => []
  end.
(** The events of destroying the [n] elements of [buf] and releasing it. *)
Definition teardown_events (buf : option nat) (n : nat) : list Event :=
  match buf with
  | Some p => dtor_events p 0 n ++ [EvDelete p]
  | None => []
  end.

(** *** What the arguments of an emplacement denote

    For a vector on storage [buf] holding [xs]: whether a reference among the
    arguments is to an object of the caller or to one of the elements, the
    value the new object gets, what the elements are once it is built (a
    moved-from element changes), whether building it throws, and the event
    it leaves. *)
Definition args_ok (buf : option nat) (xs : list T) (a : Args) : Prop :=
  match a with
  | ByCopy (RSlot q) | ByMove (RSlot q) =>
      base q = buf ∧ is_Some buf ∧ off q < length xs
  | _ => True
  end.

Definition args_value (xs : list T) (a : Args) : option T :=
  match a with
  | ByCopy (RExt v) | ByMove (RExt v) | FromArgs (Some v) => Some v
  | ByCopy (RSlot q) | ByMove (RSlot q) => xs !! off q
  | FromArgs None => None
  end.

Definition args_residue (xs : list T) (a : Args) : list T :=
  match a with
  | ByMove (RSlot q) => alter moved_from (off q) xs
  | _ => xs
  end.

Definition args_throws (h : list Event) (a : Args) (v : T) : bool :=
  match a with
  | ByCopy _ => copy_ctor_throws h v
  | ByMove _ => move_ctor_throws h v
  | FromArgs _ => false
  end.

Definition ref_loc (r : Ref) : Loc :=
  match r with
  | RExt _ => Ext
  | RSlot q => loc_of q
  end.

Definition args_event (a : Args) (dst : Loc) : Event :=
  match a with
  | ByCopy r => EvCopyCtor (ref_loc r) dst
  | ByMove r => EvMoveCtor (ref_loc r) dst
  | FromArgs _ => EvArgsCtor dst
  end.

(** The free store with the block of [buf], if there is one, replaced. *)
Definition with_block (buf : option nat) (b : list (option T))
    (h : gmap nat (list (option T))) : gmap nat (list (option T)) :=
  match buf with
  | Some p => <[p := b]> h
  | None => h
  end.

(** The capacity an overflowing vector of size [n] grows to. *)
Definition grown (n : nat) : nat := if bool_decide (n = 0) then 1 else n * 2.

(** What is left in the slot the shifting of [B] started from: the
    moved-from first element of [B], or what was behind [B] when there was
    nothing to shift. *)
Definition head_moved (B : list T) (m : T) : T :=
  match B with
  | [] => m
  | b :: _ => moved_from b
  end.

(** The events of [move_backward] shifting [n] slots from [i] on one to the
    right, last slot first. *)
Definition shift_events (p i n : nat) : list Event :=
  (λ k, EvMoveAssign (Slot p k) (Slot p (S k))) <$> reverse (seq i n).

(** Neither moving [x] out by construction nor by assignment throws, for
    the [x] of [l]. *)
Definition moves_nothrow (l : list T) : Prop :=
  ∀ h x, x ∈ l → move_ctor_throws h x = false ∧ move_assign_throws h x = false.

(** The events of [Emplace] at [pos] into the spare capacity of block [p]
    holding [n] elements. *)
Definition emplace_events (a : Args) (p pos n : nat) : list Event :=
  args_event a Tmp
  :: EvMoveCtor (Slot p (n - 1)) (Slot p n)
  :: shift_events p pos (n - 1 - pos)
  ++ [EvMoveAssign Tmp (Slot p pos); EvDtor Tmp].

(** ** What the claims are stated with *)

(** Relocation cannot lose an element: moving cannot throw, or copies are
    made. *)
Definition relocation_is_safe : Prop :=
  is_nothrow_move_constructible_v = true ∨ is_copy_constructible_v = true.

(** Where an event takes a value from, if it takes one. *)
Definition source_of (e : Event) : option Loc :=
  match e with
  | EvCopyCtor src _ | EvMoveCtor src _
  | EvCopyAssign src _ | EvMoveAssign src _ => Some src
  | _ => None
  end.

(** How often the element in slot [i] of block [p] is the source of a
    construction or assignment. *)
Definition times_relocated (p i : nat) (evs : list Event) : nat :=
  length (filter (λ e, source_of e = Some (Slot p i)) evs).

(** The value of arguments that do not refer to a slot of the free store. *)
Definition ext_value (a : Args) : option T :=
  match a with
  | ByCopy (RExt v) | ByMove (RExt v) | FromArgs (Some v) => Some v
  | _ => None
  end.



(** ** Events of the other methods *)

(** What [std::move(first + 1, last, first)] leaves in the last slot it read:
    the moved-from state of the last of [B], or [m] when nothing moved. *)
Definition last_moved (B : list T) (m : T) : T :=
  match last B with
  | Some z => moved_from z
  | None => m
  end.

(** The events of [std::move] shifting [n] slots from [S i] on one to the
    left, first slot first. *)
Definition unshift_events (p i n : nat) : list Event :=
  (λ k, EvMoveAssign (Slot p (S k)) (Slot p k)) <$> seq i n.

(** The events of [Erase] at [pos] in block [p] holding [n] elements. *)
Definition erase_events (p pos n : nat) : list Event :=
  unshift_events p pos (n - 1 - pos) ++ [EvDtor (Slot p (n - 1))].


(** The events of [Emplace] at [pos] on a full vector of [n] elements in
    block [p], reallocating to block [q]. *)
Definition emplace_grow_events (a : Args) (p q pos n : nat) : list Event :=
  EvNew q (grown n)
  :: args_event a (Slot q pos)
  :: relocation_events p q 0 0 pos ++ dtor_events p 0 pos
  ++ relocation_events p q pos (S pos) (n - pos) ++ dtor_events p pos (n - pos)
  ++ [EvDelete p].

(** The events of the loop [data_[i] = rhs.data_[i]] over [n] slots from [i]
    on, from block [pr] to block [p]. *)
Definition copy_assign_events (pr p i n : nat) : list Event :=
  (λ k, EvCopyAssign (Slot pr k) (Slot p k)) <$> seq i n.

(** The events of copy assignment within the capacity, from [m] elements in
    block [pr] to a vector of [n] elements in block [p]: the common prefix is
    assigned, then the excess is destroyed or what is missing is
    copy-constructed. *)
Definition assign_in_place_events (pr p n m : nat) : list Event :=
  copy_assign_events pr p 0 (n `min` m)
  ++ dtor_events p m (n - m)
  ++ copy_events pr p n n (m - n).

(** ** Programs over the public interface *)

Inductive Op :=
| OpDefault (this : nat)
| OpSized (this size : nat)
| OpCopy (this other : nat)
| OpMove (this other : nat)
| OpCopyAssign (this rhs : nat)
| OpMoveAssign (this rhs : nat)
| OpReserve (this new_capacity : nat)
| OpResize (this new_size : nat)
| OpEmplaceBack (this : nat) (args : Args)
| OpPopBack (this : nat)
| OpEmplace (this pos : nat) (args : Args)
| OpErase (this pos : nat)
| OpSwap (this other : nat)
| OpDtor (this : nat).

Definition run_op (o : Op) : M unit :=
  match o with
  | OpDefault this => Vector_default this
  | OpSized this size => Vector_sized this size
  | OpCopy this other => Vector_copy this other
  | OpMove this other => Vector_move this other
  | OpCopyAssign this rhs => Vector_copy_assign this rhs
  | OpMoveAssign this rhs => Vector_move_assign this rhs
  | OpReserve this n => Reserve this n
  | OpResize this n => Resize this n
  | OpEmplaceBack this a => EmplaceBack this a;; ret tt
  | OpPopBack this => PopBack this
  | OpEmplace this pos a => Emplace this pos a;; ret tt
  | OpErase this pos => Erase this pos;; ret tt
  | OpSwap this other => Swap this other
  | OpDtor this => Vector_dtor this
  end.

(** The states at the exits of the operations of a program, in order.  An
    operation left by an exception has an exit too: the caller catches and
    goes on.  Nothing is known after undefined behaviour. *)
Fixpoint exits (ops : list Op) (s : State) : list State :=
  match ops with
  | [] => []
  | o :: ops' =>
      match run_op o s with
      | Ret _ s' => s' :: exits ops' s'
      | Throw s' => s' :: exits ops' s'
      | Undef => []
      end
  end.

(** [size ≤ capacity], for every vector there is. *)
Definition okv (vs : gmap nat Vector) : Prop :=
  map_Forall (λ _ v, size_ v ≤ capacity_ (data_ v)) vs.
Definition size_le_capacity (s : State) : Prop := okv (vecs s).

(** [wp] for properties of the object store alone. *)
Definition wpv {A} (m : M A) (Q : A → gmap nat Vector → Prop)
    (E : gmap nat Vector → Prop) (vs : gmap nat Vector) : Prop :=
  ∀ s, vecs s = vs → wp m (λ a s', Q a (vecs s')) (λ s', E (vecs s')) s.

(** [m] leaves the object store alone. *)
Definition frames {A} (m : M A) : Prop :=
  ∀ vs, wpv m (λ _ vs', vs' = vs) (λ vs', vs' = vs) vs.

(** ** What a vector holds *)

(** The block of a vector of capacity [cap] holding [xs]: live objects in
    front, raw slots behind. *)
Definition block_of (xs : list T) (cap : nat) : list (option T) :=
  (Some <$> xs) ++ replicate (cap - length xs) None.

(** Object [this] is a vector of capacity [cap] whose storage is [buf] and
    whose elements are [xs]. *)
Definition holds (s : State) (this : nat) (buf : option nat) (cap : nat)
    (xs : list T) : Prop :=
  vecs s !! this = Some (mkVector (mkRawMemory buf cap) (length xs)) ∧
  length xs ≤ cap ∧
  match buf with
  | Some p => heap s !! p = Some (block_of xs cap)
  | None => cap = 0
  end.

(** [operator new] never hands out an address twice. *)
Definition heap_fresh (s : State) : Prop :=
  map_Forall (λ p _, p < next s) (heap s).

(** The events of a run: what the log gained. *)
Definition events_since (s s' : State) : list Event :=
  drop (length (log s)) (log s').

(** Moves and copies, by constructor or by assignment, out of a slot of
    block [p]. *)
Definition relocates_from (p : nat) (e : Event) : bool :=
  match e with
  | EvCopyCtor (Slot p' _) _ | EvMoveCtor (Slot p' _) _
  | EvCopyAssign (Slot p' _) _ | EvMoveAssign (Slot p' _) _ => bool_decide (p' = p)
  | _ => false
  end.

(** Moves out of the temporary of [Emplace]. *)
Definition moves_tmp (e : Event) : bool :=
  match e with
  | EvMoveCtor Tmp _ | EvMoveAssign Tmp _ => true
  | _ => false
  end.

Definition is_new (e : Event) : bool :=
  match e with
  | EvNew _ _ => true
  | _ => false
  end.

End Model.

(** ** Element types to run the code on *)

(** [int]: nothing throws, a moved-from [int] keeps its value. *)
Global Instance int_element : ElementType nat := {|
  value_init := 0;
  value_ctor_throws _ := false;
  copy_ctor_throws _ _ := false;
  move_ctor_throws _ _ := false;
  copy_assign_throws _ _ := false;
  move_assign_throws _ _ := false;
  moved_from v := v;
  is_nothrow_move_constructible_v := true;
  is_copy_constructible_v := true;
  nothrow_move_constructible _ _ _ := eq_refl;
|}.

(** A class with a [throw_on_copy] flag, the way exception-safety tests
    inject failures; its move constructor is not [noexcept], so relocation
    copies. *)
Record Obj := mkObj {
  obj_id : nat;
  throw_on_copy : bool;
}.

Global Instance Obj_element : ElementType Obj := {|
  value_init := mkObj 0 false;
  value_ctor_throws _ := false;
  copy_ctor_throws _ o := throw_on_copy o;
  move_ctor_throws _ _ := false;
  copy_assign_throws _ o := throw_on_copy o;
  move_assign_throws _ _ := false;
  moved_from o := mkObj 0 false;
  is_nothrow_move_constructible_v := false;
  is_copy_constructible_v := true;
  nothrow_move_constructible H := match Bool.diff_false_true H with end;
|}.

(** A move-only class whose move constructor may throw: relocation has to
    move it. *)
Record MoveOnly := mkMoveOnly {
  payload : nat;
  throw_on_move : bool;
}.

Global Instance MoveOnly_element : ElementType MoveOnly := {|
  value_init := mkMoveOnly 0 false;
  value_ctor_throws _ := false;
  copy_ctor_throws _ _ := false;
  move_ctor_throws _ o := throw_on_move o;
  copy_assign_throws _ _ := false;
  move_assign_throws _ o := throw_on_move o;
  moved_from o := mkMoveOnly 0 false;
  is_nothrow_move_constructible_v := false;
  is_copy_constructible_v := false;
  nothrow_move_constructible H := match Bool.diff_false_true H with end;
|}.

(** Running a program from the empty state. *)
Definition run_from_init {T : Type} `{ElementType T} {A : Type}
    (m : Exec (@State T) A) : option (@State T) :=
  match m init with
  | Ret _ s => Some s
  | Throw s => Some s
  | Undef => None
  end.

(** ** States to run the code on *)

(** The state a program leaves when run from the empty state. *)
Definition state_after {T : Type} `{ElementType T} {A : Type}
    (m : Exec (@State T) A) : @State T :=
  default init (run_from_init m).

(** [Vector<int> v; v.PushBack(1); v.PushBack(2); v.PushBack(3);] *)
Definition three_ints : @State nat :=
  state_after (Vector_default 0;;
               PushBack_copy 0 (RExt 1);;
               PushBack_copy 0 (RExt 2);;
               PushBack_copy 0 (RExt 3)).

(** Two move-only objects, the second of which throws when moved, in a
    vector of capacity two. *)
Definition two_move_only : @State MoveOnly :=
  state_after (Vector_default 0;;
               EmplaceBack 0 (FromArgs (Some (mkMoveOnly 7 false)));;
               EmplaceBack 0 (FromArgs (Some (mkMoveOnly 8 true)))).

(** Two copyable objects, the second of which throws when copied, in a
    vector of capacity two. *)
Definition two_objs : @State Obj :=
  state_after (Vector_default 0;;
               EmplaceBack 0 (FromArgs (Some (mkObj 1 false)));;
               EmplaceBack 0 (FromArgs (Some (mkObj 2 true)))).

(** A destination holding one object in capacity one, and a source holding
    two, the second of which throws when copied. *)
Definition small_and_large : @State Obj :=
  state_after (Vector_default 0;;
               EmplaceBack 0 (FromArgs (Some (mkObj 9 false)));;
               Vector_default 1;;
               EmplaceBack 1 (FromArgs (Some (mkObj 1 false)));;
               EmplaceBack 1 (FromArgs (Some (mkObj 2 true)))).


(** A program that goes through construction, growth, a failed copy
    assignment and a self-move. *)
Definition sample_program : list (@Op Obj) :=
  [OpDefault 0;
   OpEmplaceBack 0 (FromArgs (Some (mkObj 1 false)));
   OpEmplaceBack 0 (FromArgs (Some (mkObj 2 true)));
   OpSized 1 1;
   OpCopyAssign 1 0;
   OpEmplace 0 1 (FromArgs (Some (mkObj 3 false)));
   OpMoveAssign 1 1;
   OpSwap 0 1;
   OpPopBack 0;
   OpReserve 0 7;
   OpResize 0 3;
   OpErase 0 1].

(** [Vector<int> v; v.PushBack(1); v.PushBack(2);]: full, capacity two. *)
Definition two_ints : @State nat :=
  state_after (Vector_default 0;;
               PushBack_copy 0 (RExt 1);;
               PushBack_copy 0 (RExt 2)).

(** [three_ints] and a second vector, [Vector<int> w(2);]. *)
Definition three_and_two : @State nat :=
  state_after (Vector_default 0;;
               PushBack_copy 0 (RExt 1);;
               PushBack_copy 0 (RExt 2);;
               PushBack_copy 0 (RExt 3);;
               Vector_sized 1 2).


(** * Proofs *)

Section Proofs.
Context {T : Type} `{ET : ElementType T}.
Local Abbreviation M := (Exec (@State T)).
Local Abbreviation wpv := (@wpv T).
Local Abbreviation frames := (@frames T).
Implicit Types (s : @State T) (vs : gmap nat Vector).

Lemma wpv_ret {A} (a : A) Q E vs : Q a vs → wpv (ret a : M A) Q E vs.
Proof. intros H s <-. done. Qed.

Lemma wpv_throw {A} (Q : A → _ → Prop) E vs : E vs → wpv (throw : M A) Q E vs.
Proof. intros H s <-. done. Qed.

Lemma wpv_undef {A} (Q : A → _ → Prop) E vs : wpv (undef : M A) Q E vs.
Proof. intros s _. done. Qed.

Lemma wpv_bind {A B} (m : M A) (k : A → M B) Q E vs :
  wpv m (λ a vs', wpv (k a) Q E vs') E vs → wpv (bind m k) Q E vs.
Proof.
  intros H s Hs. specialize (H s Hs). unfold wp, bind in *.
  destruct (m s) as [a s'| |]; [|done..]. by apply H.
Qed.

Lemma wpv_try_catch {A} (m h : M A) Q E vs :
  wpv m Q (wpv h Q E) vs → wpv (try_catch m h) Q E vs.
Proof.
  intros H s Hs. specialize (H s Hs). unfold wp, try_catch in *.
  destruct (m s) as [a s'|s'|]; simpl; [done| |done]. by apply H.
Qed.

Lemma wpv_on_unwind {A} (m : M A) cleanup Q E vs :
  wpv m Q (wpv cleanup (λ _, E) E) vs → wpv (on_unwind m cleanup) Q E vs.
Proof.
  intros H. apply wpv_try_catch. intros s Hs. specialize (H s Hs).
  unfold wp in *. destruct (m s) as [a s'|s'|]; [done| |done].
  intros s0 Hs0. specialize (H s0 Hs0). unfold wp, bind in *.
  by destruct (cleanup s0).
Qed.

Lemma wpv_mono {A} (m : M A) (Q Q' : A → _ → Prop) (E E' : _ → Prop) vs :
  wpv m Q E vs → (∀ a vs', Q a vs' → Q' a vs') → (∀ vs', E vs' → E' vs') →
  wpv m Q' E' vs.
Proof.
  intros H HQ HE s Hs. specialize (H s Hs). unfold wp in *.
  destruct (m s); auto.
Qed.

Lemma wpv_frame {A} (m : M A) (Q : A → _ → Prop) E vs :
  frames m → (∀ a, Q a vs) → E vs → wpv m Q E vs.
Proof.
  intros H HQ HE. eapply wpv_mono; [apply H|..]; simpl; intros; by subst.
Qed.

Lemma wpv_assert (b : bool) Q E vs : (b = true → Q tt vs) → wpv (assert b : M unit) Q E vs.
Proof. destruct b; intros H s <-; [by apply H|done]. Qed.

Lemma wpv_get_vec this Q E vs :
  (∀ v, vs !! this = Some v → Q v vs) → wpv (get_vec this) Q E vs.
Proof.
  intros H s <-. unfold wp, get_vec. destruct (vecs s !! this) eqn:Hv; [|done].
  by apply H.
Qed.

Lemma wpv_put_vec this v Q E vs :
  Q tt (<[this := v]> vs) → wpv (put_vec this v) Q E vs.
Proof. intros H s <-. done. Qed.

Lemma wpv_new_vec this v Q E vs :
  (vs !! this = None → Q tt (<[this := v]> vs)) → wpv (new_vec this v) Q E vs.
Proof.
  intros H s <-. unfold wp, new_vec. destruct (vecs s !! this) eqn:Hv; [done|].
  by apply H.
Qed.

Lemma wpv_get_data this Q E vs :
  (∀ v, vs !! this = Some v → Q (data_ v) vs) → wpv (get_data this) Q E vs.
Proof.
  intros H. apply wpv_bind, wpv_get_vec. intros v Hv. by apply wpv_ret, H.
Qed.

Lemma wpv_get_size this Q E vs :
  (∀ v, vs !! this = Some v → Q (size_ v) vs) → wpv (get_size this) Q E vs.
Proof.
  intros H. apply wpv_bind, wpv_get_vec. intros v Hv. by apply wpv_ret, H.
Qed.

Lemma wpv_set_data this d Q E vs :
  (∀ v, vs !! this = Some v → Q tt (<[this := mkVector d (size_ v)]> vs)) →
  wpv (set_data this d) Q E vs.
Proof.
  intros H. apply wpv_bind, wpv_get_vec. intros v Hv. by apply wpv_put_vec, H.
Qed.

Lemma wpv_set_size this n Q E vs :
  (∀ v, vs !! this = Some v → Q tt (<[this := mkVector (data_ v) n]> vs)) →
  wpv (set_size this n) Q E vs.
Proof.
  intros H. apply wpv_bind, wpv_get_vec. intros v Hv. by apply wpv_put_vec, H.
Qed.

(** *** What leaves the object store alone *)

Lemma frames_ret {A} (a : A) : frames (ret a : M A).
Proof. intros vs. by apply wpv_ret. Qed.

Lemma frames_throw {A} : frames (throw : M A).
Proof. intros vs. by apply wpv_throw. Qed.

Lemma frames_undef {A} : frames (undef : M A).
Proof. intros vs. by apply wpv_undef. Qed.

Lemma frames_bind {A B} (m : M A) (k : A → M B) :
  frames m → (∀ a, frames (k a)) → frames (bind m k).
Proof.
  intros Hm Hk vs. apply wpv_bind. apply wpv_frame; [done| |done].
  intros a. apply Hk.
Qed.

Lemma frames_try_catch {A} (m h : M A) :
  frames m → frames h → frames (try_catch m h).
Proof.
  intros Hm Hh vs. apply wpv_try_catch. apply wpv_frame; [done..|]. apply Hh.
Qed.

Lemma frames_on_unwind {A} (m : M A) cleanup :
  frames m → frames cleanup → frames (on_unwind m cleanup).
Proof.
  intros Hm Hc. apply frames_try_catch; [done|].
  apply frames_bind; [done|]. intros _. apply frames_throw.
Qed.

Lemma frames_if {A} (b : bool) (m1 m2 : M A) :
  frames m1 → frames m2 → frames (if b then m1 else m2).
Proof. by destruct b. Qed.

Lemma frames_state {A} (m : M A) :
  (∀ s, match m s with Ret _ s' | Throw s' => vecs s' = vecs s | Undef => True end) →
  frames m.
Proof. intros H vs s <-. specialize (H s). unfold wp. by destruct (m s). Qed.

Lemma frames_gets {A} (f : State → A) : frames (gets f).
Proof. by apply frames_state. Qed.

Lemma frames_assert b : frames (assert b : M unit).
Proof. destruct b; [apply frames_ret|apply frames_undef]. Qed.

Lemma frames_emit e : frames (emit e).
Proof. by apply frames_state. Qed.

Lemma frames_operator_new n : frames (operator_new n).
Proof. by apply frames_state. Qed.

Lemma frames_operator_delete buf : frames (operator_delete buf).
Proof.
  apply frames_state. intros s. destruct buf as [p|]; simpl; [|done].
  by destruct (heap s !! p).
Qed.

Lemma frames_read_slot q : frames (read_slot q).
Proof.
  apply frames_state. intros s. unfold read_slot.
  by destruct (slot_at s q) as [[v|]|].
Qed.

Lemma frames_write_slot q o : frames (write_slot q o).
Proof.
  apply frames_state. intros s. unfold write_slot.
  destruct (base q) as [p|]; [|done]. destruct (heap s !! p) as [b|]; [|done].
  by case_decide.
Qed.

Create HintDb frames discriminated.
Hint Resolve frames_ret frames_throw frames_undef frames_try_catch
  frames_on_unwind frames_if frames_gets frames_assert frames_emit
  frames_operator_new frames_operator_delete frames_read_slot
  frames_write_slot : frames.
Hint Extern 2 (frames (bind _ _)) => apply frames_bind; [|intros ?] : frames.
Hint Extern 3 (frames (if ?b then _ else _)) => destruct b : frames.
Hint Extern 3 (frames (match ?x with _ => _ end)) => destruct x : frames.

Ltac frames_of f := unfold f; auto 20 with frames.

Lemma frames_value_construct dst : frames (value_construct dst).
Proof. frames_of @value_construct. Qed.
Lemma frames_copy_construct src dst : frames (copy_construct src dst).
Proof. frames_of @copy_construct. Qed.
Lemma frames_move_construct src dst : frames (move_construct src dst).
Proof. frames_of @move_construct. Qed.
Lemma frames_copy_assign src dst : frames (copy_assign src dst).
Proof. frames_of @copy_assign. Qed.
Lemma frames_move_assign src dst : frames (move_assign src dst).
Proof. frames_of @move_assign. Qed.
Lemma frames_destroy_at q : frames (destroy_at q).
Proof. frames_of @destroy_at. Qed.
Hint Resolve frames_value_construct frames_copy_construct frames_move_construct
  frames_copy_assign frames_move_assign frames_destroy_at : frames.

Lemma frames_construct_value a dst : frames (construct_value a dst).
Proof. destruct a as [[v|q]|[v|q]|[v|]]; frames_of @construct_value. Qed.
Hint Resolve frames_construct_value : frames.

Lemma frames_placement_new dst a : frames (placement_new dst a).
Proof. frames_of @placement_new. Qed.

Lemma frames_destroy_n first n : frames (destroy_n first n).
Proof. revert first. induction n; intros first; simpl; auto with frames. Qed.
Hint Resolve frames_placement_new frames_destroy_n : frames.

Lemma frames_uninitialized_n construct first n result done :
  (∀ a b, frames (construct a b)) →
  frames (uninitialized_n construct first n result done).
Proof.
  intros Hc. revert first done.
  induction n; intros first done; simpl; auto 10 with frames.
Qed.

Lemma frames_uninitialized_copy_n first n result :
  frames (uninitialized_copy_n first n result).
Proof. apply frames_uninitialized_n; auto with frames. Qed.
Lemma frames_uninitialized_move_n first n result :
  frames (uninitialized_move_n first n result).
Proof. apply frames_uninitialized_n; auto with frames. Qed.
Lemma frames_uninitialized_value_construct_n first n :
  frames (uninitialized_value_construct_n first n).
Proof. apply frames_uninitialized_n; auto with frames. Qed.
Hint Resolve frames_uninitialized_copy_n frames_uninitialized_move_n
  frames_uninitialized_value_construct_n : frames.

Lemma frames_move_backward_n last d_last n : frames (move_backward_n last d_last n).
Proof. revert last d_last. induction n; intros; simpl; auto with frames. Qed.
Lemma frames_move_n first d_first n : frames (move_n first d_first n).
Proof. revert first d_first. induction n; intros; simpl; auto with frames. Qed.
Hint Resolve frames_move_backward_n frames_move_n : frames.

Lemma frames_move_backward first last d_last : frames (move_backward first last d_last).
Proof. frames_of @move_backward. Qed.
Lemma frames_move_range first last d_first : frames (move_range first last d_first).
Proof. frames_of @move_range. Qed.
Lemma frames_Allocate n : frames (Allocate n).
Proof. frames_of @Allocate. Qed.
Lemma frames_Deallocate buf : frames (Deallocate buf).
Proof. frames_of @Deallocate. Qed.
Hint Resolve frames_move_backward frames_move_range frames_Allocate
  frames_Deallocate : frames.
Lemma frames_RawMemory_dtor m : frames (RawMemory_dtor m).
Proof. frames_of @RawMemory_dtor. Qed.
Lemma frames_RawMemory_plus m k : frames (RawMemory_plus m k).
Proof. frames_of @RawMemory_plus. Qed.
Lemma frames_RawMemory_at m k : frames (RawMemory_at m k).
Proof. frames_of @RawMemory_at. Qed.
Lemma frames_CopyOrMove from to count : frames (CopyOrMove from to count).
Proof. frames_of @CopyOrMove. Qed.
Hint Resolve frames_RawMemory_dtor frames_RawMemory_plus frames_RawMemory_at
  frames_CopyOrMove : frames.
Lemma frames_Vector_dtor_local v : frames (Vector_dtor_local v).
Proof. frames_of @Vector_dtor_local. Qed.
Lemma frames_for_copy_assign rd d i count : frames (for_copy_assign rd d i count).
Proof. revert i. induction count; intros; simpl; auto 10 with frames. Qed.
Hint Resolve frames_Vector_dtor_local frames_for_copy_assign : frames.


(** *** [size ≤ capacity] across the interface *)

Lemma okv_insert vs this v :
  okv vs → size_ v ≤ capacity_ (data_ v) → okv (<[this := v]> vs).
Proof. intros. by apply map_Forall_insert_2. Qed.

Lemma okv_lookup vs this v :
  okv vs → vs !! this = Some v → size_ v ≤ capacity_ (data_ v).
Proof. intros H Hv. by apply (H this v). Qed.

Lemma okv_delete vs this : okv vs → okv (delete this vs).
Proof. apply map_Forall_delete. Qed.

Lemma wpv_RawMemory_dtor m (Q : unit → _ → Prop) E vs :
  Q tt vs → wpv (RawMemory_dtor m) Q E vs.
Proof.
  intros H s <-. unfold wp, RawMemory_dtor, Deallocate, operator_delete.
  destruct (buffer_ m) as [p|]; [|done]. by destruct (heap s !! p).
Qed.

Ltac wpv_step :=
  lazymatch goal with
  | |- wpv (bind _ _) _ _ _ => apply wpv_bind
  | |- wpv (ret _) _ _ _ => apply wpv_ret
  | |- wpv throw _ _ _ => apply wpv_throw
  | |- wpv (get_vec _) _ _ _ => apply wpv_get_vec; intros ? ?
  | |- wpv (get_data _) _ _ _ => apply wpv_get_data; intros ? ?
  | |- wpv (get_size _) _ _ _ => apply wpv_get_size; intros ? ?
  | |- wpv (set_data _ _) _ _ _ => apply wpv_set_data; intros ? ?
  | |- wpv (set_size _ _) _ _ _ => apply wpv_set_size; intros ? ?
  | |- wpv (put_vec _ _) _ _ _ => apply wpv_put_vec
  | |- wpv (new_vec _ _) _ _ _ => apply wpv_new_vec; intros ?
  | |- wpv (assert _) _ _ _ => apply wpv_assert; intros ?
  | |- wpv (RawMemory_dtor _) _ _ _ => apply wpv_RawMemory_dtor
  | |- wpv (on_unwind _ _) _ _ _ => apply wpv_on_unwind
  | |- wpv (try_catch _ _) _ _ _ => apply wpv_try_catch
  | |- wpv (if bool_decide _ then _ else _) _ _ _ => case_bool_decide
  | |- wpv _ _ _ _ =>
      apply wpv_frame; [solve [auto 20 with frames] | intros ? | ];
      repeat match goal with u : unit |- _ => destruct u end
  end.

Ltac vs_simpl :=
  repeat match goal with
         | H : context [<[_ := _]> _ !! _] |- _ =>
             rewrite lookup_insert in H; case_decide; simplify_eq/=
         | H : okv ?vs, H' : ?vs !! ?i = Some ?v |- _ =>
             lazymatch goal with
             | _ : size_ v ≤ capacity_ (data_ v) |- _ => fail
             | _ => pose proof (okv_lookup _ _ _ H H')
             end
         end.

Ltac okv_solve :=
  vs_simpl;
  lazymatch goal with
  | |- okv _ =>
      let i := fresh "i" in
      let x := fresh "x" in
      let Hx := fresh "Hx" in
      intros i x Hx; vs_simpl; simpl in *; try done;
      repeat case_bool_decide; try lia;
      try (eapply okv_lookup; eauto; fail)
  | |- _ => simpl in *; try done; repeat case_bool_decide; try lia
  end.

Lemma wpv_RawMemory_ctor n (Q : RawMemory → _ → Prop) E vs :
  (∀ d, capacity_ d = n → Q d vs) → E vs → wpv (RawMemory_ctor n) Q E vs.
Proof.
  intros H HE. unfold RawMemory_ctor, Allocate. wpv_step. case_decide.
  - repeat wpv_step; try done. by apply H.
  - repeat wpv_step. by apply H.
Qed.

Lemma okv_Vector_default this vs :
  okv vs → wpv (Vector_default this) (λ _, okv) okv vs.
Proof. intros Hok. unfold Vector_default. wpv_step. okv_solve. Qed.

Lemma okv_Vector_sized this n vs :
  okv vs → wpv (Vector_sized this n) (λ _, okv) okv vs.
Proof.
  intros Hok. unfold Vector_sized. wpv_step.
  apply wpv_RawMemory_ctor; [intros d Hd|done].
  repeat wpv_step; try done. okv_solve.
Qed.

Lemma wpv_Vector_copy_ctor other (Q : Vector → _ → Prop) E vs :
  (∀ o v, vs !! other = Some o → size_ v = size_ o →
          capacity_ (data_ v) = size_ o → Q v vs) →
  E vs →
  wpv (Vector_copy_ctor other) Q E vs.
Proof.
  intros HQ HE. unfold Vector_copy_ctor. do 2 wpv_step. wpv_step.
  apply wpv_RawMemory_ctor; [intros d Hd|done].
  repeat wpv_step; try done. by eapply HQ.
Qed.

Lemma okv_Vector_copy this other vs :
  okv vs → wpv (Vector_copy this other) (λ _, okv) okv vs.
Proof.
  intros Hok. unfold Vector_copy. wpv_step.
  apply wpv_Vector_copy_ctor; [|done]. intros o v Ho Hv Hc. wpv_step. okv_solve.
Qed.

Lemma okv_Vector_move this other vs :
  okv vs → wpv (Vector_move this other) (λ _, okv) okv vs.
Proof.
  intros Hok. unfold Vector_move. repeat wpv_step. simpl.
  repeat wpv_step. okv_solve.
Qed.

Lemma okv_Vector_dtor this vs :
  okv vs → wpv (Vector_dtor this) (λ _, okv) okv vs.
Proof.
  intros Hok. unfold Vector_dtor. repeat wpv_step; try done.
  intros s <-. by apply okv_delete.
Qed.

Lemma okv_Swap this other vs :
  okv vs → wpv (Swap this other) (λ _, okv) okv vs.
Proof.
  intros Hok. unfold Swap. repeat wpv_step.
  destruct (decide (this = other)) as [->|Hne].
  - okv_solve.
  - okv_solve.
Qed.


Lemma okv_Vector_move_assign this rhs vs :
  okv vs → wpv (Vector_move_assign this rhs) (λ _, okv) okv vs.
Proof.
  intros Hok. unfold Vector_move_assign. repeat wpv_step; okv_solve.
Qed.

Lemma okv_Vector_copy_assign this rhs vs :
  okv vs → wpv (Vector_copy_assign this rhs) (λ _, okv) okv vs.
Proof.
  intros Hok. unfold Vector_copy_assign, Capacity.
  repeat wpv_step; try done;
    try (apply wpv_Vector_copy_ctor; [intros o c Ho Hc Hcap|done]);
    repeat wpv_step; okv_solve.
Qed.

(** [Reserve] keeps the size and leaves at least the capacity asked for. *)
Lemma wpv_Reserve this n (Q : unit → _ → Prop) (E : _ → Prop) vs :
  okv vs →
  (∀ vs', okv vs' →
          (∀ v, vs !! this = Some v →
                ∃ v', vs' !! this = Some v' ∧ size_ v' = size_ v ∧
                      n ≤ capacity_ (data_ v')) →
          Q tt vs') →
  E vs →
  wpv (Reserve this n) Q E vs.
Proof.
  intros Hok HQ HE. unfold Reserve. repeat wpv_step.
  - apply HQ; [done|]. intros v' ?. simplify_eq. eauto.
  - apply wpv_RawMemory_ctor; [intros d Hd|done].
    repeat wpv_step; try done.
    apply HQ; [okv_solve|]. intros v' ?. simplify_eq.
    eexists. rewrite lookup_insert_eq. split; [done|]. simpl. split; [done|lia].
Qed.

Lemma okv_Reserve this n vs :
  okv vs → wpv (Reserve this n) (λ _, okv) okv vs.
Proof. intros Hok. by apply wpv_Reserve. Qed.

Lemma okv_Resize this n vs :
  okv vs → wpv (Resize this n) (λ _, okv) okv vs.
Proof.
  intros Hok. unfold Resize. repeat wpv_step; try done; [okv_solve|].
  apply wpv_Reserve; [done| |done]. intros vs' Hok' Hres.
  destruct (Hres _ H) as (v' & Hv' & Hsz & Hcap).
  repeat wpv_step; try done. okv_solve.
Qed.

Lemma okv_PopBack this vs :
  okv vs → wpv (PopBack this) (λ _, okv) okv vs.
Proof. intros Hok. unfold PopBack. repeat wpv_step; okv_solve. Qed.

Lemma okv_EmplaceBack this args vs :
  okv vs → wpv (EmplaceBack this args) (λ _, okv) okv vs.
Proof.
  intros Hok. unfold EmplaceBack, Capacity.
  repeat wpv_step; try done;
    try (apply wpv_RawMemory_ctor; [intros d Hd|done]);
    repeat wpv_step; okv_solve.
Qed.

Lemma okv_Emplace this pos args vs :
  okv vs → wpv (Emplace this pos args) (λ _, okv) okv vs.
Proof.
  intros Hok. unfold Emplace, Capacity, end_.
  repeat wpv_step; try done;
    try (eapply wpv_mono; [by apply okv_EmplaceBack|done..]);
    try (apply wpv_RawMemory_ctor; [intros d Hd|done]);
    repeat wpv_step; okv_solve.
Qed.

Lemma okv_Erase this pos vs :
  okv vs → wpv (Erase this pos) (λ _, okv) okv vs.
Proof.
  intros Hok. unfold Erase, end_.
  repeat wpv_step; try done;
    (eapply wpv_mono; [by apply okv_PopBack| |done]); simpl; intros _ vs' Hok';
    repeat wpv_step; done.
Qed.

Lemma okv_run_op o vs : okv vs → wpv (run_op o) (λ _, okv) okv vs.
Proof.
  intros Hok. destruct o; simpl.
  - by apply okv_Vector_default.
  - by apply okv_Vector_sized.
  - by apply okv_Vector_copy.
  - by apply okv_Vector_move.
  - by apply okv_Vector_copy_assign.
  - by apply okv_Vector_move_assign.
  - by apply okv_Reserve.
  - by apply okv_Resize.
  - wpv_step. eapply wpv_mono; [by apply okv_EmplaceBack| |done].
    simpl. intros. by wpv_step.
  - by apply okv_PopBack.
  - wpv_step. eapply wpv_mono; [by apply okv_Emplace| |done].
    simpl. intros. by wpv_step.
  - wpv_step. eapply wpv_mono; [by apply okv_Erase| |done].
    simpl. intros. by wpv_step.
  - by apply okv_Swap.
  - by apply okv_Vector_dtor.
Qed.

(** C4. From a state in which every vector has [size ≤ capacity], the
    states at the exits of the operations of any program over the public
    interface (construction, copy and move assignment, [Reserve], [Resize],
    [EmplaceBack]/[PushBack], [PopBack], [Emplace]/[Insert], [Erase], [Swap],
    destruction) all have [size ≤ capacity] for every vector, whether the
    operation returned or threw. *)
Theorem size_le_capacity_at_every_exit (ops : list Op) (s : State) :
  size_le_capacity s → Forall size_le_capacity (exits ops s).
Proof.
  revert s. induction ops as [|o ops IH]; intros s Hs; simpl; [constructor|].
  pose proof (okv_run_op o (vecs s) Hs s eq_refl) as Ho. unfold wp in Ho.
  destruct (run_op o s) as [[] s'|s'|]; [| |constructor].
  - constructor; [done|]. by apply IH.
  - constructor; [done|]. by apply IH.
Qed.

Lemma size_le_capacity_init : size_le_capacity (init : @State T).
Proof. apply map_Forall_empty. Qed.

End Proofs.

(** ** The free store, step by step *)

(** Two maps built by inserts and deletes are the same. *)
Ltac same_map :=
  apply map_eq; intros ?;
  repeat (rewrite lookup_insert || rewrite lookup_delete);
  repeat case_decide; simplify_eq; done.

Section Heap.
Context {T : Type} `{ET : ElementType T}.
Local Abbreviation M := (Exec (@State T)).
Implicit Types (s : @State T) (b : list (option T)) (xs ys zs : list T).

(** ** Running code on a known state *)

Lemma bind_Ret {A B} (m : M A) (k : A → M B) s a s' :
  m s = Ret a s' → bind m k s = k a s'.
Proof. unfold bind. by intros ->. Qed.

Lemma bind_Throw {A B} (m : M A) (k : A → M B) s s' :
  m s = Throw s' → bind m k s = Throw s'.
Proof. unfold bind. by intros ->. Qed.

Lemma try_catch_Ret {A} (m h : M A) s a s' :
  m s = Ret a s' → try_catch m h s = Ret a s'.
Proof. unfold try_catch. by intros ->. Qed.

Lemma try_catch_Throw {A} (m h : M A) s s' :
  m s = Throw s' → try_catch m h s = h s'.
Proof. unfold try_catch. by intros ->. Qed.

Lemma on_unwind_Ret {A} (m : M A) c s a s' :
  m s = Ret a s' → on_unwind m c s = Ret a s'.
Proof. apply try_catch_Ret. Qed.

Lemma on_unwind_Throw {A} (m : M A) c s s' s'' :
  m s = Throw s' → c s' = Ret tt s'' → on_unwind m c s = Throw s''.
Proof.
  intros Hm Hc. unfold on_unwind. rewrite (try_catch_Throw _ _ _ _ Hm).
  by rewrite (bind_Ret _ _ _ _ _ Hc).
Qed.

Lemma bind_bind {A B C} (m : M A) (f : A → M B) (g : B → M C) s :
  bind (bind m f) g s = bind m (λ x, bind (f x) g) s.
Proof. unfold bind. by destruct (m s). Qed.

Lemma bind_ret_l {A B} (a : A) (k : A → M B) s : bind (ret a) k s = k a s.
Proof. done. Qed.

(** ** Slots *)

Lemma read_slot_eq s p i b v :
  heap s !! p = Some b → b !! i = Some (Some v) →
  read_slot (mkPtr (Some p) i) s = Ret v s.
Proof. intros Hp Hi. unfold read_slot, slot_at. simpl. by rewrite Hp, Hi. Qed.

Lemma write_slot_eq s p i b o :
  heap s !! p = Some b → i < length b →
  write_slot (mkPtr (Some p) i) o s
  = Ret tt (mkState (<[p := <[i := o]> b]> (heap s)) (next s) (vecs s) (log s)).
Proof.
  intros Hp Hi. unfold write_slot. simpl. rewrite Hp. by rewrite decide_True.
Qed.

(** A block seen as what is before slot [i], the slot, and what is behind. *)
Lemma block_middle_lookup (pre post : list (option T)) o :
  (pre ++ o :: post) !! length pre = Some o.
Proof. by rewrite list_lookup_middle. Qed.

Lemma block_middle_insert (pre post : list (option T)) o o' :
  <[length pre := o']> (pre ++ o :: post) = pre ++ o' :: post.
Proof. by rewrite insert_app_r_alt, Nat.sub_diag by lia. Qed.

Lemma destroy_at_eq s p i pre post v :
  length pre = i →
  heap s !! p = Some (pre ++ Some v :: post) →
  destroy_at (mkPtr (Some p) i) s
  = Ret tt (mkState (<[p := pre ++ None :: post]> (heap s)) (next s) (vecs s)
              (log s ++ [EvDtor (Slot p i)])).
Proof.
  intros <- Hp. unfold destroy_at.
  erewrite bind_Ret; [|by eapply read_slot_eq, block_middle_lookup].
  erewrite bind_Ret; [|eapply write_slot_eq; [done|]].
  - by rewrite block_middle_insert.
  - rewrite length_app. simpl. lia.
Qed.

Lemma destroy_n_eq ys s p i pre post :
  length pre = i →
  heap s !! p = Some (pre ++ (Some <$> ys) ++ post) →
  destroy_n (mkPtr (Some p) i) (length ys) s
  = Ret tt (mkState (<[p := pre ++ replicate (length ys) None ++ post]> (heap s))
              (next s) (vecs s) (log s ++ dtor_events p i (length ys))).
Proof.
  revert s i pre. induction ys as [|y ys IH]; intros s i pre Hi Hp; csimpl in *.
  - unfold ret, dtor_events. simpl. rewrite app_nil_r, insert_id by done.
    by destruct s.
  - erewrite bind_Ret; [|by eapply destroy_at_eq].
    unfold ptr_add. simpl. rewrite Nat.add_1_r.
    erewrite (IH _ (S i) (pre ++ [None])); simpl.
    + f_equal. f_equal.
      * rewrite insert_insert_eq. f_equal. by rewrite <-app_assoc.
      * by rewrite <-app_assoc.
    + rewrite length_app. simpl. lia.
    + rewrite lookup_insert_eq. f_equal. by rewrite <-app_assoc.
Qed.


(** ** Construction of one object from another *)

Lemma copy_construct_eq s p q i j bp bq v :
  heap s !! p = Some bp → bp !! i = Some (Some v) →
  heap s !! q = Some bq → j < length bq →
  copy_ctor_throws (log s) v = false →
  copy_construct (mkPtr (Some p) i) (mkPtr (Some q) j) s
  = Ret tt (mkState (<[q := <[j := Some v]> bq]> (heap s)) (next s) (vecs s)
              (log s ++ [EvCopyCtor (Slot p i) (Slot q j)])).
Proof.
  intros Hp Hi Hq Hj Hc. unfold copy_construct.
  erewrite bind_Ret; [|by eapply read_slot_eq].
  unfold bind at 1, gets at 1. rewrite Hc.
  erewrite bind_Ret; [|by eapply write_slot_eq]. done.
Qed.

Lemma copy_construct_throw s p q i bp v :
  heap s !! p = Some bp → bp !! i = Some (Some v) →
  copy_ctor_throws (log s) v = true →
  copy_construct (mkPtr (Some p) i) q s = Throw s.
Proof.
  intros Hp Hi Hc. unfold copy_construct.
  erewrite bind_Ret; [|by eapply read_slot_eq].
  unfold bind at 1, gets at 1. by rewrite Hc.
Qed.

Lemma move_construct_eq s p q i j bp bq v :
  p ≠ q →
  heap s !! p = Some bp → bp !! i = Some (Some v) →
  heap s !! q = Some bq → j < length bq →
  move_ctor_throws (log s) v = false →
  move_construct (mkPtr (Some p) i) (mkPtr (Some q) j) s
  = Ret tt (mkState (<[p := <[i := Some (moved_from v)]> bp]>
                       (<[q := <[j := Some v]> bq]> (heap s)))
              (next s) (vecs s)
              (log s ++ [EvMoveCtor (Slot p i) (Slot q j)])).
Proof.
  intros Hpq Hp Hi Hq Hj Hc. unfold move_construct.
  erewrite bind_Ret; [|by eapply read_slot_eq].
  unfold bind at 1, gets at 1. rewrite Hc.
  erewrite bind_Ret; [|by eapply write_slot_eq].
  erewrite bind_Ret; [|eapply write_slot_eq]; simpl.
  - done.
  - by rewrite lookup_insert_ne.
  - by eapply lookup_lt_Some.
Qed.

(** The same inside one block. *)
Lemma move_construct_eq_same s p i j b v :
  heap s !! p = Some b → b !! i = Some (Some v) → j < length b →
  move_ctor_throws (log s) v = false →
  move_construct (mkPtr (Some p) i) (mkPtr (Some p) j) s
  = Ret tt (mkState (<[p := <[i := Some (moved_from v)]> (<[j := Some v]> b)]> (heap s))
              (next s) (vecs s)
              (log s ++ [EvMoveCtor (Slot p i) (Slot p j)])).
Proof.
  intros Hp Hi Hj Hc. unfold move_construct.
  erewrite bind_Ret; [|by eapply read_slot_eq].
  unfold bind at 1, gets at 1. rewrite Hc.
  erewrite bind_Ret; [|by eapply write_slot_eq].
  erewrite bind_Ret; [|eapply write_slot_eq]; simpl.
  - by rewrite insert_insert_eq.
  - by rewrite lookup_insert_eq.
  - rewrite length_insert. by eapply lookup_lt_Some.
Qed.

Lemma move_assign_eq_same s p i j b v w :
  heap s !! p = Some b → b !! i = Some (Some v) → b !! j = Some (Some w) →
  move_assign_throws (log s) v = false →
  move_assign (mkPtr (Some p) i) (mkPtr (Some p) j) s
  = Ret tt (mkState (<[p := <[i := Some (moved_from v)]> (<[j := Some v]> b)]> (heap s))
              (next s) (vecs s)
              (log s ++ [EvMoveAssign (Slot p i) (Slot p j)])).
Proof.
  intros Hp Hi Hj Hc. unfold move_assign.
  erewrite bind_Ret; [|by eapply read_slot_eq].
  erewrite bind_Ret; [|by eapply read_slot_eq].
  unfold bind at 1, gets at 1. rewrite Hc.
  erewrite bind_Ret; [|eapply write_slot_eq; [done|by eapply lookup_lt_Some]].
  erewrite bind_Ret; [|eapply write_slot_eq]; simpl.
  - by rewrite insert_insert_eq.
  - by rewrite lookup_insert_eq.
  - rewrite length_insert. by eapply lookup_lt_Some.
Qed.

(** ** Relocation loops *)

Lemma fmap_seq_shift {B} (f : nat → B) (n : nat) :
  f <$> seq 1 n = (λ k, f (S k)) <$> seq 0 n.
Proof. by rewrite <-(fmap_S_seq 0), <-list_fmap_compose. Qed.

(** [uninitialized_copy_n] between two blocks: it returns with the copies in
    place and the source as it was, or it throws with the destination raw
    again and the source as it was. *)
Lemma uninitialized_copy_spec ys s p q i j0 preP postP preQ zs postQ :
  p ≠ q → length preP = i → length preQ = j0 →
  heap s !! p = Some (preP ++ (Some <$> ys) ++ postP) →
  heap s !! q
  = Some (preQ ++ (Some <$> zs) ++ replicate (length ys) None ++ postQ) →
  match uninitialized_n copy_construct (mkPtr (Some p) i) (length ys)
          (mkPtr (Some q) j0) (length zs) s with
  | Ret _ s' =>
      s' = mkState (<[q := preQ ++ (Some <$> zs ++ ys) ++ postQ]> (heap s))
             (next s) (vecs s)
             (log s ++ copy_events p q i (j0 + length zs) (length ys))
  | Throw s' =>
      heap s'
      = <[q := preQ ++ replicate (length zs + length ys) None ++ postQ]> (heap s)
      ∧ next s' = next s ∧ vecs s' = vecs s
      ∧ ∃ h y, y ∈ ys ∧ copy_ctor_throws h y = true
  | Undef => False
  end.
Proof.
  intros Hpq. revert s i preP zs.
  induction ys as [|y ys IH]; intros s i preP zs Hi Hj Hp Hq; csimpl in *.
  - unfold ret, copy_events. simpl. rewrite !app_nil_r. rewrite insert_id by done.
    by destruct s.
  - destruct (copy_ctor_throws (log s) y) eqn:Hc.
    + erewrite bind_Throw; last first.
      { erewrite try_catch_Throw;
          [|eapply copy_construct_throw; [done| |done]].
        - erewrite bind_Ret; [done|]. by eapply destroy_n_eq.
        - rewrite <-Hi. apply block_middle_lookup. }
      simpl. split; [|split_and!; [done..|]].
      * f_equal. rewrite replicate_add. simpl. by rewrite <-app_assoc.
      * exists (log s), y. split; [left|done].
    + erewrite bind_Ret; last first.
      { eapply try_catch_Ret, copy_construct_eq; [done| |done| |done].
        - rewrite <-Hi. apply block_middle_lookup.
        - rewrite !length_app, length_fmap. simpl. lia. }
      unfold ptr_add. simpl.
      assert (<[j0 + length zs := Some y]>
                (preQ ++ (Some <$> zs) ++ None :: replicate (length ys) None ++ postQ)
              = preQ ++ (Some <$> zs ++ [y]) ++ replicate (length ys) None ++ postQ)
        as Hins.
      { rewrite app_assoc. rewrite <-Hj.
        replace (length preQ + length zs) with (length (preQ ++ (Some <$> zs)))
          by (by rewrite length_app, length_fmap).
        rewrite block_middle_insert. rewrite fmap_app. simpl.
        by rewrite <-!app_assoc. }
      rewrite Hins.
      opose proof* (IH (mkState
                        (<[q := preQ ++ (Some <$> zs ++ [y]) ++
                                  replicate (length ys) None ++ postQ]> (heap s))
                        (next s) (vecs s)
                        (log s ++ [EvCopyCtor (Slot p i) (Slot q (j0 + length zs))]))
                     (i + 1) (preP ++ [Some y]) (zs ++ [y])) as IH'; simpl.
      { rewrite length_app. simpl. lia. }
      { done. }
      { rewrite lookup_insert_ne by done. rewrite Hp. f_equal.
        by rewrite <-app_assoc. }
      { by rewrite lookup_insert_eq. }
      rewrite length_app in IH'. simpl in IH'.
      replace (length zs + 1) with (S (length zs)) in IH' by lia.
      destruct (uninitialized_n _ _ _ _ _ _) as [[] s'|s'|]; [| |done].
      * rewrite IH'. f_equal.
        -- rewrite insert_insert_eq. by rewrite <-!app_assoc.
        -- rewrite <-app_assoc. f_equal. unfold copy_events. simpl.
           rewrite !Nat.add_0_r. f_equal. rewrite fmap_seq_shift.
           apply list_fmap_ext. intros _ k _. f_equal; f_equal; lia.
      * destruct IH' as (Hh & Hn & Hv & h & y' & Hy' & Hth).
        rewrite Hh, Hn, Hv. split_and!; [|done..|].
        -- rewrite insert_insert_eq.
           by replace (S (length zs) + length ys) with (length zs + S (length ys))
             by lia.
        -- exists h, y'. split; [by right|done].
Qed.

Lemma uninitialized_move_eq ys s p q i j0 d preP postP preQ zs postQ :
  p ≠ q → length preP = i → length preQ = j0 → length zs = d →
  heap s !! p = Some (preP ++ (Some <$> ys) ++ postP) →
  heap s !! q
  = Some (preQ ++ (Some <$> zs) ++ replicate (length ys) None ++ postQ) →
  (∀ h y, y ∈ ys → move_ctor_throws h y = false) →
  uninitialized_n move_construct (mkPtr (Some p) i) (length ys)
    (mkPtr (Some q) j0) d s
  = Ret tt (mkState (<[q := preQ ++ (Some <$> zs ++ ys) ++ postQ]>
                       (<[p := preP ++ (Some <$> (moved_from <$> ys)) ++ postP]>
                          (heap s)))
              (next s) (vecs s)
              (log s ++ move_events p q i (j0 + d) (length ys))).
Proof.
  intros Hpq. revert s i d preP zs.
  induction ys as [|y ys IH]; intros s i d preP zs Hi Hj Hd Hp Hq Hnt;
    csimpl in *.
  - unfold ret, move_events. simpl. rewrite !app_nil_r.
    rewrite (insert_id (heap s) p) by done. rewrite insert_id by done.
    by destruct s.
  - erewrite bind_Ret; last first.
    { eapply try_catch_Ret, move_construct_eq; [done|done| |done| |].
      - rewrite <-Hi. apply block_middle_lookup.
      - rewrite !length_app, length_fmap. simpl. lia.
      - apply Hnt. left. }
    unfold ptr_add. simpl.
    assert (<[j0 + d := Some y]>
              (preQ ++ (Some <$> zs) ++ None :: replicate (length ys) None ++ postQ)
            = preQ ++ (Some <$> zs ++ [y]) ++ replicate (length ys) None ++ postQ)
      as ->.
    { rewrite app_assoc. rewrite <-Hj, <-Hd.
      replace (length preQ + length zs) with (length (preQ ++ (Some <$> zs)))
        by (by rewrite length_app, length_fmap).
      rewrite block_middle_insert. rewrite fmap_app. simpl.
      by rewrite <-!app_assoc. }
    rewrite <-Hi, block_middle_insert.
    erewrite (IH _ (length preP + 1) (S d) (preP ++ [Some (moved_from y)])
                (zs ++ [y])); simpl.
    + f_equal. f_equal.
      * rewrite <-!app_assoc. simpl. same_map.
      * rewrite <-app_assoc. f_equal. unfold move_events. simpl.
        rewrite !Nat.add_0_r. f_equal.
        rewrite fmap_seq_shift.
        apply list_fmap_ext. intros _ k _. f_equal; f_equal; lia.
    + rewrite length_app. simpl. lia.
    + done.
    + rewrite length_app. simpl. lia.
    + rewrite lookup_insert_eq. f_equal. by rewrite <-app_assoc.
    + rewrite lookup_insert_ne by done. by rewrite lookup_insert_eq.
    + intros h y' Hy'. apply Hnt. by right.
Qed.


(** ** [CopyOrMove] *)

Lemma CopyOrMove_nil from to s : CopyOrMove from to 0 s = Ret tt s.
Proof.
  unfold CopyOrMove. by destruct (is_nothrow_move_constructible_v || _).
Qed.

Lemma CopyOrMove_eq ys s p q i j preP postP preQ postQ :
  p ≠ q → length preP = i → length preQ = j →
  heap s !! p = Some (preP ++ (Some <$> ys) ++ postP) →
  heap s !! q = Some (preQ ++ replicate (length ys) None ++ postQ) →
  (∀ h y, y ∈ ys → relocation_throws h y = false) →
  CopyOrMove (mkPtr (Some p) i) (mkPtr (Some q) j) (length ys) s
  = Ret tt (mkState (<[p := preP ++ replicate (length ys) None ++ postP]>
                       (<[q := preQ ++ (Some <$> ys) ++ postQ]> (heap s)))
              (next s) (vecs s)
              (log s ++ relocation_events p q i j (length ys)
                     ++ dtor_events p i (length ys))).
Proof.
  intros Hpq Hi Hj Hp Hq Hnt.
  unfold CopyOrMove, relocation_throws, relocation_events, relocates_by_move in *.
  destruct (is_nothrow_move_constructible_v || _).
  - erewrite bind_Ret; last first.
    { unfold uninitialized_move_n.
      eapply (uninitialized_move_eq ys s p q i j 0 preP postP preQ []);
        simpl; eauto. }
    rewrite <-(length_fmap moved_from ys).
    erewrite destroy_n_eq; [|done|]; simpl.
    + rewrite length_fmap, Nat.add_0_r, <-app_assoc. f_equal. f_equal. same_map.
    + rewrite lookup_insert_ne by done. by rewrite lookup_insert_eq.
  - pose proof (uninitialized_copy_spec ys s p q i j preP postP preQ [] postQ
                  Hpq Hi Hj Hp Hq) as Hspec.
    unfold uninitialized_copy_n. simpl in Hspec.
    destruct (uninitialized_n _ _ _ _ _ _) as [[] s'|s'|] eqn:Hrun; [| |done].
    + subst s'. erewrite bind_Ret; [|exact Hrun].
      erewrite destroy_n_eq; [|done|]; simpl.
      * rewrite Nat.add_0_r, <-app_assoc. done.
      * by rewrite lookup_insert_ne.
    + destruct Hspec as (_ & _ & _ & h & y & Hy & Hth).
      by rewrite Hnt in Hth.
Qed.

(** Relocation by copy: it succeeds, or it throws and nothing has changed. *)
Lemma CopyOrMove_copy_spec ys s p q i j preP postP preQ postQ :
  relocates_by_move = false →
  p ≠ q → length preP = i → length preQ = j →
  heap s !! p = Some (preP ++ (Some <$> ys) ++ postP) →
  heap s !! q = Some (preQ ++ replicate (length ys) None ++ postQ) →
  match CopyOrMove (mkPtr (Some p) i) (mkPtr (Some q) j) (length ys) s with
  | Ret _ s' =>
      s' = mkState (<[p := preP ++ replicate (length ys) None ++ postP]>
                      (<[q := preQ ++ (Some <$> ys) ++ postQ]> (heap s)))
             (next s) (vecs s)
             (log s ++ relocation_events p q i j (length ys)
                    ++ dtor_events p i (length ys))
  | Throw s' =>
      heap s' = heap s ∧ next s' = next s ∧ vecs s' = vecs s
      ∧ ∃ h y, y ∈ ys ∧ copy_ctor_throws h y = true
  | Undef => False
  end.
Proof.
  intros Hpol Hpq Hi Hj Hp Hq.
  unfold CopyOrMove, relocation_events. unfold relocates_by_move in *.
  rewrite Hpol.
  pose proof (uninitialized_copy_spec ys s p q i j preP postP preQ [] postQ
                Hpq Hi Hj Hp Hq) as Hspec.
  unfold uninitialized_copy_n, bind. simpl in Hspec.
  destruct (uninitialized_n _ _ _ _ _ _) as [[] s'|s'|]; [| |done].
  - subst s'. erewrite destroy_n_eq; [|done|]; simpl.
    + rewrite Nat.add_0_r, <-app_assoc. done.
    + by rewrite lookup_insert_ne.
  - destruct Hspec as (Hh & Hn & Hv & Hth). rewrite Hh. split_and!; try done.
    by apply insert_id.
Qed.

(** *** Relocation, whatever the policy *)

Lemma move_construct_throw s p q i bp v :
  heap s !! p = Some bp → bp !! i = Some (Some v) →
  move_ctor_throws (log s) v = true →
  move_construct (mkPtr (Some p) i) q s = Throw s.
Proof.
  intros Hp Hi Hc. unfold move_construct.
  erewrite bind_Ret; [|by eapply read_slot_eq].
  unfold bind at 1, gets at 1. by rewrite Hc.
Qed.

Lemma uninitialized_move_spec ys s p q i j0 d preP postP preQ zs postQ :
  p ≠ q → length preP = i → length preQ = j0 → length zs = d →
  heap s !! p = Some (preP ++ (Some <$> ys) ++ postP) →
  heap s !! q
  = Some (preQ ++ (Some <$> zs) ++ replicate (length ys) None ++ postQ) →
  match uninitialized_n move_construct (mkPtr (Some p) i) (length ys)
          (mkPtr (Some q) j0) d s with
  | Ret _ s' =>
      s' = mkState (<[q := preQ ++ (Some <$> zs ++ ys) ++ postQ]>
                      (<[p := preP ++ (Some <$> (moved_from <$> ys)) ++ postP]>
                         (heap s)))
             (next s) (vecs s)
             (log s ++ move_events p q i (j0 + d) (length ys))
  | Throw s' =>
      is_Some (heap s' !! q) ∧ next s' = next s ∧ vecs s' = vecs s
      ∧ ∃ h y, y ∈ ys ∧ move_ctor_throws h y = true
  | Undef => False
  end.
Proof.
  intros Hpq. revert s i d preP zs.
  induction ys as [|y ys IH]; intros s i d preP zs Hi Hj Hd Hp Hq; csimpl in *.
  - unfold ret, move_events. simpl. rewrite !app_nil_r.
    rewrite (insert_id (heap s) p) by done. rewrite insert_id by done.
    by destruct s.
  - destruct (move_ctor_throws (log s) y) eqn:Hc.
    + erewrite bind_Throw; last first.
      { erewrite try_catch_Throw;
          [|eapply move_construct_throw; [done| |done]].
        - erewrite bind_Ret; [done|]. subst d. by eapply destroy_n_eq.
        - rewrite <-Hi. apply block_middle_lookup. }
      simpl. rewrite lookup_insert_eq. split_and!; [by eexists|done..|].
      exists (log s), y. split; [left|done].
    + erewrite bind_Ret; last first.
      { eapply try_catch_Ret, move_construct_eq; [done|done| |done| |done].
        - rewrite <-Hi. apply block_middle_lookup.
        - rewrite !length_app, length_fmap. simpl. lia. }
      unfold ptr_add. simpl.
      assert (<[j0 + d := Some y]>
                (preQ ++ (Some <$> zs) ++ None :: replicate (length ys) None ++ postQ)
              = preQ ++ (Some <$> zs ++ [y]) ++ replicate (length ys) None ++ postQ)
        as ->.
      { rewrite app_assoc. rewrite <-Hj, <-Hd.
        replace (length preQ + length zs) with (length (preQ ++ (Some <$> zs)))
          by (by rewrite length_app, length_fmap).
        rewrite block_middle_insert. rewrite fmap_app. simpl.
        by rewrite <-!app_assoc. }
      rewrite <-Hi, block_middle_insert.
      opose proof* (IH (mkState
                          (<[p := preP ++ Some (moved_from y) :: (Some <$> ys) ++ postP]>
                             (<[q := preQ ++ (Some <$> zs ++ [y]) ++
                                       replicate (length ys) None ++ postQ]> (heap s)))
                          (next s) (vecs s)
                          (log s ++ [EvMoveCtor (Slot p (length preP)) (Slot q (j0 + d))]))
                       (length preP + 1) (S d) (preP ++ [Some (moved_from y)])
                       (zs ++ [y])) as IH'; simpl.
      { rewrite length_app. simpl. lia. }
      { done. }
      { rewrite length_app. simpl. lia. }
      { rewrite lookup_insert_eq. f_equal. by rewrite <-app_assoc. }
      { rewrite lookup_insert_ne by done. by rewrite lookup_insert_eq. }
      simpl in IH'.
      destruct (uninitialized_n _ _ _ _ _ _) as [[] s'|s'|]; [| |done].
      * rewrite IH'. f_equal.
        -- rewrite <-!app_assoc. simpl. same_map.
        -- rewrite <-app_assoc. f_equal. unfold move_events. simpl.
           rewrite !Nat.add_0_r. f_equal. rewrite fmap_seq_shift.
           apply list_fmap_ext. intros _ k _. f_equal; f_equal; lia.
      * destruct IH' as (Hh & Hn & Hv & h & y' & Hy' & Hth).
        split_and!; [done..|]. exists h, y'. split; [by right|done].
Qed.

(** [CopyOrMove] between two blocks: it returns with the elements relocated
    and the source raw, or it throws because relocating some element threw;
    then the destination still is allocated and, when relocation copies,
    the free store is as it was. *)
Lemma CopyOrMove_spec ys s p q i j preP postP preQ postQ :
  p ≠ q → length preP = i → length preQ = j →
  heap s !! p = Some (preP ++ (Some <$> ys) ++ postP) →
  heap s !! q = Some (preQ ++ replicate (length ys) None ++ postQ) →
  match CopyOrMove (mkPtr (Some p) i) (mkPtr (Some q) j) (length ys) s with
  | Ret _ s' =>
      s' = mkState (<[p := preP ++ replicate (length ys) None ++ postP]>
                      (<[q := preQ ++ (Some <$> ys) ++ postQ]> (heap s)))
             (next s) (vecs s)
             (log s ++ relocation_events p q i j (length ys)
                    ++ dtor_events p i (length ys))
  | Throw s' =>
      is_Some (heap s' !! q) ∧ next s' = next s ∧ vecs s' = vecs s
      ∧ (∃ h y, y ∈ ys ∧ relocation_throws h y = true)
      ∧ (relocates_by_move = false → heap s' = heap s)
  | Undef => False
  end.
Proof.
  intros Hpq Hi Hj Hp Hq.
  destruct relocates_by_move eqn:Hpol.
  - unfold CopyOrMove, relocation_throws, relocation_events.
    rewrite Hpol. unfold relocates_by_move in Hpol. rewrite Hpol.
    opose proof* (uninitialized_move_spec ys s p q i j 0 preP postP preQ [] postQ)
      as Hspec; simpl; try done.
    unfold uninitialized_move_n, bind. simpl in Hspec.
    destruct (uninitialized_n _ _ _ _ _ _) as [[] s'|s'|]; [| |done].
    + subst s'. rewrite <-(length_fmap moved_from ys).
      erewrite destroy_n_eq; [|done|]; simpl.
      * rewrite length_fmap, Nat.add_0_r, <-app_assoc. f_equal. same_map.
      * rewrite lookup_insert_ne by done. by rewrite lookup_insert_eq.
    + destruct Hspec as (? & ? & ? & ?). done.
  - pose proof (CopyOrMove_copy_spec ys s p q i j preP postP preQ postQ
                  Hpol Hpq Hi Hj Hp Hq) as Hspec.
    unfold relocation_throws. rewrite Hpol.
    destruct (CopyOrMove _ _ _ _) as [[] s'|s'|]; [done| |done].
    destruct Hspec as (Hh & ? & ? & ?). rewrite Hh. by split_and!.
Qed.

End Heap.

(** ** The methods, on a vector whose contents are known *)

(** Projections of known states and pointers. *)
Ltac st_simpl :=
  cbn [heap next vecs log data_ size_ buffer_ capacity_ base off
       GetAddress ptr_add ptr_sub loc_of].

(** One step of a sequence, by a lemma that says what the step does. *)
Tactic Notation "run" uconstr(lem) :=
  rewrite ?bind_bind;
  erewrite bind_Ret;
  [|solve [eapply lem; simpl; eauto; try lia; try (by simplify_map_eq)]];
  st_simpl.

Section Methods.
Context {T : Type} `{ET : ElementType T}.
Local Abbreviation M := (Exec (@State T)).
Implicit Types (s : @State T) (b : list (option T)) (xs ys zs : list T).

Lemma Ret_state_eq {A} (a : A) h1 h2 n1 n2 (v1 v2 : gmap nat Vector) l1 l2 :
  h1 = h2 → n1 = n2 → v1 = v2 → l1 = l2 →
  Ret a (mkState (T:=T) h1 n1 v1 l1) = Ret a (mkState h2 n2 v2 l2).
Proof. by intros -> -> -> ->. Qed.

Lemma holds_fresh s this p cap xs :
  holds s this (Some p) cap xs → heap_fresh s → p ≠ next s.
Proof.
  intros (_ & _ & Hp) Hf. specialize (Hf p _ Hp). simpl in Hf. lia.
Qed.

Lemma block_of_raw xs k :
  length xs ≤ k →
  replicate k None = replicate (length xs) (@None T) ++ replicate (k - length xs) None.
Proof. intros. rewrite <-replicate_add. f_equal. lia. Qed.

(** *** Members and [RawMemory] on a known state *)

Lemma get_vec_eq s this v : vecs s !! this = Some v → get_vec this s = Ret v s.
Proof. unfold get_vec. by intros ->. Qed.

Lemma get_data_eq s this v :
  vecs s !! this = Some v → get_data this s = Ret (data_ v) s.
Proof. intros H. unfold get_data. by erewrite bind_Ret; [|by apply get_vec_eq]. Qed.

Lemma get_size_eq s this v :
  vecs s !! this = Some v → get_size this s = Ret (size_ v) s.
Proof. intros H. unfold get_size. by erewrite bind_Ret; [|by apply get_vec_eq]. Qed.

Lemma Capacity_eq s this v :
  vecs s !! this = Some v → Capacity this s = Ret (capacity_ (data_ v)) s.
Proof. intros H. unfold Capacity. by erewrite bind_Ret; [|by apply get_data_eq]. Qed.

Lemma set_data_eq s this v d :
  vecs s !! this = Some v →
  set_data this d s
  = Ret tt (mkState (heap s) (next s) (<[this := mkVector d (size_ v)]> (vecs s))
              (log s)).
Proof. intros H. unfold set_data. by erewrite bind_Ret; [|by apply get_vec_eq]. Qed.

Lemma set_size_eq s this v n :
  vecs s !! this = Some v →
  set_size this n s
  = Ret tt (mkState (heap s) (next s) (<[this := mkVector (data_ v) n]> (vecs s))
              (log s)).
Proof. intros H. unfold set_size. by erewrite bind_Ret; [|by apply get_vec_eq]. Qed.

Lemma RawMemory_ctor_eq s n :
  n ≠ 0 →
  RawMemory_ctor n s
  = Ret (mkRawMemory (Some (next s)) n)
      (mkState (<[next s := replicate n None]> (heap s)) (S (next s)) (vecs s)
         (log s ++ [EvNew (next s) n])).
Proof. intros H. unfold RawMemory_ctor, Allocate. by rewrite decide_True. Qed.

Lemma RawMemory_dtor_eq s p cap b :
  heap s !! p = Some b →
  RawMemory_dtor (mkRawMemory (Some p) cap) s
  = Ret tt (mkState (delete p (heap s)) (next s) (vecs s) (log s ++ [EvDelete p])).
Proof. intros H. unfold RawMemory_dtor, Deallocate. simpl. by rewrite H. Qed.

Lemma RawMemory_dtor_null s cap :
  RawMemory_dtor (mkRawMemory None cap) s = Ret tt s.
Proof. done. Qed.

Lemma RawMemory_plus_eq s m offset :
  offset ≤ capacity_ m →
  RawMemory_plus m offset s = Ret (mkPtr (buffer_ m) offset) s.
Proof. intros H. unfold RawMemory_plus. by rewrite bool_decide_true. Qed.

Lemma RawMemory_at_eq s m index :
  index < capacity_ m →
  RawMemory_at m index s = Ret (mkPtr (buffer_ m) index) s.
Proof. intros H. unfold RawMemory_at. by rewrite bool_decide_true. Qed.

Lemma end_eq s this v :
  vecs s !! this = Some v → size_ v ≤ capacity_ (data_ v) →
  end_ this s = Ret (mkPtr (buffer_ (data_ v)) (size_ v)) s.
Proof.
  intros H Hle. unfold end_.
  erewrite bind_Ret; [|by apply get_data_eq].
  erewrite bind_Ret; [|by apply get_size_eq].
  by apply RawMemory_plus_eq.
Qed.



Lemma heap_fresh_next s : heap_fresh s → heap s !! next s = None.
Proof.
  intros Hf. destruct (heap s !! next s) eqn:Hfr; [|done].
  specialize (Hf _ _ Hfr). simpl in Hf. lia.
Qed.

(** *** [Reserve] *)


(** [Reserve] beyond the capacity: it returns as above, or it throws because
    relocating an element threw; then the object store is as it was and so is,
    when relocation copies, the free store. *)
Lemma Reserve_spec s this buf cap xs k :
  holds s this buf cap xs → heap_fresh s → cap < k →
  match Reserve this k s with
  | Ret _ s' =>
      s' = mkState (<[next s := block_of xs k]> (released buf (heap s)))
             (S (next s))
             (<[this := mkVector (mkRawMemory (Some (next s)) k) (length xs)]> (vecs s))
             (log s ++ EvNew (next s) k
                    :: moving_out_events buf (next s) (length xs))
  | Throw s' =>
      vecs s' = vecs s
      ∧ (∃ h x, x ∈ xs ∧ relocation_throws h x = true)
      ∧ (relocates_by_move = false → heap s' = heap s)
  | Undef => False
  end.
Proof.
  intros Hh Hf Hk. pose proof Hh as (Hv & Hle & Hb).
  unfold Reserve. run get_data_eq. rewrite bool_decide_false by lia.
  run RawMemory_ctor_eq.
  destruct buf as [p|].
  - assert (p ≠ next s) as Hpq by by eapply holds_fresh.
    opose proof* (CopyOrMove_spec xs
                    (mkState (<[next s := replicate k None]> (heap s)) (S (next s))
                       (vecs s) (log s ++ [EvNew (next s) k]))
                    p (next s) 0 0 [] (replicate (cap - length xs) None) []
                    (replicate (k - length xs) None)) as Hspec;
      simpl; try done.
    { by rewrite lookup_insert_ne. }
    { rewrite lookup_insert_eq. f_equal. apply block_of_raw. lia. }
    destruct (CopyOrMove _ _ _ _) as [[] s'|s'|] eqn:Hrun; [| |done].
    + subst s'. erewrite bind_Ret; last first.
      { eapply on_unwind_Ret. run get_size_eq. exact Hrun. }
      run set_data_eq.
      erewrite RawMemory_dtor_eq; [|simpl; by rewrite lookup_insert_eq].
      simpl. f_equal; simpl.
      * unfold block_of. same_map.
      * rewrite <-!app_assoc. done.
    + destruct Hspec as ([b' Hb'] & Hn' & Hv' & Hth & Hcopy). simpl in *.
      erewrite bind_Throw; last first.
      { eapply on_unwind_Throw.
        - run get_size_eq. exact Hrun.
        - by eapply RawMemory_dtor_eq. }
      simpl. split_and!; [done..|].
      intros Hpol. rewrite (Hcopy Hpol).
      rewrite delete_insert_eq. apply delete_id. by apply heap_fresh_next.
  - destruct xs; [|simpl in *; lia]. simpl in *.
    erewrite bind_Ret; last first.
    { eapply on_unwind_Ret. run get_size_eq. apply CopyOrMove_nil. }
    run set_data_eq. rewrite ?RawMemory_dtor_null.
    simpl. f_equal. unfold block_of. simpl. by rewrite Nat.sub_0_r.
Qed.


(** *** Copying a vector *)

Lemma Vector_copy_ctor_spec s rhs pr rcap ys :
  holds s rhs (Some pr) rcap ys → heap_fresh s → ys ≠ [] →
  match Vector_copy_ctor rhs s with
  | Ret v s' =>
      v = mkVector (mkRawMemory (Some (next s)) (length ys)) (length ys)
      ∧ s' = mkState (<[next s := Some <$> ys]> (heap s)) (S (next s)) (vecs s)
               (log s ++ EvNew (next s) (length ys)
                      :: copy_events pr (next s) 0 0 (length ys))
  | Throw s' =>
      heap s' = heap s ∧ vecs s' = vecs s
      ∧ ∃ h y, y ∈ ys ∧ copy_ctor_throws h y = true
  | Undef => False
  end.
Proof.
  intros Hh Hf Hne. pose proof Hh as (Hv & Hle & Hb).
  assert (pr ≠ next s) as Hpq by by eapply holds_fresh.
  unfold Vector_copy_ctor. run get_vec_eq.
  erewrite bind_Ret; [|apply RawMemory_ctor_eq; by destruct ys]. simpl.
  opose proof* (uninitialized_copy_spec ys
                  (mkState (<[next s := replicate (length ys) None]> (heap s))
                     (S (next s)) (vecs s)
                     (log s ++ [EvNew (next s) (length ys)]))
                  pr (next s) 0 0 [] (replicate (rcap - length ys) None) [] [] [])
    as Hspec; simpl; try done.
  { by rewrite lookup_insert_ne. }
  { rewrite lookup_insert_eq. by rewrite app_nil_r. }
  unfold uninitialized_copy_n, GetAddress. simpl in *.
  destruct (uninitialized_n _ _ _ _ _ _) as [[] s'|s'|] eqn:Hrun; [| |done].
  - subst s'. erewrite bind_Ret; [|eapply on_unwind_Ret; exact Hrun].
    simpl. split; [done|]. f_equal.
    + rewrite app_nil_r. same_map.
    + by rewrite <-app_assoc.
  - destruct Hspec as (Hh' & Hn' & Hv' & Hth).
    erewrite bind_Throw; last first.
    { eapply on_unwind_Throw; [exact Hrun|].
      eapply RawMemory_dtor_eq. rewrite Hh'. by rewrite lookup_insert_eq. }
    simpl. rewrite Hh', Hv'. split_and!; [|done..].
    rewrite !delete_insert_eq. apply delete_id. by apply heap_fresh_next.
Qed.

Lemma block_of_length xs cap : length xs ≤ cap → length (block_of xs cap) = cap.
Proof.
  intros. unfold block_of. rewrite length_app, length_fmap, length_replicate. lia.
Qed.

Lemma block_of_lookup_live xs cap i x :
  xs !! i = Some x → block_of xs cap !! i = Some (Some x).
Proof.
  intros Hx. unfold block_of. rewrite lookup_app_l.
  - by rewrite list_lookup_fmap, Hx.
  - rewrite length_fmap. by eapply lookup_lt_Some.
Qed.

Lemma block_of_lookup_raw xs cap i :
  length xs ≤ i → i < cap → block_of xs cap !! i = Some None.
Proof.
  intros H1 H2. unfold block_of. rewrite lookup_app_r by (by rewrite length_fmap).
  rewrite length_fmap. apply lookup_replicate_2. lia.
Qed.

(** Two vectors on one block hold equally many elements. *)
Lemma block_of_same_length xs ys cap rcap :
  length xs ≤ cap → length ys ≤ rcap →
  block_of xs cap = block_of ys rcap → length xs = length ys.
Proof.
  intros Hx Hy Heq.
  assert (cap = rcap) as <-.
  { by rewrite <-(block_of_length xs cap), <-(block_of_length ys rcap), Heq. }
  destruct (decide (length xs < length ys)) as [Hlt|Hge].
  - destruct (lookup_lt_is_Some_2 ys (length xs) Hlt) as [y Hy'].
    apply (block_of_lookup_live _ cap) in Hy'. rewrite <-Heq in Hy'.
    rewrite block_of_lookup_raw in Hy' by lia. done.
  - destruct (decide (length ys < length xs)) as [Hlt|Hge']; [|lia].
    destruct (lookup_lt_is_Some_2 xs (length ys) Hlt) as [x Hx'].
    apply (block_of_lookup_live _ cap) in Hx'. rewrite Heq in Hx'.
    rewrite block_of_lookup_raw in Hx' by lia. done.
Qed.

Lemma Vector_dtor_local_eq s buf cap xs :
  length xs ≤ cap →
  match buf with
  | Some p => heap s !! p = Some (block_of xs cap)
  | None => xs = []
  end →
  Vector_dtor_local (mkVector (mkRawMemory buf cap) (length xs)) s
  = Ret tt (mkState (released buf (heap s)) (next s) (vecs s)
              (log s ++ teardown_events buf (length xs))).
Proof.
  intros Hle Hb. unfold Vector_dtor_local, GetAddress. simpl.
  destruct buf as [p|].
  - erewrite bind_Ret; [|by eapply (destroy_n_eq xs s p 0 [])]. simpl.
    erewrite RawMemory_dtor_eq; [|simpl; by rewrite lookup_insert_eq].
    apply Ret_state_eq; simpl; try done.
    + same_map.
    + by rewrite <-app_assoc.
  - subst xs. simpl. unfold bind, ret. simpl. rewrite app_nil_r. by destruct s.
Qed.

(** Copy assignment from a source larger than the capacity of the
    destination. *)
Lemma Vector_copy_assign_grow_spec s this rhs buf cap xs pr rcap ys :
  holds s this buf cap xs → holds s rhs (Some pr) rcap ys → heap_fresh s →
  cap < length ys →
  match Vector_copy_assign this rhs s with
  | Ret _ s' =>
      s' = mkState (<[next s := Some <$> ys]> (released buf (heap s)))
             (S (next s))
             (<[this := mkVector (mkRawMemory (Some (next s)) (length ys))
                          (length ys)]> (vecs s))
             (log s ++ EvNew (next s) (length ys)
                    :: copy_events pr (next s) 0 0 (length ys)
                    ++ teardown_events buf (length xs))
  | Throw s' =>
      heap s' = heap s ∧ vecs s' = vecs s
      ∧ ∃ h y, y ∈ ys ∧ copy_ctor_throws h y = true
  | Undef => False
  end.
Proof.
  intros Hd Hs Hf Hlt.
  pose proof Hd as (Hdv & Hdle & Hdb). pose proof Hs as (Hsv & Hsle & Hsb).
  assert (ys ≠ []) as Hne by (destruct ys; simpl in *; [lia|done]).
  assert (this ≠ rhs) as Hneq.
  { intros ->. rewrite Hdv in Hsv. simplify_eq. lia. }
  unfold Vector_copy_assign. rewrite bool_decide_true by done.
  pose proof (Vector_copy_ctor_spec s rhs pr rcap ys Hs Hf Hne) as Hspec.
  destruct (Vector_copy_ctor rhs s) as [c s1|s1|] eqn:Hrun; [| |done].
  - destruct Hspec as [-> ->].
    erewrite bind_Ret; last first.
    { run get_size_eq. run Capacity_eq. rewrite bool_decide_true by done.
      erewrite bind_Ret; [|exact Hrun].
      run get_vec_eq. unfold put_vec, modify. unfold bind at 1. simpl.
      eapply Vector_dtor_local_eq; [done|]. simpl.
      destruct buf as [p|].
      - rewrite lookup_insert_ne; [done|]. intros <-.
        rewrite heap_fresh_next in Hdb; done.
      - destruct xs; simpl in *; [done|lia]. }
    simpl. run get_size_eq.
    erewrite set_size_eq; [|simpl; by rewrite lookup_insert_eq]. simpl.
    f_equal.
    + destruct buf as [p|]; simpl; [|done].
      assert (p ≠ next s).
      { intros ->. rewrite heap_fresh_next in Hdb; done. }
      same_map.
    + by rewrite insert_insert_eq.
    + by rewrite <-!app_assoc.
  - destruct Hspec as (Hh' & Hv' & Hth).
    erewrite bind_Throw; last first.
    { run get_size_eq. run Capacity_eq. rewrite bool_decide_true by done.
      erewrite bind_Throw; [done|exact Hrun]. }
    done.
Qed.

(** *** Building the new object *)

Lemma block_of_moved xs cap j v :
  xs !! j = Some v →
  <[j := Some (moved_from v)]> (block_of xs cap)
  = block_of (alter moved_from j xs) cap.
Proof.
  intros Hv. pose proof (lookup_lt_Some _ _ _ Hv) as Hlt.
  unfold block_of. rewrite length_alter.
  rewrite insert_app_l by (by rewrite length_fmap). f_equal.
  apply list_eq. intros i.
  rewrite list_lookup_insert, !list_lookup_fmap, list_lookup_alter, length_fmap.
  destruct (decide (j = i)) as [->|Hne].
  - rewrite decide_True by done. by rewrite Hv.
  - rewrite decide_False; [done|]. intros [? _]. done.
Qed.

Lemma construct_value_spec s buf cap xs a dst :
  length xs ≤ cap →
  match buf with
  | Some p => heap s !! p = Some (block_of xs cap)
  | None => True
  end →
  args_ok buf xs a →
  match construct_value a dst s with
  | Ret v s' =>
      args_value xs a = Some v
      ∧ args_throws (log s) a v = false
      ∧ s' = mkState (with_block buf (block_of (args_residue xs a) cap) (heap s))
               (next s) (vecs s) (log s ++ [args_event a dst])
  | Throw s' =>
      s' = s ∧ ∀ v, args_value xs a = Some v → args_throws (log s) a v = true
  | Undef => False
  end.
Proof.
  intros Hle Hb Hok.
  assert (with_block buf (block_of xs cap) (heap s) = heap s) as Hid.
  { destruct buf; [|done]. by apply insert_id. }
  destruct a as [[v|q]|[v|q]|[v|]]; simpl in *.
  - unfold bind, gets. destruct (copy_ctor_throws _ _) eqn:Hc; simpl; [split; [done|congruence]|].
    rewrite Hid. done.
  - destruct Hok as (Hq & [p ->] & Hlt). destruct q as [qb qo]. simpl in *.
    subst qb. destruct (lookup_lt_is_Some_2 xs qo Hlt) as [v Hv].
    erewrite bind_Ret; [|eapply read_slot_eq; [done|by apply block_of_lookup_live]].
    unfold bind, gets. destruct (copy_ctor_throws _ _) eqn:Hc; simpl; [split; [done|congruence]|].
    rewrite insert_id by done. done.
  - unfold bind, gets. destruct (move_ctor_throws _ _) eqn:Hc; simpl; [split; [done|congruence]|].
    rewrite Hid. done.
  - destruct Hok as (Hq & [p ->] & Hlt). destruct q as [qb qo]. simpl in *.
    subst qb. destruct (lookup_lt_is_Some_2 xs qo Hlt) as [v Hv].
    erewrite bind_Ret; [|eapply read_slot_eq; [done|by apply block_of_lookup_live]].
    unfold bind at 1, gets at 1. destruct (move_ctor_throws _ _) eqn:Hc; simpl; [split; [done|congruence]|].
    erewrite bind_Ret; last first.
    { eapply write_slot_eq; [done|]. rewrite block_of_length; lia. }
    simpl. split_and!; [done..|]. unfold add_log. simpl.
    by erewrite block_of_moved.
  - unfold bind. simpl. rewrite Hid. done.
  - done.
Qed.

(** *** [EmplaceBack] *)

Lemma args_residue_length xs a : length (args_residue xs a) = length xs.
Proof. destruct a as [[]|[]|[]]; simpl; by rewrite ?length_alter. Qed.

Lemma block_of_snoc xs cap v :
  length xs < cap →
  <[length xs := Some v]> (block_of xs cap) = block_of (xs ++ [v]) cap.
Proof.
  intros Hlt. unfold block_of.
  replace (cap - length xs) with (S (cap - length (xs ++ [v])))
    by (rewrite length_app; simpl; lia).
  simpl. rewrite <-(length_fmap Some xs) at 1. rewrite block_middle_insert.
  by rewrite fmap_app, <-app_assoc.
Qed.

Lemma grown_gt n : n < grown n.
Proof. unfold grown. case_bool_decide; lia. Qed.

Lemma placement_new_Ret s dst a v s1 s2 :
  construct_value a (loc_of dst) s = Ret v s1 →
  write_slot dst (Some v) s1 = Ret tt s2 →
  placement_new dst a s = Ret tt s2.
Proof. intros H1 H2. unfold placement_new. by erewrite bind_Ret. Qed.

Lemma placement_new_Throw s dst a s1 :
  construct_value a (loc_of dst) s = Throw s1 →
  placement_new dst a s = Throw s1.
Proof. intros H1. unfold placement_new. by erewrite bind_Throw. Qed.

(** With spare capacity: the new object is built in the first raw slot, or
    building it throws and nothing has changed. *)
Lemma EmplaceBack_spare_spec s this p cap xs a :
  holds s this (Some p) cap xs → length xs < cap → args_ok (Some p) xs a →
  match EmplaceBack this a s with
  | Ret q s' =>
      ∃ v, args_value xs a = Some v
           ∧ args_throws (log s) a v = false
           ∧ q = mkPtr (Some p) (length xs)
           ∧ s' = mkState (<[p := block_of (args_residue xs a ++ [v]) cap]> (heap s))
                    (next s)
                    (<[this := mkVector (mkRawMemory (Some p) cap) (S (length xs))]>
                       (vecs s))
                    (log s ++ [args_event a (Slot p (length xs))])
  | Throw s' =>
      s' = s ∧ ∀ v, args_value xs a = Some v → args_throws (log s) a v = true
  | Undef => False
  end.
Proof.
  intros Hh Hlt Hok. pose proof Hh as (Hv & Hle & Hb).
  unfold EmplaceBack. run get_size_eq. run Capacity_eq.
  rewrite bool_decide_false by lia.
  pose proof (construct_value_spec s (Some p) cap xs a (Slot p (length xs))
                Hle Hb Hok) as Hspec.
  destruct (construct_value _ _ _) as [v s1|s1|] eqn:Hrun; [| |done].
  - destruct Hspec as (Hval & Hnt & ->).
    erewrite bind_Ret; last first.
    { run get_data_eq. run RawMemory_plus_eq.
      erewrite bind_Ret; [done|].
      eapply placement_new_Ret; [exact Hrun|].
      eapply write_slot_eq; simpl; [by rewrite lookup_insert_eq|].
      rewrite block_of_length; rewrite ?args_residue_length; lia. }
    st_simpl. run get_size_eq. run set_size_eq. simpl.
    exists v. split_and!; try done. f_equal.
    rewrite insert_insert_eq. f_equal.
    rewrite <-(args_residue_length xs a). apply block_of_snoc.
    by rewrite args_residue_length.
  - destruct Hspec as [-> Hth]. erewrite bind_Throw; [done|].
    run get_data_eq. run RawMemory_plus_eq.
    erewrite bind_Throw; [done|]. by eapply placement_new_Throw.
Qed.

Lemma raw_insert (n k : nat) (v : T) :
  n < k →
  <[n := Some v]> (replicate k None)
  = replicate n None ++ Some v :: replicate (k - S n) None.
Proof.
  intros Hlt. replace k with (n + S (k - S n)) at 1 by lia.
  rewrite replicate_add. simpl.
  rewrite <-(length_replicate n (@None T)) at 1.
  by rewrite block_middle_insert.
Qed.

Lemma block_of_snoc_app xs cap v :
  length xs < cap →
  (Some <$> xs) ++ Some v :: replicate (cap - S (length xs)) None
  = block_of (xs ++ [v]) cap.
Proof.
  intros Hlt. unfold block_of. rewrite fmap_app, <-app_assoc, length_app.
  simpl. do 3 f_equal. lia.
Qed.

(** Without spare capacity: the vector moves to a block of [grown] capacity
    with the new object behind the old ones.  The call throws when building
    the new object throws, or when relocating an element throws; in both
    cases the new block is released and the object store is as it was. *)
Lemma EmplaceBack_grow_spec s this buf xs a :
  holds s this buf (length xs) xs → heap_fresh s → args_ok buf xs a →
  match EmplaceBack this a s with
  | Ret q s' =>
      ∃ v, args_value xs a = Some v
           ∧ args_throws (log s ++ [EvNew (next s) (grown (length xs))]) a v = false
           ∧ q = mkPtr (Some (next s)) (length xs)
           ∧ s' = mkState
                    (<[next s := block_of (args_residue xs a ++ [v])
                                   (grown (length xs))]> (released buf (heap s)))
                    (S (next s))
                    (<[this := mkVector
                                 (mkRawMemory (Some (next s)) (grown (length xs)))
                                 (S (length xs))]> (vecs s))
                    (log s ++ EvNew (next s) (grown (length xs))
                           :: args_event a (Slot (next s) (length xs))
                           :: moving_out_events buf (next s) (length xs))
  | Throw s' =>
      vecs s' = vecs s
      ∧ ((heap s' = heap s
          ∧ ∀ v, args_value xs a = Some v → ∃ h, args_throws h a v = true)
         ∨ ((∃ h y, y ∈ args_residue xs a ∧ relocation_throws h y = true)
            ∧ (relocates_by_move = false →
               heap s' = with_block buf (block_of (args_residue xs a) (length xs))
                           (heap s))))
  | Undef => False
  end.
Proof.
  intros Hh Hf Hok. pose proof Hh as (Hv & Hle & Hb).
  pose proof (heap_fresh_next s Hf) as Hq.
  pose proof (grown_gt (length xs)) as Hgr.
  unfold EmplaceBack. run get_size_eq. run Capacity_eq.
  rewrite bool_decide_true by done. fold (grown (length xs)).
  rewrite !bind_bind.
  erewrite (bind_Ret (RawMemory_ctor _)); [|apply RawMemory_ctor_eq; lia].
  set (q := next s) in *. set (k := grown (length xs)) in *.
  set (s1 := mkState (<[q := replicate k None]> (heap s)) (S q) (vecs s)
               (log s ++ [EvNew q k])).
  assert (vecs s1 !! this
          = Some (mkVector (mkRawMemory buf (length xs)) (length xs))) as Hv1
    by done.
  assert (match buf with
          | Some p => p ≠ q ∧ heap s1 !! p = Some (block_of xs (length xs))
          | None => True
          end) as Hb1.
  { destruct buf as [p|]; [|done].
    assert (p ≠ q) by (intros ->; by rewrite Hq in Hb).
    split; [done|]. simpl. by rewrite lookup_insert_ne. }
  opose proof* (construct_value_spec s1 buf (length xs) xs a (Slot q (length xs)))
    as Hspec; [done| |done|].
  { destruct buf; [|done]. by destruct Hb1. }
  destruct (construct_value _ _ _) as [v s2|s2|] eqn:Hrun; [| |done].
  - destruct Hspec as (Hval & Hnt & ->).
    set (xs' := args_residue xs a) in *.
    assert (length xs' = length xs) as Hlen by apply args_residue_length.
    set (s3 := mkState
                 (<[q := replicate (length xs) None
                         ++ Some v :: replicate (k - S (length xs)) None]>
                    (with_block buf (block_of xs' (length xs)) (heap s1)))
                 (S q) (vecs s) (log s1 ++ [args_event a (Slot q (length xs))])).
    assert (placement_new (mkPtr (Some q) (length xs)) a s1 = Ret tt s3) as Hnew.
    { eapply placement_new_Ret; [exact Hrun|].
      erewrite write_slot_eq; simpl.
      - unfold s3. by rewrite raw_insert.
      - destruct buf as [p|]; simpl.
        + destruct Hb1. by rewrite lookup_insert_ne, lookup_insert_eq.
        + by rewrite lookup_insert_eq.
      - rewrite length_replicate. lia. }
    destruct buf as [p|].
    + destruct Hb1 as [Hpq Hb1].
      opose proof* (CopyOrMove_spec xs' s3 p q 0 0 [] [] []
                      (Some v :: replicate (k - S (length xs)) None)) as Hrel;
        simpl; try done.
      { rewrite lookup_insert_ne by done. rewrite lookup_insert_eq.
        unfold block_of. by rewrite Hlen, Nat.sub_diag. }
      { rewrite lookup_insert_eq. by rewrite Hlen. }
      rewrite Hlen in Hrel.
      destruct (CopyOrMove _ _ _ s3) as [[] s4|s4|] eqn:Hcm; [| |done].
      * subst s4. rewrite ?bind_bind; erewrite bind_Ret; last first.
        { eapply on_unwind_Ret.
          run RawMemory_plus_eq. erewrite bind_Ret; [|exact Hnew].
          run get_data_eq.
          erewrite bind_Ret; [done|exact Hcm]. }
        st_simpl. run get_data_eq. run set_data_eq.
        rewrite ?bind_bind; erewrite bind_Ret; last first.
        { eapply RawMemory_dtor_eq. simpl. by rewrite lookup_insert_eq. }
        rewrite bind_ret_l. st_simpl. run get_size_eq. run set_size_eq. simpl.
        exists v. split_and!; [done..|]. f_equal.
        -- rewrite <-(block_of_snoc_app xs' k v) by lia. rewrite Hlen. same_map.
        -- by rewrite insert_insert_eq.
        -- by rewrite <-!app_assoc.
      * destruct Hrel as ([b4 Hb4] & Hn4 & Hv4 & Hth & Hcopy).
        rewrite ?bind_bind; erewrite bind_Throw; last first.
        { eapply on_unwind_Throw.
          - run RawMemory_plus_eq. erewrite bind_Ret; [|exact Hnew].
            run get_data_eq.
            erewrite bind_Throw; [done|exact Hcm].
          - by eapply RawMemory_dtor_eq. }
        simpl. split; [done|]. right. split; [done|].
        intros Hpol. rewrite (Hcopy Hpol). simpl. same_map.
    + destruct xs; [|done].
      assert (xs' = []) as Hxs' by (by destruct a as [[]|[]|[]]).
      rewrite ?bind_bind; erewrite bind_Ret; last first.
      { eapply on_unwind_Ret.
        run RawMemory_plus_eq. erewrite bind_Ret; [|exact Hnew].
        run get_data_eq. erewrite bind_Ret; [done|]. apply CopyOrMove_nil. }
      st_simpl. run get_data_eq. run set_data_eq.
      run RawMemory_dtor_null. rewrite ?bind_ret_l.
      run get_size_eq. run set_size_eq. simpl.
      exists v. split_and!; [done..|]. unfold s3. rewrite Hxs'. simpl. f_equal.
      * unfold block_of. simpl. same_map.
      * by rewrite insert_insert_eq.
      * by rewrite <-!app_assoc.
  - destruct Hspec as [-> Hth].
    rewrite ?bind_bind; erewrite bind_Throw; last first.
    { eapply on_unwind_Throw.
      - run RawMemory_plus_eq. erewrite bind_Throw; [done|].
        by eapply placement_new_Throw.
      - eapply RawMemory_dtor_eq. simpl. by rewrite lookup_insert_eq. }
    simpl. split; [done|]. left. split.
    + rewrite delete_insert_eq. by apply delete_id.
    + intros v Hval. eexists. by apply Hth.
Qed.

End Methods.

(** ** [Emplace] into spare capacity *)

Section Emplace.
Context {T : Type} `{ET : ElementType T}.
Local Abbreviation M := (Exec (@State T)).
Implicit Types (s : @State T) (xs ys zs B : list T) (A post : list (option T)).

Lemma block_pair_insert (X : list (option T)) o1 o2 o1' o2' post :
  <[length X := o1']> (<[S (length X) := o2']> (X ++ o1 :: o2 :: post))
  = X ++ o1' :: o2' :: post.
Proof.
  rewrite (insert_app_r_alt _ _ (S _)) by lia.
  replace (S (length X) - length X) with 1 by lia. simpl.
  by rewrite block_middle_insert.
Qed.

Lemma move_backward_n_eq B s p A m post L D :
  L = length A + length B → D = S L →
  heap s !! p = Some (A ++ (Some <$> B) ++ Some m :: post) →
  (∀ h x, x ∈ B → move_assign_throws h x = false) →
  move_backward_n (mkPtr (Some p) L) (mkPtr (Some p) D) (length B) s
  = Ret tt (mkState (<[p := A ++ Some (head_moved B m) :: (Some <$> B) ++ post]>
                       (heap s))
              (next s) (vecs s) (log s ++ shift_events p (length A) (length B))).
Proof.
  revert s m post L D.
  induction B as [|b B IH] using rev_ind; intros s m post L D HL HD Hp Hnt.
  - simpl. unfold ret, shift_events. simpl. rewrite app_nil_r.
    rewrite insert_id by done. by destruct s.
  - rewrite length_app in *. simpl in HL. rewrite Nat.add_1_r. simpl.
    unfold ptr_sub. simpl. subst D. simpl. rewrite Nat.sub_0_r.
    assert (A ++ (Some <$> B ++ [b]) ++ Some m :: post
            = (A ++ (Some <$> B)) ++ Some b :: Some m :: post) as Hshape.
    { rewrite fmap_app. simpl. by rewrite <-!app_assoc. }
    rewrite Hshape in Hp.
    assert (length (A ++ (Some <$> B)) = L - 1) as Hlen.
    { rewrite length_app, length_fmap. lia. }
    erewrite bind_Ret; last first.
    { eapply (move_assign_eq_same s p (L - 1) L _ b m); [done| | |].
      - rewrite <-Hlen. apply block_middle_lookup.
      - replace L with (S (length (A ++ (Some <$> B)))) by lia.
        rewrite (lookup_app_r _ _ (S _)) by lia.
        replace (S _ - _) with 1 by lia. done.
      - apply Hnt. rewrite elem_of_app, list_elem_of_singleton. by right. }
    assert (<[L - 1 := Some (moved_from b)]>
              (<[L := Some b]> ((A ++ (Some <$> B)) ++ Some b :: Some m :: post))
            = A ++ (Some <$> B) ++ Some (moved_from b) :: Some b :: post) as ->.
    { replace L with (S (length (A ++ (Some <$> B)))) by lia.
      replace (S (length (A ++ (Some <$> B))) - 1)
        with (length (A ++ (Some <$> B))) by lia.
      rewrite block_pair_insert. by rewrite <-app_assoc. }
    erewrite (IH _ (moved_from b) (Some b :: post) (L - 1) L); simpl.
    + apply Ret_state_eq; try done.
      * rewrite insert_insert_eq. f_equal. rewrite fmap_app, <-!app_assoc. simpl.
        do 2 f_equal. by destruct B.
      * rewrite <-app_assoc. f_equal. unfold shift_events.
        rewrite seq_S, reverse_app. simpl. do 3 f_equal; lia.
    + lia.
    + lia.
    + by rewrite lookup_insert_eq.
    + intros h b' Hb'. apply Hnt. rewrite elem_of_app. by left.
Qed.

Lemma assert_eq s (P : Prop) `{!Decision P} :
  P → assert (bool_decide P) s = Ret tt s.
Proof. intros. by rewrite bool_decide_true. Qed.

Lemma block_middle_insert_at (X : list (option T)) i o o' post :
  length X = i → <[i := o']> (X ++ o :: post) = X ++ o' :: post.
Proof. intros <-. apply block_middle_insert. Qed.

Lemma block_middle_lookup_at (X : list (option T)) i o post :
  length X = i → (X ++ o :: post) !! i = Some o.
Proof. intros <-. apply block_middle_lookup. Qed.

Lemma emit_eq s e :
  emit e s = Ret tt (mkState (heap s) (next s) (vecs s) (log s ++ [e])).
Proof. done. Qed.

Lemma drop_snoc_inv xs pos :
  pos < length xs → ∃ B z, drop pos xs = B ++ [z].
Proof.
  intros Hlt. destruct (drop pos xs) as [|z B _] eqn:Hd using rev_ind.
  - apply (f_equal length) in Hd. rewrite length_drop in Hd. simpl in Hd. lia.
  - eauto.
Qed.

(** [Emplace] before an element, with spare capacity, when nothing throws:
    the elements from [pos] on are shifted one slot to the right inside the
    block and the new value is moved into slot [pos]. *)
Lemma Emplace_spare_eq s this p cap xs pos a v :
  holds s this (Some p) cap xs → length xs < cap → pos < length xs →
  args_ok (Some p) xs a →
  args_value xs a = Some v →
  (∀ h, args_throws h a v = false) →
  moves_nothrow (v :: drop pos (args_residue xs a)) →
  Emplace this pos a s
  = Ret (mkPtr (Some p) pos)
      (mkState
         (<[p := block_of (take pos (args_residue xs a) ++ v
                             :: drop pos (args_residue xs a)) cap]> (heap s))
         (next s)
         (<[this := mkVector (mkRawMemory (Some p) cap) (S (length xs))]> (vecs s))
         (log s ++ emplace_events a p pos (length xs))).
Proof.
  intros Hh Hlt Hpos Hok Hval Hnta Hntm. pose proof Hh as (Hv & Hle & Hb).
  set (xs' := args_residue xs a) in *.
  assert (length xs' = length xs) as Hlen by apply args_residue_length.
  destruct (drop_snoc_inv xs' pos) as (B & z & Hdrop); [lia|].
  assert (xs' = take pos xs' ++ B ++ [z]) as Hxs'.
  { by rewrite <-Hdrop, take_drop. }
  set (A0 := take pos xs') in *.
  assert (length A0 = pos) as HA0 by (unfold A0; rewrite length_take; lia).
  assert (length xs = pos + length B + 1) as Hn.
  { rewrite <-Hlen, Hxs', !length_app. simpl. lia. }
  set (R := replicate (cap - S (length xs)) (@None T)).
  assert (block_of xs' cap
          = ((Some <$> A0) ++ (Some <$> B)) ++ Some z :: None :: R) as Hblock.
  { unfold block_of. rewrite Hlen. rewrite Hxs' at 1.
    rewrite !fmap_app, <-!app_assoc. simpl. do 3 f_equal.
    unfold R. replace (cap - length xs) with (S (cap - S (length xs))) by lia.
    done. }
  assert (length ((Some <$> A0) ++ (Some <$> B)) = length xs - 1) as HX.
  { rewrite length_app, !length_fmap. lia. }
  unfold Emplace. run get_size_eq. run end_eq. run assert_eq.
  rewrite bool_decide_false by lia. run Capacity_eq.
  rewrite bool_decide_true by lia.
  (* T tmp(args...) *)
  opose proof* (construct_value_spec s (Some p) cap xs a Tmp) as Hspec; try done.
  destruct (construct_value a Tmp s) as [v' s1|s1|] eqn:Hrun; [| |done];
    last first.
  { destruct Hspec as [_ Hth]. specialize (Hth v Hval).
    by rewrite Hnta in Hth. }
  destruct Hspec as (Hval' & _ & ->). assert (v' = v) as -> by congruence.
  fold xs'. rewrite !bind_bind. erewrite bind_Ret; [|exact Hrun].
  rewrite !bind_bind.
  erewrite (bind_Ret (on_unwind _ _)); last first.
  { eapply on_unwind_Ret. simpl.
    run get_data_eq. run end_eq. run RawMemory_at_eq.
    (* the last element goes to the raw slot behind it *)
    erewrite bind_Ret; last first.
    { eapply (move_construct_eq_same _ p (length xs - 1) (length xs) _ z).
      - simpl. by rewrite lookup_insert_eq.
      - fold xs'. rewrite Hblock, <-HX. apply block_middle_lookup.
      - rewrite block_of_length; fold xs'; lia.
      - apply Hntm. right. rewrite Hdrop, elem_of_app, list_elem_of_singleton.
        by right. }
    st_simpl. fold xs'. rewrite Hblock.
    replace (length xs) with (S (length ((Some <$> A0) ++ (Some <$> B)))) at 2
      by lia.
    rewrite <-HX at 1. rewrite block_pair_insert, <-app_assoc.
    run RawMemory_plus_eq. run RawMemory_plus_eq. run end_eq.
    (* the elements before it move one slot to the right *)
    unfold move_backward. st_simpl.
    replace (length xs - 1 - pos) with (length B) by lia.
    erewrite bind_Ret; last first.
    { eapply (move_backward_n_eq B _ p (Some <$> A0) (moved_from z)
                (Some z :: R) (length xs - 1) (length xs)).
      - rewrite length_fmap. lia.
      - lia.
      - simpl. by rewrite lookup_insert_eq.
      - intros h x Hx. apply Hntm. right.
        rewrite Hdrop, elem_of_app. by left. }
    st_simpl. rewrite length_fmap, HA0.
    run RawMemory_at_eq.
    (* the temporary is moved into the slot at [pos] *)
    erewrite bind_Ret; last first.
    { eapply read_slot_eq; simpl; [by rewrite lookup_insert_eq|].
      apply block_middle_lookup_at. by rewrite length_fmap. }
    unfold bind at 1, gets at 1. st_simpl.
    rewrite (proj2 (Hntm _ v (list_elem_of_here _ _))).
    erewrite bind_Ret; last first.
    { eapply write_slot_eq; simpl; [by rewrite lookup_insert_eq|].
      rewrite !length_app, length_fmap. simpl. lia. }
    st_simpl. rewrite (block_middle_insert_at (Some <$> A0))
      by (by rewrite length_fmap).
    done. }
  run emit_eq. unfold add_log. st_simpl.
  run get_size_eq. run set_size_eq. run get_data_eq.
  erewrite RawMemory_plus_eq; [|simpl; lia].
  apply Ret_state_eq; simpl; try done.
  - rewrite !insert_insert_eq. f_equal. fold A0. rewrite Hdrop.
    unfold block_of. rewrite !fmap_app, <-!app_assoc. simpl.
    rewrite fmap_app, <-!app_assoc. simpl. do 4 f_equal.
    unfold R. f_equal. rewrite !length_app. simpl. rewrite length_app. simpl. lia.
  - unfold emplace_events. rewrite <-!app_assoc. simpl.
    do 3 f_equal. rewrite <-?app_assoc. simpl.
    replace (length xs - 1 - pos) with (length B) by lia. done.
Qed.

End Emplace.

(** * The claims *)

Section Claims.
Context {T : Type} `{ET : ElementType T}.
Implicit Types (s : @State T) (xs ys vs : list T) (a : @Args T).

Lemma events_since_app s (l : list Event) h n v :
  events_since s (mkState h n v (log s ++ l)) = l.
Proof. unfold events_since. simpl. by rewrite drop_app_length. Qed.

Lemma relocation_events_length p q i j n :
  length (relocation_events p q i j n) = n.
Proof.
  unfold relocation_events, move_events, copy_events.
  destruct relocates_by_move; by rewrite length_fmap, length_seq.
Qed.

Lemma times_relocated_app p i l1 l2 :
  times_relocated p i (l1 ++ l2) = times_relocated p i l1 + times_relocated p i l2.
Proof. unfold times_relocated. by rewrite filter_app, length_app. Qed.

Lemma times_relocated_dtor p i q k n :
  times_relocated p i (dtor_events q k n) = 0.
Proof.
  unfold times_relocated, dtor_events. revert k.
  induction n as [|n IH]; intros k; [done|]. simpl.
  rewrite filter_cons_False by done. apply IH.
Qed.



Lemma safe_relocation_throw h x :
  relocation_is_safe → relocation_throws h x = true → relocates_by_move = false.
Proof.
  unfold relocation_is_safe, relocation_throws, relocates_by_move.
  intros Hsafe Hth.
  destruct is_nothrow_move_constructible_v eqn:Hnt; simpl in *.
  - by rewrite nothrow_move_constructible in Hth.
  - destruct Hsafe as [?|Hc]; [done|]. by rewrite Hc.
Qed.

Lemma holds_with_block s s' this buf cap xs ys :
  holds s this buf cap xs → length ys = length xs →
  vecs s' = vecs s →
  heap s' = with_block buf (block_of ys cap) (heap s) →
  holds s' this buf cap ys.
Proof.
  intros (Hv & Hle & Hb) Hlen Hvs Hhp. unfold holds. rewrite Hvs, Hhp, Hlen.
  split_and!; [done..|]. destruct buf as [p|]; simpl; [|done].
  by rewrite lookup_insert_eq.
Qed.

Lemma holds_same s s' this buf cap xs :
  holds s this buf cap xs → vecs s' = vecs s → heap s' = heap s →
  holds s' this buf cap xs.
Proof. intros (Hv & Hle & Hb) Hvs Hhp. unfold holds. by rewrite Hvs, Hhp. Qed.

(** C3, amended.  When moving an element cannot throw or elements can be
    copied, [Reserve] and the growth of [EmplaceBack] build the new storage
    first and adopt it only on full success.  [Reserve]: it returns with the
    elements in a new block of the capacity asked for, or it throws with the
    vector's storage, size and elements as they were.  [EmplaceBack] on a full
    vector: it returns with the elements and the new one in a new block of the
    grown capacity, or it throws with the vector's storage and size as they
    were and its elements as they were when the new object had been built
    (which differs from before the call only if the argument was an rvalue
    reference to one of the elements, which is then moved-from). *)
Theorem growth_strong_guarantee s this buf cap xs :
  relocation_is_safe → holds s this buf cap xs → heap_fresh s →
  (∀ k, cap < k →
        match Reserve this k s with
        | Ret _ s' => holds s' this (Some (next s)) k xs
        | Throw s' => holds s' this buf cap xs ∧ heap s' = heap s
        | Undef => False
        end)
  ∧ (∀ a, length xs = cap → args_ok buf xs a →
          match EmplaceBack this a s with
          | Ret _ s' =>
              ∃ v, args_value xs a = Some v
                   ∧ holds s' this (Some (next s)) (grown cap)
                       (args_residue xs a ++ [v])
          | Throw s' =>
              (holds s' this buf cap xs ∧ heap s' = heap s)
              ∨ holds s' this buf cap (args_residue xs a)
          | Undef => False
          end).
Proof.
  intros Hsafe Hh Hf. split.
  - intros k Hk. pose proof (Reserve_spec s this buf cap xs k Hh Hf Hk) as Hspec.
    destruct (Reserve this k s) as [[] s'|s'|]; [| |done].
    + subst s'. destruct Hh as (Hv & Hle & Hb).
      split_and!; simpl; [by rewrite lookup_insert_eq|lia|].
      by rewrite lookup_insert_eq.
    + destruct Hspec as (Hvs & (h & x & _ & Hth) & Hcopy).
      pose proof (Hcopy (safe_relocation_throw h x Hsafe Hth)) as Hhp.
      split; [|done]. by eapply holds_same.
  - intros a Hfull Hok. subst cap.
    pose proof (EmplaceBack_grow_spec s this buf xs a Hh Hf Hok) as Hspec.
    destruct (EmplaceBack this a s) as [q s'|s'|]; [| |done].
    + destruct Hspec as (v & Hval & _ & _ & ->). exists v. split; [done|].
      pose proof (grown_gt (length xs)).
      split_and!; simpl.
      * rewrite lookup_insert_eq. do 2 f_equal.
        rewrite length_app, args_residue_length. simpl. lia.
      * rewrite length_app, args_residue_length. simpl. lia.
      * by rewrite lookup_insert_eq.
    + destruct Hspec as (Hvs & [[Hhp _]|[(h & x & _ & Hth) Hcopy]]).
      * left. split; [|done]. by eapply holds_same.
      * right. pose proof (Hcopy (safe_relocation_throw h x Hsafe Hth)) as Hhp.
        eapply holds_with_block; [done| |done..]. apply args_residue_length.
Qed.

(** C2. Copy assignment from a source with more elements than the
    destination has capacity either returns, and then the destination holds
    the elements of the source, in a block of its own, and the source is as
    it was; or it throws because copying an element threw, and then the
    destination has the storage, size, capacity and elements it had, the
    source is as it was and so is the whole free store. *)
Theorem copy_assign_strong_guarantee s this rhs buf cap xs rbuf rcap ys :
  holds s this buf cap xs → holds s rhs rbuf rcap ys → heap_fresh s →
  cap < length ys →
  match Vector_copy_assign this rhs s with
  | Ret _ s' =>
      holds s' this (Some (next s)) (length ys) ys
      ∧ holds s' rhs rbuf rcap ys
  | Throw s' =>
      holds s' this buf cap xs ∧ holds s' rhs rbuf rcap ys
      ∧ heap s' = heap s
      ∧ ∃ h y, y ∈ ys ∧ copy_ctor_throws h y = true
  | Undef => False
  end.
Proof.
  intros Hd Hs Hf Hlt.
  pose proof Hd as (Hdv & Hdle & Hdb). pose proof Hs as (Hsv & Hsle & Hsb).
  destruct rbuf as [pr|]; [|lia].
  assert (this ≠ rhs) as Hneq.
  { intros ->. rewrite Hdv in Hsv. simplify_eq. lia. }
  assert (pr ≠ next s) as Hprq by by eapply holds_fresh.
  assert (buf ≠ Some pr) as Hbuf.
  { intros ->. rewrite Hdb in Hsb. simplify_eq.
    apply block_of_same_length in Hsb; lia. }
  pose proof (Vector_copy_assign_grow_spec s this rhs buf cap xs pr rcap ys
                Hd Hs Hf Hlt) as Hspec.
  destruct (Vector_copy_assign this rhs s) as [[] s'|s'|]; [| |done].
  - subst s'. split.
    + split_and!; simpl; [by rewrite lookup_insert_eq|done|].
      rewrite lookup_insert_eq. unfold block_of.
      by rewrite Nat.sub_diag, app_nil_r.
    + split_and!; simpl; [by rewrite lookup_insert_ne|done|].
      rewrite lookup_insert_ne by done.
      destruct buf as [p|]; simpl; [|done].
      rewrite lookup_delete_ne; [done|]. by intros ->.
  - destruct Hspec as (Hhp & Hvs & Hth).
    split_and!; [by eapply holds_same|by eapply holds_same|done..].
Qed.

Lemma ext_value_args a v xs buf :
  ext_value a = Some v →
  args_ok buf xs a ∧ args_value xs a = Some v ∧ args_residue xs a = xs.
Proof.
  intros Hext. by destruct a as [[v0|q]|[v0|q]|[v0|]]; simplify_eq/=.
Qed.

Lemma heap_fresh_alloc s (h : gmap nat (list (option T))) b v l :
  heap_fresh s → (∀ p, is_Some (h !! p) → is_Some (heap s !! p)) →
  heap_fresh (mkState (<[next s := b]> h) (S (next s)) v l).
Proof.
  intros Hf Hsub p b' Hp. simpl in *.
  rewrite lookup_insert in Hp. case_decide; simplify_eq; [lia|].
  destruct (Hsub p) as [b'' Hb'']; [by eexists|].
  specialize (Hf p b'' Hb''). simpl in Hf. lia.
Qed.

Lemma heap_fresh_update s p b v l :
  heap_fresh s → is_Some (heap s !! p) →
  heap_fresh (mkState (<[p := b]> (heap s)) (next s) v l).
Proof.
  intros Hf [b0 Hb0] p' b' Hp. simpl in *.
  rewrite lookup_insert in Hp. case_decide; simplify_eq.
  - by apply (Hf _ _ Hb0).
  - by apply (Hf _ _ Hp).
Qed.





Lemma filter_nil_Forall {A} (P : A → Prop) `{!∀ x, Decision (P x)} (l : list A) :
  Forall (λ x, ¬ P x) l → filter P l = [].
Proof.
  induction 1 as [|x l Hx Hl IH]; [done|]. by rewrite filter_cons_False.
Qed.

Lemma filter_all_Forall {A} (P : A → Prop) `{!∀ x, Decision (P x)} (l : list A) :
  Forall P l → filter P l = l.
Proof.
  induction 1 as [|x l Hx Hl IH]; [done|]. by rewrite filter_cons_True, IH.
Qed.




Lemma ext_event a v dst :
  ext_value a = Some v →
  (∀ p, ¬ relocates_from p (args_event a dst))
  ∧ ¬ moves_tmp (args_event a dst)
  ∧ ¬ is_new (args_event a dst).
Proof.
  intros Hext.
  destruct a as [[v0|q]|[v0|q]|[v0|]]; simplify_eq/=; split_and!;
    first [by intros []|by intros ? []].
Qed.


Lemma holds_intro (h : gmap nat (list (option T))) n (vs : gmap nat Vector) l
    this p cap k ys :
  k = length ys → k ≤ cap →
  holds (mkState (<[p := block_of ys cap]> h) n
           (<[this := mkVector (mkRawMemory (Some p) cap) k]> vs) l)
    this (Some p) cap ys.
Proof.
  intros -> Hle. split_and!; simpl; [|done|]; by rewrite lookup_insert_eq.
Qed.

Lemma insert_at_length xs pos (v : T) :
  length (take pos xs ++ v :: drop pos xs) = S (length xs).
Proof. rewrite length_app. simpl. rewrite length_take, length_drop. lia. Qed.


(** C10.  Inserting, before an element and with spare capacity, a reference
    to an element of the vector itself ([Insert(pos, v[j])], by
    [const T&] or by [T&&]): the first thing that happens is the construction
    of the temporary from that element, and the vector ends up with the value
    the element had before the call at [pos]. *)
Theorem Insert_own_element s this p cap xs pos j x :
  holds s this (Some p) cap xs → length xs < cap → pos < length xs →
  xs !! j = Some x →
  (∀ h, copy_ctor_throws h x = false ∧ move_ctor_throws h x = false) →
  moves_nothrow (x :: moved_from x :: xs) →
  (∃ s' ys,
     Insert_copy this pos (RSlot (mkPtr (Some p) j)) s = Ret (mkPtr (Some p) pos) s'
     ∧ holds s' this (Some p) cap ys
     ∧ ys = take pos xs ++ x :: drop pos xs
     ∧ ys !! pos = Some x
     ∧ head (events_since s s') = Some (EvCopyCtor (Slot p j) Tmp))
  ∧ (∃ s' ys,
       Insert_move this pos (RSlot (mkPtr (Some p) j)) s = Ret (mkPtr (Some p) pos) s'
       ∧ holds s' this (Some p) cap ys
       ∧ ys = take pos (alter moved_from j xs) ++ x
                :: drop pos (alter moved_from j xs)
       ∧ ys !! pos = Some x
       ∧ head (events_since s s') = Some (EvMoveCtor (Slot p j) Tmp)).
Proof.
  intros Hh Hlt Hpos Hx Hntx Hntm. pose proof Hh as (Hv & Hle & Hb).
  pose proof (lookup_lt_Some _ _ _ Hx) as Hj.
  assert (∀ ys, length ys = length xs →
                length (take pos ys ++ x :: drop pos ys) ≤ cap
                ∧ (take pos ys ++ x :: drop pos ys) !! pos = Some x) as Hshape.
  { intros ys Hlen. split.
    - rewrite length_app. simpl. rewrite length_take, length_drop. lia.
    - rewrite lookup_app_r by (rewrite length_take; lia).
      rewrite length_take. by replace (pos - pos `min` length ys) with 0 by lia. }
  split.
  - opose proof* (Emplace_spare_eq s this p cap xs pos
                    (ByCopy (RSlot (mkPtr (Some p) j))) x) as Hrun; try done.
    { intros h. apply Hntx. }
    { simpl. intros h y Hy. apply Hntm.
      apply elem_of_cons in Hy as [->|Hy]; [left|].
      do 2 right. by eapply subseteq_drop. }
    simpl in Hrun. eexists _, _. split; [exact Hrun|].
    rewrite events_since_app. destruct (Hshape xs eq_refl) as [Hlen Hat].
    split_and!; try done.
    apply holds_intro; rewrite ?insert_at_length; [done|lia].
  - opose proof* (Emplace_spare_eq s this p cap xs pos
                    (ByMove (RSlot (mkPtr (Some p) j))) x) as Hrun; try done.
    { intros h. apply Hntx. }
    { simpl. intros h y Hy. apply Hntm.
      apply elem_of_cons in Hy as [->|Hy]; [left|].
      apply subseteq_drop, list_elem_of_lookup in Hy as [i Hi].
      rewrite list_lookup_alter in Hi. case_decide.
      - subst i. rewrite Hx in Hi. simplify_eq/=. right. left.
      - do 2 right. by eapply list_elem_of_lookup_2. }
    simpl in Hrun. eexists _, _. split; [exact Hrun|].
    rewrite events_since_app.
    destruct (Hshape (alter moved_from j xs)) as [Hlen Hat];
      [by rewrite length_alter|].
    split_and!; try done.
    apply holds_intro; rewrite ?insert_at_length, ?length_alter; [done|lia].
Qed.

Lemma events_since_same s h n v : events_since s (mkState h n v (log s)) = [].
Proof. unfold events_since. simpl. by rewrite drop_all. Qed.

(** C8, amended.  Move construction, and move assignment between two
    different vectors, hand the storage of the source to the destination:
    afterwards the destination holds what the source held, in the same block
    and with the same capacity, the source has size zero and no storage, the
    free store is as it was and no event has taken place.  Move-assigning a
    vector to itself leaves it as it is. *)
Theorem move_transfers_storage s this other buf cap xs :
  holds s other buf cap xs →
  (vecs s !! this = None →
   ∃ s', Vector_move this other s = Ret tt s'
         ∧ holds s' this buf cap xs ∧ holds s' other None 0 []
         ∧ heap s' = heap s ∧ events_since s s' = [])
  ∧ (this ≠ other → is_Some (vecs s !! this) →
     ∃ s', Vector_move_assign this other s = Ret tt s'
           ∧ holds s' this buf cap xs ∧ holds s' other None 0 []
           ∧ heap s' = heap s ∧ events_since s s' = [])
  ∧ Vector_move_assign other other s = Ret tt s.
Proof.
  intros Hh. pose proof Hh as (Hv & Hle & Hb). split_and!.
  - intros Hnew.
    assert (this ≠ other) as Hne by (intros ->; by rewrite Hv in Hnew).
    unfold Vector_move. run get_data_eq. simpl.
    run set_data_eq. run get_size_eq. run set_size_eq.
    unfold new_vec. simpl.
    rewrite !lookup_insert_ne, Hnew by done. unfold set_vecs. st_simpl.
    eexists. split; [done|]. rewrite events_since_same.
    split_and!; try done.
    + split_and!; simpl; [by rewrite lookup_insert_eq|done|done].
    + split_and!; simpl; [|done..].
      rewrite lookup_insert_ne by done. by rewrite lookup_insert_eq.
  - intros Hne [d Hd].
    unfold Vector_move_assign. rewrite bool_decide_true by done.
    run get_data_eq. run set_data_eq. run set_data_eq.
    run get_size_eq. run set_size_eq.
    erewrite set_size_eq; [|simpl; by simplify_map_eq]. st_simpl.
    eexists. split; [done|]. rewrite events_since_same.
    split_and!; try done.
    + split_and!; simpl; [by simplify_map_eq|done|done].
    + split_and!; simpl; [by simplify_map_eq|done..].
  - unfold Vector_move_assign. rewrite bool_decide_false by (by intros ?).
    rewrite bind_ret_l. run get_size_eq. run set_size_eq.
    erewrite set_size_eq; [|simpl; by rewrite lookup_insert_eq]. simpl.
    destruct s as [h n v l]. simpl in *. do 2 f_equal.
    rewrite insert_insert_eq. by apply insert_id.
Qed.

(** C9, amended.  [Erase(end())] is defined and is [PopBack]: on an empty
    vector nothing changes; on a vector that is not empty the last element is
    destroyed and the size goes down by one, the capacity and the other
    elements staying as they are. *)
Theorem Erase_end_is_PopBack s this buf cap xs :
  holds s this buf cap xs →
  Erase this (length xs) s = (PopBack this;; end_ this) s
  ∧ (xs = [] → Erase this (length xs) s = Ret (mkPtr buf 0) s)
  ∧ (∀ ys x, xs = ys ++ [x] →
             ∃ p s', buf = Some p
                     ∧ Erase this (length xs) s = Ret (mkPtr buf (length ys)) s'
                     ∧ holds s' this buf cap ys
                     ∧ events_since s s' = [EvDtor (Slot p (length ys))]).
Proof.
  intros Hh. pose proof Hh as (Hv & Hle & Hb).
  assert (Erase this (length xs) s = (PopBack this;; end_ this) s) as Heq.
  { unfold Erase. run get_size_eq. run end_eq. run assert_eq.
    by rewrite bool_decide_true. }
  split; [done|]. rewrite Heq. split.
  - intros ->. unfold PopBack. run get_size_eq. simpl. rewrite bind_ret_l.
    rewrite (end_eq s this _ Hv); [done|simpl; lia].
  - intros ys x ->. rewrite length_app in *. simpl in *.
    destruct buf as [p|]; [|lia]. exists p.
    unfold PopBack. run get_size_eq. rewrite bool_decide_true by lia.
    run get_data_eq. run RawMemory_plus_eq.
    rewrite !bind_bind. unfold ptr_sub. st_simpl.
    replace (length ys + 1 - 1) with (length ys) by lia.
    erewrite (bind_Ret (destroy_n _ _)); last first.
    { eapply (destroy_n_eq [x] s p (length ys) (Some <$> ys)
                (replicate (cap - (length ys + 1)) None)).
      - by rewrite length_fmap.
      - rewrite Hb. unfold block_of. rewrite fmap_app, <-app_assoc, length_app.
        done. }
    st_simpl. run set_size_eq.
    erewrite end_eq; [|simpl; by rewrite lookup_insert_eq|simpl; lia].
    simpl. replace (length ys + 1 - 1) with (length ys) by lia.
    eexists. split; [done|]. split; [done|]. rewrite events_since_app.
    split; [|done].
    split_and!; simpl; [by rewrite lookup_insert_eq|lia|].
    rewrite lookup_insert_eq. unfold block_of. do 2 f_equal. simpl.
    replace (cap - length ys) with (S (cap - (length ys + 1))) by lia. done.
Qed.

End Claims.

(** * The claims on concrete vectors *)


(** C3 as stated has every [Reserve] that throws leave the elements as they
    were.  [Reserve(5)] on two move-only objects, the second of which throws
    when moved: the exception propagates and the vector keeps its block, but
    the first element has been moved out of. *)
Lemma Reserve_strong_guarantee_counterexample :
  holds two_move_only 0 (Some 1) 2 [mkMoveOnly 7 false; mkMoveOnly 8 true]
  ∧ heap_fresh two_move_only
  ∧ ∃ s', Reserve 0 5 two_move_only = Throw s'
          ∧ holds s' 0 (Some 1) 2 [mkMoveOnly 0 false; mkMoveOnly 8 true]
          ∧ ¬ holds s' 0 (Some 1) 2 [mkMoveOnly 7 false; mkMoveOnly 8 true].
Proof.
  split; [|split].
  - split; [by vm_compute|split; [simpl; lia|by vm_compute]].
  - unfold heap_fresh. apply (bool_decide_unpack _). by vm_compute.
  - destruct (Reserve 0 5 two_move_only) as [|s'|] eqn:Hrun;
      [by vm_compute in Hrun| |by vm_compute in Hrun].
    exists s'. split; [done|].
    vm_compute in Hrun. injection Hrun as <-. split.
    + split; [by vm_compute|split; [simpl; lia|by vm_compute]].
    + intros (_ & _ & Hb). by vm_compute in Hb.
Qed.

Lemma growth_strong_guarantee_witness :
  relocation_is_safe (T:=Obj) ∧ holds two_objs 0 (Some 1) 2 [mkObj 1 false; mkObj 2 true]
  ∧ heap_fresh two_objs
  ∧ ∃ s', Reserve 0 5 two_objs = Throw s'
          ∧ holds s' 0 (Some 1) 2 [mkObj 1 false; mkObj 2 true]
          ∧ heap s' = heap two_objs.
Proof.
  assert (relocation_is_safe (T:=Obj)) as Hsafe by (by right).
  assert (holds two_objs 0 (Some 1) 2 [mkObj 1 false; mkObj 2 true]) as Hh.
  { split; [by vm_compute|split; [simpl; lia|by vm_compute]]. }
  assert (heap_fresh two_objs) as Hf.
  { unfold heap_fresh. apply (bool_decide_unpack _). by vm_compute. }
  split; [exact Hsafe|split; [exact Hh|split; [exact Hf|]]].
  pose proof (proj1 (growth_strong_guarantee two_objs 0 (Some 1) 2 _ Hsafe Hh Hf)
                5 ltac:(lia)) as Hres.
  destruct (Reserve 0 5 two_objs) as [|s'|] eqn:Hrun.
  - by vm_compute in Hrun.
  - exists s'. exact (conj eq_refl Hres).
  - destruct Hres.
Defined.

Lemma copy_assign_strong_guarantee_witness :
  holds small_and_large 0 (Some 0) 1 [mkObj 9 false]
  ∧ holds small_and_large 1 (Some 2) 2 [mkObj 1 false; mkObj 2 true]
  ∧ heap_fresh small_and_large
  ∧ 1 < length [mkObj 1 false; mkObj 2 true]
  ∧ ∃ s', Vector_copy_assign 0 1 small_and_large = Throw s'
          ∧ holds s' 0 (Some 0) 1 [mkObj 9 false]
          ∧ heap s' = heap small_and_large.
Proof.
  assert (holds small_and_large 0 (Some 0) 1 [mkObj 9 false]) as Hd.
  { split; [by vm_compute|split; [simpl; lia|by vm_compute]]. }
  assert (holds small_and_large 1 (Some 2) 2 [mkObj 1 false; mkObj 2 true]) as Hs.
  { split; [by vm_compute|split; [simpl; lia|by vm_compute]]. }
  assert (heap_fresh small_and_large) as Hf.
  { unfold heap_fresh. apply (bool_decide_unpack _). by vm_compute. }
  assert (1 < length [mkObj 1 false; mkObj 2 true]) as Hlt by (simpl; lia).
  split; [exact Hd|split; [exact Hs|split; [exact Hf|split; [exact Hlt|]]]].
  pose proof (copy_assign_strong_guarantee small_and_large 0 1 _ _ _ _ _ _
                Hd Hs Hf Hlt) as Hres.
  destruct (Vector_copy_assign 0 1 small_and_large) as [|s'|] eqn:Hrun.
  - by vm_compute in Hrun.
  - exists s'. destruct Hres as (Hd' & _ & Hh' & _).
    exact (conj eq_refl (conj Hd' Hh')).
  - destruct Hres.
Defined.





(** [Insert(begin(), v[2])] on [1, 2, 3] in capacity four. *)
Lemma Insert_own_element_witness :
  holds three_ints 0 (Some 2) 4 [1; 2; 3] ∧ length [1; 2; 3] < 4
  ∧ 0 < length [1; 2; 3] ∧ [1; 2; 3] !! 2 = Some 3
  ∧ ∃ s',
      Insert_copy 0 0 (RSlot (mkPtr (Some 2) 2)) three_ints
      = Ret (mkPtr (Some 2) 0) s'
      ∧ holds s' 0 (Some 2) 4 [3; 1; 2; 3].
Proof.
  assert (holds three_ints 0 (Some 2) 4 [1; 2; 3]) as Hh.
  { split; [by vm_compute|split; [simpl; lia|by vm_compute]]. }
  assert (length [1; 2; 3] < 4) as Hlt by (simpl; lia).
  assert (0 < length [1; 2; 3]) as Hpos by (simpl; lia).
  split; [exact Hh|split; [exact Hlt|split; [exact Hpos|split; [reflexivity|]]]].
  assert (∀ h : list Event,
            copy_ctor_throws h 3 = false ∧ move_ctor_throws h 3 = false) as Hntx
    by (by intros h).
  assert (moves_nothrow (3 :: moved_from 3 :: [1; 2; 3])) as Hntm
    by (by intros h x _).
  destruct (proj1 (Insert_own_element three_ints 0 2 4 [1; 2; 3] 0 2 3
                     Hh Hlt Hpos eq_refl Hntx Hntm))
    as (s' & ys & Hrun & Hh' & -> & _).
  exists s'. exact (conj Hrun Hh').
Defined.

(** C8 as stated has the source of every move assignment end with size
    zero.  [v = std::move(v)] leaves [v] with its three elements. *)
Lemma move_transfers_storage_counterexample :
  holds three_ints 0 (Some 2) 4 [1; 2; 3]
  ∧ ∃ s', Vector_move_assign 0 0 three_ints = Ret tt s'
          ∧ holds s' 0 (Some 2) 4 [1; 2; 3]
          ∧ ¬ holds s' 0 None 0 [].
Proof.
  assert (holds three_ints 0 (Some 2) 4 [1; 2; 3]) as Hh.
  { split; [by vm_compute|split; [simpl; lia|by vm_compute]]. }
  split; [exact Hh|]. exists three_ints. split; [by vm_compute|].
  split; [exact Hh|]. intros (Hv & _). by vm_compute in Hv.
Qed.

Lemma move_transfers_storage_witness :
  holds three_ints 0 (Some 2) 4 [1; 2; 3]
  ∧ vecs three_ints !! 1 = None
  ∧ ∃ s', Vector_move 1 0 three_ints = Ret tt s'
          ∧ holds s' 1 (Some 2) 4 [1; 2; 3] ∧ holds s' 0 None 0 [].
Proof.
  assert (holds three_ints 0 (Some 2) 4 [1; 2; 3]) as Hh.
  { split; [by vm_compute|split; [simpl; lia|by vm_compute]]. }
  assert (vecs three_ints !! 1 = None) as Hnew by (by vm_compute).
  split; [exact Hh|split; [exact Hnew|]].
  destruct (proj1 (move_transfers_storage three_ints 1 0 (Some 2) 4 [1; 2; 3] Hh)
              Hnew) as (s' & Hrun & Hd & Hs & _).
  exists s'. exact (conj Hrun (conj Hd Hs)).
Defined.

(** C9 as stated has [Erase(end())] leave a vector that is not empty
    unchanged.  On [1, 2, 3] it removes the [3]. *)
Lemma Erase_end_is_PopBack_counterexample :
  holds three_ints 0 (Some 2) 4 [1; 2; 3]
  ∧ ∃ q s', Erase 0 3 three_ints = Ret q s'
            ∧ holds s' 0 (Some 2) 4 [1; 2]
            ∧ ¬ holds s' 0 (Some 2) 4 [1; 2; 3].
Proof.
  assert (holds three_ints 0 (Some 2) 4 [1; 2; 3]) as Hh.
  { split; [by vm_compute|split; [simpl; lia|by vm_compute]]. }
  split; [exact Hh|].
  destruct (Erase 0 3 three_ints) as [q s'|s'|] eqn:Hrun.
  - exists q, s'. split; [done|].
    vm_compute in Hrun. injection Hrun as <- <-.
    split.
    + split; [by vm_compute|split; [simpl; lia|by vm_compute]].
    + intros (Hv & _). by vm_compute in Hv.
  - by vm_compute in Hrun.
  - by vm_compute in Hrun.
Qed.

Lemma Erase_end_is_PopBack_witness :
  holds three_ints 0 (Some 2) 4 [1; 2; 3]
  ∧ ∃ s', Erase 0 (length [1; 2; 3]) three_ints = Ret (mkPtr (Some 2) 2) s'
          ∧ holds s' 0 (Some 2) 4 [1; 2].
Proof.
  assert (holds three_ints 0 (Some 2) 4 [1; 2; 3]) as Hh.
  { split; [by vm_compute|split; [simpl; lia|by vm_compute]]. }
  split; [exact Hh|].
  destruct (proj2 (proj2 (Erase_end_is_PopBack three_ints 0 (Some 2) 4 [1; 2; 3] Hh))
              [1; 2] 3 eq_refl) as (p & s' & Hp & Hrun & Hh' & _).
  exists s'. exact (conj Hrun Hh').
Defined.

(** C1.  The vector holds two objects in capacity two; copying the second
    throws.  [Emplace(begin() + 1, ...)] relocates the first, fails to
    relocate the second, and returns as if nothing had happened: the vector
    has size three in a block of four raw slots, its old block is gone, and
    no exception reaches the caller. *)
Theorem Emplace_swallows_relocation_failure :
  holds two_objs 0 (Some 1) 2 [mkObj 1 false; mkObj 2 true]
  ∧ ∃ s', Emplace 0 1 (FromArgs (Some (mkObj 3 false))) two_objs
          = Ret (mkPtr (Some 2) 1) s'
          ∧ vecs s' !! 0 = Some (mkVector (mkRawMemory (Some 2) 4) 3)
          ∧ heap s' !! 2 = Some [None; None; None; None]
          ∧ heap s' !! 1 = None
          ∧ EvDtor (Slot 1 0) ∈ events_since two_objs s'
          ∧ EvDtor (Slot 1 1) ∉ events_since two_objs s'.
Proof.
  split.
  - split; [by vm_compute|split; [simpl; lia|by vm_compute]].
  - destruct (Emplace 0 1 (FromArgs (Some (mkObj 3 false))) two_objs)
      as [q s'|s'|] eqn:Hrun.
    + vm_compute in Hrun. injection Hrun as <- <-.
      eexists. split; [reflexivity|].
      split; [by vm_compute|]. split; [by vm_compute|]. split; [by vm_compute|].
      split.
      * apply (bool_decide_unpack _). by vm_compute.
      * apply (bool_decide_unpack _). by vm_compute.
    + by vm_compute in Hrun.
    + by vm_compute in Hrun.
Qed.

Lemma size_le_capacity_at_every_exit_witness :
  size_le_capacity (init : @State Obj)
  ∧ Forall size_le_capacity (exits sample_program init)
  ∧ length (exits sample_program init) = length sample_program.
Proof.
  assert (size_le_capacity (init : @State Obj)) as Hinit
    by apply map_Forall_empty.
  split; [exact Hinit|split].
  - exact (size_le_capacity_at_every_exit sample_program init Hinit).
  - by vm_compute.
Defined.

(** * Further properties of the methods *)

Section EraseProofs.
Context {T : Type} `{ET : ElementType T}.
Local Abbreviation M := (Exec (@State T)).
Implicit Types (s : @State T) (xs ys zs B : list T) (A post : list (option T)).

Lemma last_moved_cons b B m : last_moved (b :: B) m = last_moved B (moved_from b).
Proof.
  unfold last_moved. destruct B as [|b' B]; [done|]. rewrite last_cons_cons.
  destruct (last (b' :: B)) eqn:E; [done|]. by apply last_None in E.
Qed.

Lemma move_n_eq B s p A m post i :
  length A = i →
  heap s !! p = Some (A ++ Some m :: (Some <$> B) ++ post) →
  (∀ h x, x ∈ B → move_assign_throws h x = false) →
  move_n (mkPtr (Some p) (S i)) (mkPtr (Some p) i) (length B) s
  = Ret tt (mkState (<[p := A ++ (Some <$> B) ++ Some (last_moved B m) :: post]>
                       (heap s))
              (next s) (vecs s) (log s ++ unshift_events p i (length B))).
Proof.
  revert s A m i. induction B as [|b B IH]; intros s A m i Hi Hp Hnt; csimpl in *.
  - unfold ret, unshift_events, last_moved. simpl.
    rewrite app_nil_r, insert_id by done. by destruct s.
  - erewrite bind_Ret; last first.
    { eapply (move_assign_eq_same s p (S i) i _ b m); [done| | |].
      - rewrite <-Hi. rewrite (lookup_app_r A) by lia.
        by replace (S (length A) - length A) with 1 by lia.
      - rewrite <-Hi. apply block_middle_lookup.
      - apply Hnt. left. }
    unfold ptr_add. st_simpl. rewrite !Nat.add_1_r.
    assert (<[S i := Some (moved_from b)]>
              (<[i := Some b]> (A ++ Some m :: Some b :: (Some <$> B) ++ post))
            = (A ++ [Some b]) ++ Some (moved_from b) :: (Some <$> B) ++ post)
      as Hins.
    { rewrite <-Hi, block_middle_insert.
      replace (A ++ Some b :: Some b :: (Some <$> B) ++ post)
        with ((A ++ [Some b]) ++ Some b :: (Some <$> B) ++ post)
        by (by rewrite <-app_assoc).
      replace (S (length A)) with (length (A ++ [Some b]))
        by (rewrite length_app; simpl; lia).
      by rewrite block_middle_insert. }
    rewrite Hins.
    erewrite (IH _ (A ++ [Some b]) (moved_from b) (S i)); simpl.
    + rewrite last_moved_cons. apply Ret_state_eq; simpl; try done.
      * rewrite insert_insert_eq. by rewrite <-!app_assoc.
      * rewrite <-app_assoc. done.
    + rewrite length_app. simpl. lia.
    + by rewrite lookup_insert_eq.
    + intros h x Hx. apply Hnt. by right.
Qed.

(** [PopBack] on a vector that is not empty. *)
Lemma PopBack_eq s this p cap ys x :
  holds s this (Some p) cap (ys ++ [x]) →
  PopBack this s
  = Ret tt (mkState (<[p := block_of ys cap]> (heap s)) (next s)
              (<[this := mkVector (mkRawMemory (Some p) cap) (length ys)]> (vecs s))
              (log s ++ [EvDtor (Slot p (length ys))])).
Proof.
  intros (Hv & Hle & Hb). rewrite length_app in *. simpl in *.
  unfold PopBack. run get_size_eq. rewrite bool_decide_true by lia.
  run get_data_eq. run RawMemory_plus_eq.
  rewrite ?bind_bind. unfold ptr_sub. st_simpl.
  replace (length ys + 1 - 1) with (length ys) by lia.
  erewrite (bind_Ret (destroy_n _ _)); last first.
  { eapply (destroy_n_eq [x] s p (length ys) (Some <$> ys)
              (replicate (cap - (length ys + 1)) None)).
    - by rewrite length_fmap.
    - rewrite Hb. unfold block_of. rewrite fmap_app, <-app_assoc, length_app.
      done. }
  st_simpl. erewrite set_size_eq; [|done]. simpl.
  apply Ret_state_eq; simpl; try done.
  f_equal. unfold block_of. f_equal.
  replace (cap - length ys) with (S (cap - (length ys + 1))) by lia. done.
Qed.

Lemma PopBack_empty s this buf cap :
  holds s this buf cap [] → PopBack this s = Ret tt s.
Proof.
  intros (Hv & _). unfold PopBack. run get_size_eq. done.
Qed.

Lemma Erase_eq s this p cap xs pos x :
  holds s this (Some p) cap xs → xs !! pos = Some x →
  (∀ h y, y ∈ drop (S pos) xs → move_assign_throws h y = false) →
  Erase this pos s
  = Ret (mkPtr (Some p) pos)
      (mkState (<[p := block_of (take pos xs ++ drop (S pos) xs) cap]> (heap s))
         (next s)
         (<[this := mkVector (mkRawMemory (Some p) cap) (length xs - 1)]> (vecs s))
         (log s ++ erase_events p pos (length xs))).
Proof.
  intros Hh Hx Hnt. pose proof Hh as (Hv & Hle & Hb).
  pose proof (lookup_lt_Some _ _ _ Hx) as Hpos.
  set (A0 := take pos xs). set (B := drop (S pos) xs) in *.
  assert (xs = A0 ++ x :: B) as Hxs by (unfold A0, B; by rewrite take_drop_middle).
  assert (length A0 = pos) as HA0 by (unfold A0; rewrite length_take; lia).
  assert (length xs = pos + S (length B)) as Hn.
  { rewrite Hxs at 1. rewrite length_app. simpl. lia. }
  set (R := replicate (cap - length xs) (@None T)).
  assert (block_of xs cap = (Some <$> A0) ++ Some x :: (Some <$> B) ++ R) as Hblock.
  { unfold block_of. fold R. rewrite Hxs at 1.
    rewrite fmap_app, <-app_assoc. done. }
  unfold Erase. run get_size_eq. run end_eq. run assert_eq.
  rewrite bool_decide_false by lia.
  run get_data_eq. run RawMemory_plus_eq. run end_eq. run RawMemory_plus_eq.
  unfold move_range, ptr_add. st_simpl.
  replace (length xs - (pos + 1)) with (length B) by lia.
  replace (pos + 1) with (S pos) by lia.
  erewrite bind_Ret; last first.
  { eapply (move_n_eq B s p (Some <$> A0) x R pos).
    - by rewrite length_fmap.
    - by rewrite Hb, Hblock.
    - done. }
  erewrite bind_Ret; last first.
  { eapply (PopBack_eq _ this p cap (A0 ++ B) (last_moved B x)).
    split_and!; simpl.
    - rewrite Hv. do 2 f_equal. rewrite !length_app. simpl. lia.
    - rewrite !length_app. simpl. lia.
    - rewrite lookup_insert_eq. f_equal. unfold block_of.
      rewrite !fmap_app, <-!app_assoc. simpl. do 3 f_equal.
      unfold R. f_equal. rewrite !length_app. simpl. lia. }
  st_simpl. run get_data_eq.
  erewrite RawMemory_plus_eq; [|simpl; lia].
  apply Ret_state_eq; simpl; try done.
  - by rewrite insert_insert_eq.
  - do 3 f_equal. rewrite length_app. lia.
  - unfold erase_events. rewrite <-app_assoc.
    replace (length xs - 1 - pos) with (length B) by lia.
    replace (length (A0 ++ B)) with (length xs - 1)
      by (rewrite length_app; lia).
    done.
Qed.

(** X1. [Erase(begin() + pos)] with [pos < size], when no move assignment
    throws: the element at [pos] is gone and the others keep their order; the
    vector keeps its block and its capacity and nothing is allocated; the
    [size - pos - 1] elements behind [pos] are each move-assigned one slot
    down, and then one object, the one in the last slot, is destroyed; the
    iterator returned is [begin() + pos]. *)
Theorem Erase_removes_one s this p cap xs pos :
  holds s this (Some p) cap xs → pos < length xs →
  (∀ h y, y ∈ drop (S pos) xs → move_assign_throws h y = false) →
  ∃ s',
    Erase this pos s = Ret (mkPtr (Some p) pos) s'
    ∧ holds s' this (Some p) cap (take pos xs ++ drop (S pos) xs)
    ∧ next s' = next s
    ∧ (∀ q, q ≠ p → heap s' !! q = heap s !! q)
    ∧ events_since s s' = erase_events p pos (length xs)
    ∧ length (filter (λ e, relocates_from p e) (events_since s s'))
      = length xs - 1 - pos.
Proof.
  intros Hh Hpos Hnt. pose proof Hh as (Hv & Hle & Hb).
  destruct (lookup_lt_is_Some_2 xs pos Hpos) as [x Hx].
  eexists. split; [by eapply Erase_eq|]. rewrite events_since_app. simpl.
  assert (length (take pos xs ++ drop (S pos) xs) = length xs - 1) as Hlen.
  { rewrite length_app, length_take, length_drop. lia. }
  split_and!; [|done| |done|].
  - rewrite <-Hlen. apply holds_intro; [done|lia].
  - intros q Hq. by rewrite lookup_insert_ne.
  - unfold erase_events, unshift_events. rewrite filter_app, length_app.
    rewrite filter_cons_False by (simpl; by intros []). simpl.
    rewrite Nat.add_0_r.
    rewrite filter_all_Forall; [by rewrite length_fmap, length_seq|].
    apply Forall_fmap, Forall_forall. intros k _. simpl.
    by rewrite bool_decide_true.
Qed.

End EraseProofs.

Section ResizeProofs.
Context {T : Type} `{ET : ElementType T}.
Local Abbreviation M := (Exec (@State T)).
Implicit Types (s : @State T) (xs ys zs B : list T) (A post : list (option T)).




Lemma new_vec_eq s this v :
  vecs s !! this = None →
  new_vec this v s = Ret tt (mkState (heap s) (next s) (<[this := v]> (vecs s)) (log s)).
Proof. intros H. unfold new_vec. by rewrite H. Qed.






End ResizeProofs.

Section WholeVector.
Context {T : Type} `{ET : ElementType T}.
Local Abbreviation M := (Exec (@State T)).
Implicit Types (s : @State T) (xs ys zs B : list T) (A post : list (option T)).

Lemma Swap_eq s this other va vb :
  vecs s !! this = Some va → vecs s !! other = Some vb → this ≠ other →
  Swap this other s
  = Ret tt (mkState (heap s) (next s) (<[other := va]> (<[this := vb]> (vecs s)))
              (log s)).
Proof.
  intros Ha Hb Hne. unfold Swap.
  run get_data_eq. run get_data_eq. run set_data_eq.
  erewrite bind_Ret; last first.
  { eapply set_data_eq. simpl. by rewrite lookup_insert_ne. }
  st_simpl.
  erewrite bind_Ret; last first.
  { eapply get_size_eq. simpl. rewrite lookup_insert_ne by done.
    by rewrite lookup_insert_eq. }
  erewrite bind_Ret; last first.
  { eapply get_size_eq. simpl. by rewrite lookup_insert_eq. }
  erewrite bind_Ret; last first.
  { eapply set_size_eq. simpl. rewrite lookup_insert_ne by done.
    by rewrite lookup_insert_eq. }
  st_simpl.
  erewrite set_size_eq; last first.
  { simpl. rewrite lookup_insert_ne by done. by rewrite lookup_insert_eq. }
  destruct va as [da na], vb as [db nb]. simpl.
  apply Ret_state_eq; try done.
  same_map.
Qed.

Lemma Swap_self s this v : vecs s !! this = Some v → Swap this this s = Ret tt s.
Proof.
  intros Hv. unfold Swap.
  run get_data_eq. run get_data_eq. run set_data_eq.
  erewrite bind_Ret; last first.
  { eapply set_data_eq. simpl. by rewrite lookup_insert_eq. }
  st_simpl.
  erewrite bind_Ret; last first.
  { eapply get_size_eq. simpl. by rewrite lookup_insert_eq. }
  erewrite bind_Ret; last first.
  { eapply get_size_eq. simpl. by rewrite lookup_insert_eq. }
  erewrite bind_Ret; last first.
  { eapply set_size_eq. simpl. by rewrite lookup_insert_eq. }
  st_simpl.
  erewrite set_size_eq; [|simpl; by rewrite lookup_insert_eq].
  destruct s as [h n vs l], v as [d k]. simpl in *. do 2 f_equal.
  rewrite !insert_insert_eq. by apply insert_id.
Qed.

(** X4. [a.Swap(b)] exchanges what two vectors hold, storage and capacity
    included, without touching an element or the free store; swapping again
    gives back the state before; and [a.Swap(a)] changes nothing. *)
Theorem Swap_exchanges s this other ba ca xs bb cb ys :
  holds s this ba ca xs → holds s other bb cb ys →
  (this ≠ other →
   ∃ s', Swap this other s = Ret tt s'
         ∧ holds s' this bb cb ys ∧ holds s' other ba ca xs
         ∧ heap s' = heap s ∧ next s' = next s ∧ events_since s s' = []
         ∧ Swap this other s' = Ret tt s)
  ∧ Swap this this s = Ret tt s.
Proof.
  intros (Ha & Hla & Hba) (Hb & Hlb & Hbb). split; [|by eapply Swap_self].
  intros Hne. eexists. split; [by eapply Swap_eq|].
  split.
  { split_and!; simpl; [|done..].
    rewrite lookup_insert_ne by done. by rewrite lookup_insert_eq. }
  split.
  { split_and!; simpl; [|done..]. by rewrite lookup_insert_eq. }
  split; [done|]. split; [done|]. split.
  { unfold events_since. simpl. by rewrite drop_all. }
  - erewrite Swap_eq; simpl; [| |by rewrite lookup_insert_eq|done]; last first.
    { rewrite lookup_insert_ne by done. by rewrite lookup_insert_eq. }
    destruct s as [h n vs l]. simpl in *. do 2 f_equal.
    same_map.
Qed.

Lemma Vector_at_eq s this buf cap xs index x :
  holds s this buf cap xs → xs !! index = Some x →
  Vector_at this index s = Ret x s.
Proof.
  intros (Hv & Hle & Hb) Hx. unfold Vector_at. run get_size_eq.
  pose proof (lookup_lt_Some _ _ _ Hx) as Hlt.
  run assert_eq. run get_data_eq. run RawMemory_at_eq.
  destruct buf as [p|]; [|lia].
  eapply read_slot_eq; [done|]. unfold block_of.
  rewrite lookup_app_l by (by rewrite length_fmap).
  by rewrite list_lookup_fmap, Hx.
Qed.

(** X5. [v[index]]: for [index < size] it is the element at [index] and
    nothing changes; for [index >= size] the [assert] fails. *)
Theorem Vector_at_bounds s this buf cap xs index :
  holds s this buf cap xs →
  match xs !! index with
  | Some x => Vector_at this index s = Ret x s
  | None => Vector_at this index s = Undef
  end.
Proof.
  intros Hh. destruct (xs !! index) as [x|] eqn:Hx.
  - by eapply Vector_at_eq.
  - destruct Hh as (Hv & Hle & Hb). unfold Vector_at. run get_size_eq.
    apply lookup_ge_None in Hx. by rewrite bool_decide_false by lia.
Qed.

Lemma Vector_dtor_eq s this buf cap xs :
  holds s this buf cap xs →
  Vector_dtor this s
  = Ret tt (mkState (released buf (heap s)) (next s) (delete this (vecs s))
              (log s ++ teardown_events buf (length xs))).
Proof.
  intros (Hv & Hle & Hb). unfold Vector_dtor. run get_vec_eq.
  erewrite bind_Ret; last first.
  { eapply Vector_dtor_local_eq; [done|]. destruct buf; [done|].
    subst cap. destruct xs; [done|simpl in *; lia]. }
  done.
Qed.

(** X6. [~Vector()]: every element is destroyed, once and in index order,
    then the block is released, once; other blocks and vectors are not
    touched.  A vector without storage is destroyed without an event. *)
Theorem Vector_dtor_releases s this buf cap xs :
  holds s this buf cap xs →
  ∃ s',
    Vector_dtor this s = Ret tt s'
    ∧ vecs s' = delete this (vecs s)
    ∧ heap s' = released buf (heap s)
    ∧ events_since s s'
      = match buf with
        | Some p => dtor_events p 0 (length xs) ++ [EvDelete p]
        | None => []
        end.
Proof.
  intros Hh. eexists. split; [by eapply Vector_dtor_eq|].
  rewrite events_since_app. done.
Qed.

(** [Vector(const Vector&)] *)
Lemma Vector_copy_ctor_empty s rhs rbuf rcap :
  holds s rhs rbuf rcap [] →
  Vector_copy_ctor rhs s = Ret (mkVector (mkRawMemory None 0) 0) s.
Proof.
  intros (Hv & _). unfold Vector_copy_ctor. run get_vec_eq.
  unfold RawMemory_ctor, Allocate. rewrite decide_False by (by intros ?).
  rewrite bind_bind, !bind_ret_l.
  erewrite bind_Ret; [|by eapply on_unwind_Ret]. done.
Qed.


(** X8. A copy that is destroyed leaves no trace in the free store:
    [{ Vector copy(v); }] gives back every slot it took, whether or not
    copying an element throws. *)
Theorem copy_then_destroy_no_leak s this other rbuf rcap ys :
  holds s other rbuf rcap ys → heap_fresh s → vecs s !! this = None →
  match (Vector_copy this other;; Vector_dtor this) s with
  | Ret _ s' | Throw s' => heap s' = heap s ∧ vecs s' = vecs s
  | Undef => False
  end.
Proof.
  intros Hh Hf Hnew. pose proof Hh as (Hv & Hle & Hb).
  assert (this ≠ other) as Hne by (intros ->; congruence).
  unfold Vector_copy. rewrite bind_bind.
  destruct (decide (ys = [])) as [->|Hys].
  - erewrite bind_Ret; [|by eapply Vector_copy_ctor_empty].
    erewrite bind_Ret; [|by eapply new_vec_eq].
    erewrite (Vector_dtor_eq _ this None 0 []); last first.
    { split_and!; simpl; [by rewrite lookup_insert_eq|done..]. }
    simpl. split; [done|]. rewrite delete_insert_eq. by apply delete_id.
  - destruct rbuf as [pr|]; [|destruct ys; [done|simpl in *; lia]].
    opose proof* (Vector_copy_ctor_spec s other pr rcap ys) as Hspec; [done..|].
    destruct (Vector_copy_ctor other s) as [v s1|s1|] eqn:Hrun; [| |done].
    + destruct Hspec as [-> ->]. erewrite bind_Ret; [|done].
      erewrite bind_Ret; [|by eapply new_vec_eq].
      erewrite (Vector_dtor_eq _ this (Some (next s)) (length ys) ys); last first.
      { split_and!; simpl; [by rewrite lookup_insert_eq|done|].
        rewrite lookup_insert_eq. f_equal. unfold block_of.
        by rewrite Nat.sub_diag, app_nil_r. }
      simpl. rewrite !delete_insert_eq.
      split; apply delete_id; [by apply heap_fresh_next|done].
    + erewrite bind_Throw; [|done]. by destruct Hspec as (? & ? & _).
Qed.

(** X9. Move assignment does not release what the destination held: after
    [a = std::move(b)] the block [a] had is still allocated with its elements
    alive in it, no destructor and no [operator delete] has run, and neither
    [a] nor [b] refers to it any more. *)
Theorem move_assign_abandons_storage s this other p cap xs buf' cap' ys :
  this ≠ other → buf' ≠ Some p →
  holds s this (Some p) cap xs → holds s other buf' cap' ys →
  ∃ s',
    Vector_move_assign this other s = Ret tt s'
    ∧ heap s' !! p = Some (block_of xs cap)
    ∧ events_since s s' = []
    ∧ (∃ va, vecs s' !! this = Some va ∧ buffer_ (data_ va) ≠ Some p)
    ∧ (∃ vb, vecs s' !! other = Some vb ∧ buffer_ (data_ vb) ≠ Some p).
Proof.
  intros Hne Hbuf (Ha & Hla & Hba) (Hb & Hlb & Hbb).
  unfold Vector_move_assign. rewrite bool_decide_true by done.
  run get_data_eq. run set_data_eq.
  erewrite bind_Ret; last first.
  { eapply set_data_eq. simpl. by rewrite lookup_insert_ne. }
  st_simpl.
  erewrite bind_Ret; last first.
  { eapply get_size_eq. simpl. rewrite lookup_insert_ne by done.
    by rewrite lookup_insert_eq. }
  erewrite bind_Ret; last first.
  { eapply set_size_eq. simpl. rewrite lookup_insert_ne by done.
    by rewrite lookup_insert_eq. }
  st_simpl.
  erewrite set_size_eq; [|simpl; rewrite lookup_insert_ne by done;
                           by rewrite lookup_insert_eq].
  eexists. split; [done|]. simpl. split_and!; [done| | |].
  - unfold events_since. simpl. by rewrite drop_all.
  - eexists. rewrite lookup_insert_eq. split; [done|]. done.
  - eexists. rewrite lookup_insert_ne by done. rewrite lookup_insert_eq.
    split; [done|]. done.
Qed.

End WholeVector.

Section Appends.
Context {T : Type} `{ET : ElementType T}.
Local Abbreviation M := (Exec (@State T)).
Implicit Types (s : @State T) (xs ys zs vs B : list T) (a : @Args T).

(** One append, whatever the argument refers to, when nothing throws. *)
Lemma EmplaceBack_any s this buf cap xs a v :
  holds s this buf cap xs → heap_fresh s →
  args_ok buf xs a → args_value xs a = Some v →
  (∀ h, args_throws h a v = false) →
  (∀ h x, x ∈ args_residue xs a → relocation_throws h x = false) →
  ∃ s' buf',
    EmplaceBack this a s = Ret (mkPtr buf' (length xs)) s'
    ∧ holds s' this buf'
        (if decide (length xs = cap) then grown cap else cap)
        (args_residue xs a ++ [v])
    ∧ (length xs < cap → buf' = buf ∧ next s' = next s)
    ∧ heap_fresh s'.
Proof.
  intros Hh Hf Hok Hval Hnta Hntr. pose proof Hh as (Hv & Hle & Hb).
  pose proof (args_residue_length xs a) as Hlen.
  case_decide as Hfull.
  - subst cap.
    pose proof (EmplaceBack_grow_spec s this buf xs a Hh Hf Hok) as Hspec.
    destruct (EmplaceBack this a s) as [q s'|s'|]; [| |done].
    + destruct Hspec as (v' & Hval' & _ & -> & ->).
      assert (v' = v) as -> by congruence.
      pose proof (grown_gt (length xs)).
      eexists _, (Some (next s)). split; [done|]. split; [|split].
      * split_and!; simpl.
        -- rewrite lookup_insert_eq. do 2 f_equal. rewrite length_app. simpl. lia.
        -- rewrite length_app. simpl. lia.
        -- by rewrite lookup_insert_eq.
      * intros ?. lia.
      * apply heap_fresh_alloc; [done|]. intros p [b Hp].
        destruct buf as [p0|]; simpl in Hp; [|by eexists].
        rewrite lookup_delete in Hp. case_decide; [done|by eexists].
    + destruct Hspec as (_ & [[_ Hth]|[(h & x & Hx & Hth) _]]).
      * destruct (Hth v Hval) as [h Hh']. by rewrite Hnta in Hh'.
      * by rewrite Hntr in Hth.
  - destruct buf as [p|]; [|lia].
    opose proof* (EmplaceBack_spare_spec s this p cap xs a) as Hspec;
      [done|lia|done|].
    destruct (EmplaceBack this a s) as [q s'|s'|]; [| |done].
    + destruct Hspec as (v' & Hval' & _ & -> & ->).
      assert (v' = v) as -> by congruence.
      eexists _, (Some p). split; [done|]. split; [|split].
      * split_and!; simpl.
        -- rewrite lookup_insert_eq. do 2 f_equal. rewrite length_app. simpl. lia.
        -- rewrite length_app. simpl. lia.
        -- by rewrite lookup_insert_eq.
      * done.
      * apply heap_fresh_update; [done|by eexists].
    + destruct Hspec as [_ Hth]. specialize (Hth v Hval). by rewrite Hnta in Hth.
Qed.

(** X10. [v.PushBack(v[j])], when nothing throws: the vector ends with a copy
    of the value the element had, also when the append has to reallocate
    (the new object is built in the new block before the elements leave the
    old one).  [v.PushBack(std::move(v[j]))] appends the value and leaves
    element [j] moved-from. *)
Theorem PushBack_own_element s this p cap xs j x :
  holds s this (Some p) cap xs → heap_fresh s → xs !! j = Some x →
  (∀ h, copy_ctor_throws h x = false ∧ move_ctor_throws h x = false) →
  (∀ h y, y ∈ moved_from x :: xs → relocation_throws h y = false) →
  (∃ s' buf',
     PushBack_copy this (RSlot (mkPtr (Some p) j)) s = Ret tt s'
     ∧ holds s' this buf' (if decide (length xs = cap) then grown cap else cap)
         (xs ++ [x]))
  ∧ (∃ s' buf',
       PushBack_move this (RSlot (mkPtr (Some p) j)) s = Ret tt s'
       ∧ holds s' this buf' (if decide (length xs = cap) then grown cap else cap)
           (alter moved_from j xs ++ [x])).
Proof.
  intros Hh Hf Hx Hntx Hntr. pose proof (lookup_lt_Some _ _ _ Hx) as Hj. split.
  - opose proof* (EmplaceBack_any s this (Some p) cap xs
                    (ByCopy (RSlot (mkPtr (Some p) j))) x)
      as (s' & buf' & Hrun & Hh' & _); try done.
    + intros h. apply Hntx.
    + intros h y Hy. apply Hntr. by right.
    + exists s', buf'. unfold PushBack_copy. by erewrite bind_Ret.
  - opose proof* (EmplaceBack_any s this (Some p) cap xs
                    (ByMove (RSlot (mkPtr (Some p) j))) x)
      as (s' & buf' & Hrun & Hh' & _); try done.
    + intros h. apply Hntx.
    + simpl. intros h y Hy. apply Hntr.
      apply list_elem_of_lookup in Hy as [i Hi].
      rewrite list_lookup_alter in Hi. case_decide; simplify_eq/=.
      * rewrite Hx in Hi. simplify_eq/=. left.
      * right. by eapply list_elem_of_lookup_2.
    + exists s', buf'. unfold PushBack_move. by erewrite bind_Ret.
Qed.



(** X12. An append followed by [PopBack] gives back the elements the vector
    had, in order; the capacity is the one the append left. *)
Theorem PushBack_then_PopBack s this buf cap xs a v :
  holds s this buf cap xs → heap_fresh s → ext_value a = Some v →
  (∀ h, args_throws h a v = false) →
  (∀ h x, x ∈ xs → relocation_throws h x = false) →
  ∃ s' buf',
    (EmplaceBack this a;; PopBack this) s = Ret tt s'
    ∧ holds s' this buf' (if decide (length xs = cap) then grown cap else cap) xs.
Proof.
  intros Hh Hf Hext Hnta Hntr.
  destruct (ext_value_args a v xs buf Hext) as (Hok & Hval & Hres).
  opose proof* (EmplaceBack_any s this buf cap xs a v)
    as (s1 & buf' & Hrun & Hh1 & _); try done.
  { by rewrite Hres. }
  rewrite Hres in Hh1.
  destruct buf' as [p'|]; last first.
  { destruct Hh1 as (_ & Hle & Hz). rewrite Hz, length_app in Hle.
    simpl in Hle. lia. }
  eexists _, (Some p'). erewrite bind_Ret; [|done].
  split; [by eapply PopBack_eq|].
  destruct Hh1 as (_ & Hle & _). rewrite length_app in Hle. simpl in Hle.
  apply holds_intro; [done|lia].
Qed.

(** X13. An append into spare capacity either adds the new element behind
    the others, in the block the vector has and without allocating, or the
    construction of the new element throws and the whole state, vector and
    free store, is exactly what it was before the call.  This holds
    whatever the arguments refer to, elements of the vector included. *)
Theorem EmplaceBack_spare_all_or_nothing s this p cap xs a :
  holds s this (Some p) cap xs → length xs < cap → args_ok (Some p) xs a →
  match EmplaceBack this a s with
  | Ret q s' =>
      ∃ v, args_value xs a = Some v
           ∧ q = mkPtr (Some p) (length xs)
           ∧ holds s' this (Some p) cap (args_residue xs a ++ [v])
           ∧ next s' = next s
           ∧ events_since s s' = [args_event a (Slot p (length xs))]
  | Throw s' => s' = s
  | Undef => False
  end.
Proof.
  intros Hh Hlt Hok.
  pose proof (EmplaceBack_spare_spec s this p cap xs a Hh Hlt Hok) as Hspec.
  destruct (EmplaceBack this a s) as [q s'|s'|]; [| |done].
  - destruct Hspec as (v & Hval & _ & -> & ->). exists v.
    split; [done|]. split; [done|]. rewrite events_since_app.
    split; [|done].
    apply holds_intro; [|lia].
    rewrite length_app, args_residue_length. simpl. lia.
  - by destruct Hspec as [-> _].
Qed.

End Appends.

Section EmplaceGrowing.
Context {T : Type} `{ET : ElementType T}.
Local Abbreviation M := (Exec (@State T)).
Implicit Types (s : @State T) (xs ys zs vs B : list T) (a : @Args T).

Lemma Emplace_grow_eq s this p xs pos a v :
  holds s this (Some p) (length xs) xs → heap_fresh s → pos < length xs →
  args_ok (Some p) xs a → args_value xs a = Some v →
  (∀ h, args_throws h a v = false) →
  (∀ h y, y ∈ args_residue xs a → relocation_throws h y = false) →
  Emplace this pos a s
  = Ret (mkPtr (Some (next s)) pos)
      (mkState
         (<[next s := block_of (take pos (args_residue xs a) ++ v
                                  :: drop pos (args_residue xs a))
                        (grown (length xs))]> (delete p (heap s)))
         (S (next s))
         (<[this := mkVector (mkRawMemory (Some (next s)) (grown (length xs)))
                      (S (length xs))]> (vecs s))
         (log s ++ emplace_grow_events a p (next s) pos (length xs))).
Proof.
  intros Hh Hf Hpos Hok Hval Hnta Hntr. pose proof Hh as (Hv & Hle & Hb).
  pose proof (heap_fresh_next s Hf) as Hq.
  pose proof (grown_gt (length xs)) as Hgr.
  assert (p ≠ next s) as Hpq by (intros ->; by rewrite Hq in Hb).
  set (xs' := args_residue xs a) in *.
  assert (length xs' = length xs) as Hlen by apply args_residue_length.
  set (A0 := take pos xs'). set (B0 := drop pos xs').
  assert (xs' = A0 ++ B0) as Hxs' by (unfold A0, B0; by rewrite take_drop).
  assert (length A0 = pos) as HA0 by (unfold A0; rewrite length_take; lia).
  assert (length B0 = length xs - pos) as HB0
    by (unfold B0; rewrite length_drop; lia).
  unfold Emplace. run get_size_eq. run end_eq. run assert_eq.
  rewrite bool_decide_false by lia. run Capacity_eq.
  rewrite bool_decide_false by (intros ?; done). fold (grown (length xs)).
  rewrite !bind_bind.
  erewrite (bind_Ret (RawMemory_ctor _)); [|apply RawMemory_ctor_eq; lia].
  set (q := next s) in *. set (k := grown (length xs)) in *.
  set (s1 := mkState (<[q := replicate k None]> (heap s)) (S q) (vecs s)
               (log s ++ [EvNew q k])).
  opose proof* (construct_value_spec s1 (Some p) (length xs) xs a (Slot q pos))
    as Hspec; [done| |done|].
  { simpl. by rewrite lookup_insert_ne. }
  destruct (construct_value _ _ _) as [v' s2|s2|] eqn:Hrun; [| |done]; last first.
  { destruct Hspec as [_ Hth]. specialize (Hth v Hval). by rewrite Hnta in Hth. }
  destruct Hspec as (Hval' & _ & ->). assert (v' = v) as -> by congruence.
  fold xs' in Hrun.
  set (R := replicate (k - S pos) (@None T)).
  set (s3 := mkState
               (<[q := replicate pos None ++ Some v :: R]>
                  (<[p := block_of xs' (length xs)]> (heap s1)))
               (S q) (vecs s) (log s1 ++ [args_event a (Slot q pos)])).
  assert (placement_new (mkPtr (Some q) pos) a s1 = Ret tt s3) as Hnew.
  { eapply placement_new_Ret; [exact Hrun|].
    erewrite (write_slot_eq _ q pos (replicate k None)); simpl.
    - unfold s3, R. by rewrite raw_insert by lia.
    - rewrite lookup_insert_ne by done. by rewrite lookup_insert_eq.
    - rewrite length_replicate. lia. }
  (* the elements before [pos] *)
  opose proof* (CopyOrMove_eq A0 s3 p q 0 0 [] (Some <$> B0) [] (Some v :: R))
    as Hcm1; simpl; try done.
  { rewrite lookup_insert_ne by done. rewrite lookup_insert_eq.
    unfold block_of. rewrite Hlen, Nat.sub_diag, app_nil_r.
    by rewrite Hxs', fmap_app. }
  { rewrite lookup_insert_eq. by rewrite HA0. }
  { intros h y Hy. apply Hntr. fold xs'. rewrite Hxs', elem_of_app. by left. }
  rewrite HA0 in Hcm1. simpl in Hcm1.
  (* the elements from [pos] on *)
  set (R' := replicate (k - S (length xs)) (@None T)).
  assert (Some v :: R = [Some v] ++ replicate (length B0) None ++ R') as HR.
  { unfold R, R'. simpl. f_equal. rewrite <-replicate_add. f_equal. lia. }
  match type of Hcm1 with _ = Ret tt ?st => set (s4 := st) in * end.
  opose proof* (CopyOrMove_eq B0 s4 p q pos (S pos) (replicate pos None) []
                  ((Some <$> A0) ++ [Some v]) R') as Hcm2; simpl; try done.
  { by rewrite length_replicate. }
  { rewrite length_app, length_fmap. simpl. lia. }
  { rewrite lookup_insert_eq. by rewrite app_nil_r. }
  { rewrite lookup_insert_ne by done. rewrite lookup_insert_eq.
    rewrite HR. by rewrite <-!app_assoc. }
  { intros h y Hy. apply Hntr. fold xs'. rewrite Hxs', elem_of_app. by right. }
  rewrite HB0 in Hcm2. simpl in Hcm2.
  erewrite bind_Ret; last first.
  { erewrite bind_Ret; last first.
    { eapply on_unwind_Ret.
      run RawMemory_plus_eq. erewrite bind_Ret; [|exact Hnew].
      run get_data_eq.
      erewrite bind_Ret; [|eapply try_catch_Ret; exact Hcm1].
      eapply try_catch_Ret.
      run RawMemory_plus_eq. run RawMemory_plus_eq.
      replace (pos + 1) with (S pos) by lia. exact Hcm2. }
    st_simpl. run get_data_eq. run set_data_eq.
    eapply RawMemory_dtor_eq. simpl. by rewrite lookup_insert_eq. }
  st_simpl. run get_size_eq. run set_size_eq. run get_data_eq.
  erewrite RawMemory_plus_eq; [|simpl; lia].
  apply Ret_state_eq; simpl; try done.
  - assert (((Some <$> A0) ++ [Some v]) ++ (Some <$> B0) ++ R'
            = block_of (A0 ++ v :: B0) k) as ->.
    { unfold block_of, R'. rewrite fmap_app, <-!app_assoc. simpl.
      do 3 f_equal. rewrite length_app. simpl. f_equal. lia. }
    same_map.
  - by rewrite insert_insert_eq.
  - unfold emplace_grow_events. rewrite <-!app_assoc. simpl. done.
Qed.

Lemma times_relocated_relocation_at p q i0 j0 n i :
  times_relocated p i (relocation_events p q i0 j0 n)
  = if decide (i0 ≤ i < i0 + n) then 1 else 0.
Proof.
  unfold times_relocated, relocation_events, move_events, copy_events.
  assert (∀ (f : nat → Event),
            (∀ k, source_of (f k) = Some (Slot p (i0 + k))) →
            length (filter (λ e, source_of e = Some (Slot p i)) (f <$> seq 0 n))
            = if decide (i0 ≤ i < i0 + n) then 1 else 0) as Hgen.
  { intros f Hf. induction n as [|n IH].
    - simpl. by rewrite decide_False by lia.
    - rewrite seq_S, fmap_app, filter_app, length_app, IH. simpl.
      destruct (decide (i = i0 + n)) as [->|Hne].
      + rewrite filter_cons_True by (by rewrite Hf). simpl.
        rewrite decide_False by lia. by rewrite decide_True by lia.
      + rewrite filter_cons_False by (rewrite Hf; intros [= ?]; lia). simpl.
        repeat case_decide; lia. }
  destruct relocates_by_move; by apply Hgen.
Qed.

Lemma relocation_events_from p q i j n :
  Forall (λ e, relocates_from p e) (relocation_events p q i j n).
Proof.
  unfold relocation_events, move_events, copy_events.
  destruct relocates_by_move; apply Forall_fmap, Forall_forall; intros k _;
    simpl; by rewrite bool_decide_true.
Qed.

Lemma relocation_events_Forall (P : Event → Prop) p q i j n :
  (∀ k l, P (EvCopyCtor (Slot p k) (Slot q l)) ∧ P (EvMoveCtor (Slot p k) (Slot q l))) →
  Forall P (relocation_events p q i j n).
Proof.
  intros HP. unfold relocation_events, move_events, copy_events.
  destruct relocates_by_move; apply Forall_fmap, Forall_forall; intros k _;
    apply HP.
Qed.

Lemma dtor_events_not (P : Event → bool) p i n :
  (∀ l, P (EvDtor l) = false) →
  filter (λ e, P e) (dtor_events p i n) = [].
Proof.
  intros HP. apply filter_nil_Forall. unfold dtor_events.
  apply Forall_fmap, Forall_forall. intros k _. simpl. rewrite HP. by intros [].
Qed.

(** X14. [Emplace]/[Insert] before an element of a full vector, with a value
    of the caller's, when nothing throws.  The vector moves to one new block
    of twice the capacity, holding the old elements in their order with the
    new value at [pos]; the new value is built directly in its slot of the
    new block; each old element is relocated exactly once ([size] relocations
    in all) and destroyed in the old block, which is then released; the
    iterator returned is [begin() + pos] of the new block. *)
Theorem Emplace_full_relocates_each_once s this p xs pos a v :
  holds s this (Some p) (length xs) xs → heap_fresh s → pos < length xs →
  ext_value a = Some v →
  (∀ h, args_throws h a v = false) →
  (∀ h y, y ∈ xs → relocation_throws h y = false) →
  ∃ s',
    Emplace this pos a s = Ret (mkPtr (Some (next s)) pos) s'
    ∧ holds s' this (Some (next s)) (length xs * 2)
        (take pos xs ++ v :: drop pos xs)
    ∧ heap s' !! p = None
    ∧ filter (λ e, is_new e) (events_since s s') = [EvNew (next s) (length xs * 2)]
    ∧ length (filter (λ e, relocates_from p e) (events_since s s')) = length xs
    ∧ (∀ i, i < length xs → times_relocated p i (events_since s s') = 1)
    ∧ filter (λ e, moves_tmp e) (events_since s s') = [].
Proof.
  intros Hh Hf Hpos Hext Hnta Hntr.
  destruct (ext_value_args a v xs (Some p) Hext) as (Hok & Hval & Hres).
  destruct (ext_event a v (Slot (next s) pos) Hext) as (Hrel & Htmp & Hnew).
  assert (grown (length xs) = length xs * 2) as Hgr.
  { unfold grown. rewrite bool_decide_false by lia. done. }
  eexists. split.
  { eapply Emplace_grow_eq; try done. by rewrite Hres. }
  rewrite Hres, Hgr, events_since_app. unfold emplace_grow_events. rewrite Hgr.
  split_and!.
  - apply holds_intro; [by rewrite insert_at_length|lia].
  - simpl. rewrite lookup_insert_ne by (by apply not_eq_sym; eapply holds_fresh).
    by rewrite lookup_delete_eq.
  - rewrite filter_cons_True by done. f_equal.
    rewrite filter_cons_False by apply Hnew.
    rewrite !filter_app, !dtor_events_not by done.
    rewrite !(filter_nil_Forall (λ e, is_new e) (relocation_events _ _ _ _ _));
      [done|..]; apply relocation_events_Forall; intros; split; by intros [].
  - rewrite filter_cons_False by (simpl; by intros []).
    rewrite filter_cons_False by apply Hrel.
    rewrite !filter_app, !dtor_events_not by done.
    rewrite !filter_all_Forall by apply relocation_events_from.
    rewrite !length_app, !relocation_events_length. simpl. lia.
  - intros i Hi. unfold times_relocated.
    rewrite filter_cons_False by done.
    rewrite filter_cons_False.
    2:{ destruct a as [[v0|q]|[v0|q]|[v0|]]; simplify_eq/=; done. }
    fold (times_relocated p i
            (relocation_events p (next s) 0 0 pos ++ dtor_events p 0 pos ++
             relocation_events p (next s) pos (S pos) (length xs - pos) ++
             dtor_events p pos (length xs - pos) ++ [EvDelete p])).
    rewrite !times_relocated_app, !times_relocated_dtor,
      !times_relocated_relocation_at.
    unfold times_relocated. rewrite filter_cons_False by done. simpl.
    repeat case_decide; lia.
  - rewrite filter_cons_False by (simpl; by intros []).
    rewrite filter_cons_False by apply Htmp.
    rewrite !filter_app, !dtor_events_not by done.
    rewrite !(filter_nil_Forall (λ e, moves_tmp e) (relocation_events _ _ _ _ _));
      [done|..]; apply relocation_events_Forall; intros; split; by intros [].
Qed.

End EmplaceGrowing.

Section RoundTripAndAssign.
Context {T : Type} `{ET : ElementType T}.
Local Abbreviation M := (Exec (@State T)).
Implicit Types (s : @State T) (xs ys zs vs B : list T) (a : @Args T).

Lemma Emplace_at_end s this buf cap xs a :
  holds s this buf cap xs → Emplace this (length xs) a s = EmplaceBack this a s.
Proof.
  intros (Hv & Hle & Hb). unfold Emplace. run get_size_eq. run end_eq.
  run assert_eq. by rewrite bool_decide_true.
Qed.

Lemma insert_at_lookup xs pos v :
  pos ≤ length xs → (take pos xs ++ v :: drop pos xs) !! pos = Some v.
Proof.
  intros Hpos. rewrite lookup_app_r by (rewrite length_take; lia).
  rewrite length_take. by replace (pos - pos `min` length xs) with 0 by lia.
Qed.

Lemma insert_at_drop xs pos v :
  pos ≤ length xs →
  drop (S pos) (take pos xs ++ v :: drop pos xs) = drop pos xs.
Proof.
  intros Hpos.
  assert (length (take pos xs) = pos) as Hlen by (rewrite length_take; lia).
  rewrite drop_app_ge by lia. rewrite Hlen.
  replace (S pos - pos) with 1 by lia. simpl. by rewrite drop_0.
Qed.

Lemma insert_at_remove xs pos v :
  pos ≤ length xs →
  take pos (take pos xs ++ v :: drop pos xs)
  ++ drop (S pos) (take pos xs ++ v :: drop pos xs) = xs.
Proof.
  intros Hpos.
  assert (length (take pos xs) = pos) as Hlen by (rewrite length_take; lia).
  rewrite insert_at_drop by done. rewrite take_app_length' by done.
  apply take_drop.
Qed.

(** X15. [Erase] undoes [Insert]: inserting a value of the caller's at [pos]
    and erasing at the iterator returned gives back the elements the vector
    had, in order, with or without a reallocation by the insertion. *)
Theorem Insert_then_Erase s this buf cap xs pos a v :
  holds s this buf cap xs → heap_fresh s → pos ≤ length xs →
  ext_value a = Some v →
  (∀ h, args_throws h a v = false) →
  moves_nothrow (v :: xs) →
  (∀ h y, y ∈ xs → relocation_throws h y = false) →
  ∃ q s1 s2 buf',
    Emplace this pos a s = Ret q s1
    ∧ off q = pos
    ∧ holds s1 this buf' (if decide (length xs = cap) then grown cap else cap)
        (take pos xs ++ v :: drop pos xs)
    ∧ Erase this pos s1 = Ret q s2
    ∧ holds s2 this buf' (if decide (length xs = cap) then grown cap else cap) xs.
Proof.
  intros Hh Hf Hpos Hext Hnta Hntm Hntr. pose proof Hh as (Hv & Hle & Hb).
  destruct (ext_value_args a v xs buf Hext) as (Hok & Hval & Hres).
  assert (∀ s1 p' c,
            holds s1 this (Some p') c (take pos xs ++ v :: drop pos xs) →
            ∃ s2, Erase this pos s1 = Ret (mkPtr (Some p') pos) s2
                  ∧ holds s2 this (Some p') c xs) as Herase.
  { intros s1 p' c Hh1.
    opose proof* (Erase_eq s1 this p' c (take pos xs ++ v :: drop pos xs) pos v)
      as Hrun; [done|by apply insert_at_lookup| |].
    { rewrite insert_at_drop by done. intros h y Hy. apply Hntm. right.
      by apply (subseteq_drop pos) in Hy. }
    rewrite insert_at_remove, insert_at_length in Hrun by done.
    eexists. split; [exact Hrun|].
    destruct Hh1 as (_ & Hle1 & _). rewrite insert_at_length in Hle1.
    simpl. rewrite Nat.sub_0_r. apply holds_intro; [done|lia]. }
  destruct (decide (pos = length xs)) as [->|Hne].
  - opose proof* (EmplaceBack_any s this buf cap xs a v)
      as (s1 & buf' & Hrun & Hh1 & _); try done.
    { by rewrite Hres. }
    rewrite Hres in Hh1.
    destruct buf' as [p'|]; last first.
    { destruct Hh1 as (_ & Hle1 & Hz). rewrite Hz, length_app in Hle1.
      simpl in Hle1. lia. }
    rewrite firstn_all, drop_all in *.
    destruct (Herase s1 p' _ Hh1) as (s2 & Hrun2 & Hh2).
    exists (mkPtr (Some p') (length xs)), s1, s2, (Some p').
    split; [by erewrite Emplace_at_end|]. done.
  - destruct buf as [p|]; [|lia].
    case_decide as Hfull.
    + subst cap.
      opose proof* (Emplace_grow_eq s this p xs pos a v) as Hrun; try done.
      { lia. } { by rewrite Hres. }
      rewrite Hres in Hrun.
      match type of Hrun with _ = Ret _ ?st => set (s1 := st) in * end.
      assert (holds s1 this (Some (next s)) (grown (length xs))
                (take pos xs ++ v :: drop pos xs)) as Hh1.
      { apply holds_intro; [by rewrite insert_at_length|].
        pose proof (grown_gt (length xs)). lia. }
      destruct (Herase s1 _ _ Hh1) as (s2 & Hrun2 & Hh2).
      by exists (mkPtr (Some (next s)) pos), s1, s2, (Some (next s)).
    + opose proof* (Emplace_spare_eq s this p cap xs pos a v) as Hrun; try done.
      { lia. } { lia. }
      { rewrite Hres. intros h y Hy. apply Hntm.
        apply elem_of_cons in Hy as [->|Hy]; [left|right].
        by apply (subseteq_drop pos) in Hy. }
      rewrite Hres in Hrun.
      match type of Hrun with _ = Ret _ ?st => set (s1 := st) in * end.
      assert (holds s1 this (Some p) cap (take pos xs ++ v :: drop pos xs)) as Hh1.
      { apply holds_intro; [by rewrite insert_at_length|lia]. }
      destruct (Herase s1 _ _ Hh1) as (s2 & Hrun2 & Hh2).
      by exists (mkPtr (Some p) pos), s1, s2, (Some p).
Qed.

Lemma copy_assign_eq s pr p i bs bd v w :
  pr ≠ p →
  heap s !! pr = Some bs → bs !! i = Some (Some v) →
  heap s !! p = Some bd → bd !! i = Some (Some w) →
  copy_assign_throws (log s) v = false →
  copy_assign (mkPtr (Some pr) i) (mkPtr (Some p) i) s
  = Ret tt (mkState (<[p := <[i := Some v]> bd]> (heap s)) (next s) (vecs s)
              (log s ++ [EvCopyAssign (Slot pr i) (Slot p i)])).
Proof.
  intros Hne Hs Hv Hd Hw Hc. unfold copy_assign.
  erewrite bind_Ret; [|by eapply read_slot_eq].
  erewrite bind_Ret; [|by eapply read_slot_eq].
  unfold bind at 1, gets at 1. rewrite Hc.
  erewrite bind_Ret; [|eapply write_slot_eq; [done|by eapply lookup_lt_Some]].
  done.
Qed.

Lemma for_copy_assign_eq V : ∀ s pr p rcap cap i preS postS D W post,
  pr ≠ p → length preS = i → length D = i → length W = length V →
  i + length V ≤ rcap → i + length V ≤ cap →
  heap s !! pr = Some (preS ++ (Some <$> V) ++ postS) →
  heap s !! p = Some (D ++ (Some <$> W) ++ post) →
  (∀ h y, y ∈ V → copy_assign_throws h y = false) →
  for_copy_assign (mkRawMemory (Some pr) rcap) (mkRawMemory (Some p) cap) i
    (length V) s
  = Ret tt (mkState (<[p := D ++ (Some <$> V) ++ post]> (heap s)) (next s) (vecs s)
              (log s ++ copy_assign_events pr p i (length V))).
Proof.
  induction V as [|v V IH];
    intros s pr p rcap cap i preS postS D W post Hne HS HD HW Hr Hc Hs Hd Hnt.
  - destruct W; [|done]. simpl in *. unfold ret, copy_assign_events. simpl.
    rewrite app_nil_r, insert_id by done. by destruct s.
  - destruct W as [|w W]; [done|]. csimpl in *.
    run RawMemory_at_eq. run RawMemory_at_eq.
    erewrite bind_Ret; last first.
    { eapply (copy_assign_eq s pr p i _ _ v w); [done|done| |done| |].
      - rewrite <-HS. apply block_middle_lookup.
      - rewrite <-HD. apply block_middle_lookup.
      - apply Hnt. left. }
    rewrite (block_middle_insert_at D) by done.
    erewrite (IH _ pr p rcap cap (S i) (preS ++ [Some v]) postS (D ++ [Some v]) W post);
      simpl; try done.
    + apply Ret_state_eq; simpl; try done.
      * rewrite insert_insert_eq. by rewrite <-!app_assoc.
      * by rewrite <-app_assoc.
    + rewrite length_app. simpl. lia.
    + rewrite length_app. simpl. lia.
    + lia.
    + lia.
    + lia.
    + rewrite lookup_insert_ne by done. rewrite Hs. by rewrite <-app_assoc.
    + rewrite lookup_insert_eq. by rewrite <-app_assoc.
    + intros h y Hy. apply Hnt. by right.
Qed.

Lemma Vector_copy_assign_in_place_eq s this rhs p cap xs pr rcap ys :
  this ≠ rhs → pr ≠ p →
  holds s this (Some p) cap xs → holds s rhs (Some pr) rcap ys →
  length ys ≤ cap →
  (∀ h y, y ∈ ys → copy_assign_throws h y = false ∧ copy_ctor_throws h y = false) →
  Vector_copy_assign this rhs s
  = Ret tt (mkState (<[p := block_of ys cap]> (heap s)) (next s)
              (<[this := mkVector (mkRawMemory (Some p) cap) (length ys)]> (vecs s))
              (log s ++ assign_in_place_events pr p (length xs) (length ys))).
Proof.
  intros Hne Hpp (Hv & Hle & Hb) (Hrv & Hrle & Hrb) Hfit Hnt.
  unfold Vector_copy_assign. rewrite bool_decide_true by done.
  rewrite !bind_bind. run get_size_eq. run Capacity_eq.
  rewrite bool_decide_false by lia.
  run get_size_eq. run get_data_eq. run get_data_eq.
  unfold assign_in_place_events. case_bool_decide as Hcmp.
  - (* fewer elements in the source *)
    set (W := take (length ys) xs). set (E := drop (length ys) xs).
    assert (length W = length ys) as HW by (unfold W; rewrite length_take; lia).
    assert (length E = length xs - length ys) as HE
      by (unfold E; rewrite length_drop; lia).
    assert (xs = W ++ E) as Hxs by (unfold W, E; by rewrite take_drop).
    set (R := replicate (cap - length xs) (@None T)).
    rewrite ?bind_bind. erewrite bind_Ret; last first.
    { eapply (for_copy_assign_eq ys s pr p rcap cap 0 []
                (replicate (rcap - length ys) None) [] W ((Some <$> E) ++ R));
        simpl; try done; try lia.
      - rewrite Hb. unfold block_of. fold R. by rewrite Hxs at 1; rewrite fmap_app, <-app_assoc.
      - intros h y Hy. by apply Hnt. }
    st_simpl. run RawMemory_plus_eq.
    rewrite <-HE.
    erewrite bind_Ret; last first.
    { eapply (destroy_n_eq E _ p (length ys) (Some <$> ys) R).
      - by rewrite length_fmap.
      - simpl. by rewrite lookup_insert_eq. }
    st_simpl.
    erewrite bind_Ret; last first.
    { eapply get_size_eq. simpl. done. }
    erewrite set_size_eq; [|done]. simpl.
    apply Ret_state_eq; simpl; try done.
    + rewrite insert_insert_eq. f_equal. unfold block_of, R. f_equal.
      rewrite <-replicate_add. f_equal. lia.
    + rewrite <-!app_assoc. f_equal. rewrite Nat.min_r by lia.
      replace (length ys - length xs) with 0 by lia.
      unfold copy_events. simpl. by rewrite app_nil_r, HE.
  - (* at least as many *)
    set (V := take (length xs) ys). set (R := drop (length xs) ys).
    assert (length V = length xs) as HV by (unfold V; rewrite length_take; lia).
    assert (length R = length ys - length xs) as HR
      by (unfold R; rewrite length_drop; lia).
    assert (ys = V ++ R) as Hys by (unfold V, R; by rewrite take_drop).
    set (RS := replicate (rcap - length ys) (@None T)).
    set (RD := replicate (cap - length ys) (@None T)).
    rewrite ?bind_bind. rewrite <-HV at 1.
    erewrite bind_Ret; last first.
    { eapply (for_copy_assign_eq V s pr p rcap cap 0 []
                ((Some <$> R) ++ RS) [] xs (replicate (cap - length xs) None));
        simpl; try done; try lia.
      - rewrite Hrb. unfold block_of. fold RS.
        by rewrite Hys at 1; rewrite fmap_app, <-app_assoc.
      - intros h y Hy. apply Hnt. rewrite Hys, elem_of_app. by left. }
    st_simpl. run RawMemory_plus_eq. run RawMemory_plus_eq.
    unfold uninitialized_copy_n. rewrite <-HR.
    opose proof* (uninitialized_copy_spec R
                    (mkState (<[p := (Some <$> V) ++ replicate (cap - length xs) None]>
                                (heap s)) (next s) (vecs s)
                       (log s ++ copy_assign_events pr p 0 (length V)))
                    pr p (length xs) (length xs)
                    (Some <$> V) RS (Some <$> V) [] RD) as Hspec;
      simpl; try done.
    { by rewrite length_fmap. }
    { by rewrite length_fmap. }
    { rewrite lookup_insert_ne by done. rewrite Hrb. unfold block_of. fold RS.
      by rewrite Hys at 1; rewrite fmap_app, <-app_assoc. }
    { rewrite lookup_insert_eq. f_equal. f_equal. unfold RD.
      rewrite <-replicate_add. f_equal. lia. }
    destruct (uninitialized_n _ _ _ _ _ _) as [[] s2|s2|] eqn:Hrun; [| |done];
      last first.
    { destruct Hspec as (_ & _ & _ & h & y & Hy & Hth).
      destruct (Hnt h y) as [_ Hc]; [rewrite Hys, elem_of_app; by right|].
      by rewrite Hc in Hth. }
    subst s2. erewrite bind_Ret; [|done]. st_simpl.
    erewrite bind_Ret; last first.
    { eapply get_size_eq. simpl. done. }
    erewrite set_size_eq; [|done]. simpl.
    apply Ret_state_eq; simpl; try done.
    + rewrite insert_insert_eq. f_equal. unfold block_of. fold RD.
      by rewrite Hys at 1; rewrite fmap_app, <-app_assoc.
    + rewrite <-!app_assoc. f_equal. rewrite Nat.min_l by lia.
      replace (length xs - length ys) with 0 by lia.
      unfold dtor_events. simpl. rewrite Nat.add_0_r. by rewrite HV, HR.
Qed.

Lemma Vector_copy_assign_from_empty s this rhs p cap xs rbuf rcap :
  this ≠ rhs →
  holds s this (Some p) cap xs → holds s rhs rbuf rcap [] →
  Vector_copy_assign this rhs s
  = Ret tt (mkState (<[p := block_of [] cap]> (heap s)) (next s)
              (<[this := mkVector (mkRawMemory (Some p) cap) 0]> (vecs s))
              (log s ++ dtor_events p 0 (length xs))).
Proof.
  intros Hne (Hv & Hle & Hb) (Hrv & Hrle & Hrb).
  unfold Vector_copy_assign. rewrite bool_decide_true by done.
  rewrite !bind_bind. run get_size_eq. run Capacity_eq. simpl.
  rewrite ?bool_decide_false by lia.
  run get_size_eq. run get_data_eq. run get_data_eq. simpl.
  case_bool_decide as Hcmp.
  - rewrite ?bind_bind, bind_ret_l. run RawMemory_plus_eq. rewrite Nat.sub_0_r.
    erewrite bind_Ret; last first.
    { eapply (destroy_n_eq xs s p 0 [] (replicate (cap - length xs) None));
        [done|]. by rewrite Hb. }
    st_simpl.
    erewrite bind_Ret; last first.
    { eapply get_size_eq. simpl. done. }
    erewrite set_size_eq; [|done]. simpl.
    apply Ret_state_eq; simpl; try done.
    f_equal. unfold block_of. simpl. rewrite <-replicate_add. f_equal. lia.
  - destruct xs; [|simpl in *; lia]. simpl.
    rewrite ?bind_bind, bind_ret_l. run RawMemory_plus_eq. run RawMemory_plus_eq.
    unfold uninitialized_copy_n. simpl. rewrite bind_ret_l.
    erewrite bind_Ret; last first.
    { eapply get_size_eq. simpl. done. }
    erewrite set_size_eq; [|done]. simpl.
    apply Ret_state_eq; simpl; try done.
    + by rewrite insert_id.
    + unfold dtor_events. simpl. by rewrite app_nil_r.
Qed.

Lemma Vector_copy_assign_self s this buf cap xs :
  holds s this buf cap xs → Vector_copy_assign this this s = Ret tt s.
Proof.
  intros (Hv & _). unfold Vector_copy_assign.
  rewrite bool_decide_false by (by intros ?). rewrite bind_ret_l.
  run get_size_eq. erewrite set_size_eq; [|done].
  destruct s as [h n vs l]. simpl in *. do 2 f_equal. by apply insert_id.
Qed.

(** X16. Copy assignment from a source whose size is within the capacity of
    the destination, when no copy throws: the destination ends with the
    elements of the source, in the block and with the capacity it had, and
    nothing is allocated or released; the common prefix is copy-assigned
    element by element, then the excess of the destination is destroyed or
    what is missing is copy-constructed; the source is as it was.  And
    [a = a] changes nothing. *)
Theorem copy_assign_in_place s this rhs p cap xs rbuf rcap ys :
  holds s this (Some p) cap xs → holds s rhs rbuf rcap ys →
  (this ≠ rhs → rbuf ≠ Some p → length ys ≤ cap →
   (∀ h y, y ∈ ys → copy_assign_throws h y = false ∧ copy_ctor_throws h y = false) →
   ∃ s',
     Vector_copy_assign this rhs s = Ret tt s'
     ∧ holds s' this (Some p) cap ys
     ∧ holds s' rhs rbuf rcap ys
     ∧ next s' = next s
     ∧ events_since s s'
       = match rbuf with
         | Some pr => assign_in_place_events pr p (length xs) (length ys)
         | None => dtor_events p 0 (length xs)
         end)
  ∧ Vector_copy_assign this this s = Ret tt s.
Proof.
  intros Hh Hr. split; [|by eapply Vector_copy_assign_self].
  intros Hne Hbuf Hfit Hnt. pose proof Hr as (Hrv & Hrle & Hrb).
  destruct rbuf as [pr|].
  - assert (pr ≠ p) as Hpp by congruence.
    eexists. split; [by eapply Vector_copy_assign_in_place_eq|].
    rewrite events_since_app. split; [by apply holds_intro|].
    split; [|done].
    split_and!; simpl; [by rewrite lookup_insert_ne|done|].
    by rewrite lookup_insert_ne.
  - subst rcap. destruct ys; [|simpl in *; lia].
    eexists. split; [by eapply Vector_copy_assign_from_empty|].
    rewrite events_since_app. split; [apply holds_intro; [done|simpl; lia]|].
    split; [|done].
    split_and!; simpl; [by rewrite lookup_insert_ne|done..].
Qed.

End RoundTripAndAssign.

Section EmplaceThrowing.
Context {T : Type} `{ET : ElementType T}.
Local Abbreviation M := (Exec (@State T)).
Implicit Types (s : @State T) (xs ys zs vs B : list T) (a : @Args T).


End EmplaceThrowing.

Section Policy.
Context {T : Type} `{ET : ElementType T}.
Local Abbreviation M := (Exec (@State T)).
Implicit Types (s : @State T) (xs ys zs vs B : list T) (a : @Args T).


(** X19. [EmplaceBack] returns a reference to the element it added: it is
    [data_ + (size - 1)] of the vector after the call, and both it and
    [v[size - 1]] read the new value. *)
Theorem EmplaceBack_returns_new_element s this buf cap xs a v :
  holds s this buf cap xs → heap_fresh s → ext_value a = Some v →
  (∀ h, args_throws h a v = false) →
  (∀ h x, x ∈ xs → relocation_throws h x = false) →
  ∃ q s',
    EmplaceBack this a s = Ret q s'
    ∧ off q = length xs
    ∧ (d ← get_data this; RawMemory_at d (length xs)) s' = Ret q s'
    ∧ read_slot q s' = Ret v s'
    ∧ Vector_at this (length xs) s' = Ret v s'.
Proof.
  intros Hh Hf Hext Hnta Hntr.
  destruct (ext_value_args a v xs buf Hext) as (Hok & Hval & Hres).
  opose proof* (EmplaceBack_any s this buf cap xs a v)
    as (s' & buf' & Hrun & Hh' & _); try done.
  { by rewrite Hres. }
  rewrite Hres in Hh'.
  opose proof* (Vector_at_eq s' this buf' _ (xs ++ [v]) (length xs) v Hh') as Hat.
  { by rewrite lookup_app_r, Nat.sub_diag by done. }
  destruct Hh' as (Hv' & Hle' & Hb'). rewrite length_app in *. simpl in *.
  destruct buf' as [p'|]; [|lia].
  eexists _, s'. split; [done|]. split; [done|]. split; [|split; [|done]].
  - run get_data_eq. apply RawMemory_at_eq. simpl. lia.
  - eapply read_slot_eq; [done|]. unfold block_of.
    rewrite lookup_app_l by (rewrite length_fmap, length_app; simpl; lia).
    rewrite list_lookup_fmap, lookup_app_r, Nat.sub_diag by done. done.
Qed.

End Policy.

Section MovedFrom.
Context {T : Type} `{ET : ElementType T}.
Local Abbreviation M := (Exec (@State T)).
Implicit Types (s : @State T) (xs ys zs vs B : list T) (a : @Args T).

Lemma Vector_move_eq s this other v :
  vecs s !! other = Some v → vecs s !! this = None →
  Vector_move this other s
  = Ret tt (mkState (heap s) (next s)
              (<[this := v]> (<[other := mkVector (mkRawMemory None 0) 0]> (vecs s)))
              (log s)).
Proof.
  intros Ho Hnew. assert (this ≠ other) as Hne by (intros ->; congruence).
  unfold Vector_move. run get_data_eq. unfold RawMemory_move_ctor, RawMemory_Swap,
    RawMemory_default.
  run set_data_eq. run get_size_eq. run set_size_eq.
  rewrite new_vec_eq; simpl.
  - destruct v as [d n]. simpl. apply Ret_state_eq; try done.
    by rewrite insert_insert_eq.
  - by rewrite !lookup_insert_ne.
Qed.

(** X20. A vector that has been moved from is an empty vector without
    storage.  Destroying it runs no destructor and releases nothing, so the
    block now owned by the new vector is released once only; and appending to
    it allocates a block of one slot of its own and leaves the vector moved
    to as it is. *)
Theorem moved_from_is_empty s this other buf cap xs a v :
  holds s other buf cap xs → vecs s !! this = None → heap_fresh s →
  ext_value a = Some v → (∀ h, args_throws h a v = false) →
  ∃ s1,
    Vector_move this other s = Ret tt s1
    ∧ holds s1 other None 0 []
    ∧ (∃ s2, Vector_dtor other s1 = Ret tt s2
             ∧ heap s2 = heap s ∧ events_since s s2 = []
             ∧ holds s2 this buf cap xs)
    ∧ (∃ q s2, EmplaceBack other a s1 = Ret q s2
               ∧ holds s2 other (Some (next s)) 1 [v]
               ∧ holds s2 this buf cap xs).
Proof.
  intros Hh Hnew Hf Hext Hnta. pose proof Hh as (Hv & Hle & Hb).
  assert (this ≠ other) as Hne by (intros ->; congruence).
  eexists. split; [by eapply Vector_move_eq|].
  match goal with |- holds ?st _ _ _ _ ∧ _ => set (s1 := st) end.
  assert (holds s1 other None 0 []) as Ho1.
  { split_and!; simpl; [|done..].
    rewrite lookup_insert_ne by done. by rewrite lookup_insert_eq. }
  split; [done|]. split.
  - eexists. split; [by eapply Vector_dtor_eq|]. simpl.
    split; [done|]. split.
    + unfold events_since. simpl. rewrite app_nil_r. by rewrite drop_all.
    + split_and!; simpl; [|done..].
      rewrite lookup_delete_ne by done. by rewrite lookup_insert_eq.
  - destruct (ext_value_args a v [] None Hext) as (Hok & Hval & Hres).
    opose proof* (EmplaceBack_grow_spec s1 other None [] a) as Hspec;
      [done|done|done|].
    destruct (EmplaceBack other a s1) as [q s2|s2|]; [| |done].
    + destruct Hspec as (v' & Hval' & _ & -> & ->).
      assert (v' = v) as -> by congruence. rewrite Hres.
      eexists _, _. split; [done|]. split.
      * split_and!; simpl; [by rewrite lookup_insert_eq|done|].
        by rewrite lookup_insert_eq.
      * split_and!; simpl; [|done|].
        -- rewrite lookup_insert_ne by done. by rewrite lookup_insert_eq.
        -- destruct buf as [p|]; [|done].
           rewrite lookup_insert_ne; [done|].
           apply not_eq_sym. by eapply holds_fresh.
    + destruct Hspec as (_ & [[_ Hth]|[(h & x & Hx & _) _]]).
      * destruct (Hth v Hval) as [h Hh']. by rewrite Hnta in Hh'.
      * rewrite Hres in Hx. by apply elem_of_nil in Hx.
Qed.

End MovedFrom.

(** * Further properties on concrete vectors *)

Ltac holds_now := split; [by vm_compute|split; [simpl; lia|by vm_compute]].
Ltac fresh_now := unfold heap_fresh; apply (bool_decide_unpack _); by vm_compute.

(** [v.Erase(v.begin())] on [1, 2, 3]. *)
Lemma Erase_removes_one_witness :
  holds three_ints 0 (Some 2) 4 [1; 2; 3] ∧ 0 < length [1; 2; 3]
  ∧ ∃ s', Erase 0 0 three_ints = Ret (mkPtr (Some 2) 0) s'
          ∧ holds s' 0 (Some 2) 4 [2; 3].
Proof.
  assert (holds three_ints 0 (Some 2) 4 [1; 2; 3]) as Hh by holds_now.
  assert (0 < length [1; 2; 3]) as Hpos by (simpl; lia).
  split; [exact Hh|split; [exact Hpos|]].
  assert (∀ (h : list Event) (y : nat),
            y ∈ drop 1 [1; 2; 3] → move_assign_throws h y = false) as Hnt
    by (by intros h y _).
  destruct (Erase_removes_one three_ints 0 2 4 [1; 2; 3] 0 Hh Hpos Hnt)
    as (s' & Hrun & Hh' & _).
  exists s'. exact (conj Hrun Hh').
Defined.



(** Swapping a vector of one object with a vector of two. *)
Lemma Swap_exchanges_witness :
  holds small_and_large 0 (Some 0) 1 [mkObj 9 false]
  ∧ holds small_and_large 1 (Some 2) 2 [mkObj 1 false; mkObj 2 true]
  ∧ ∃ s', Swap 0 1 small_and_large = Ret tt s'
          ∧ holds s' 0 (Some 2) 2 [mkObj 1 false; mkObj 2 true]
          ∧ holds s' 1 (Some 0) 1 [mkObj 9 false].
Proof.
  assert (holds small_and_large 0 (Some 0) 1 [mkObj 9 false]) as Ha by holds_now.
  assert (holds small_and_large 1 (Some 2) 2 [mkObj 1 false; mkObj 2 true]) as Hb
    by holds_now.
  split; [exact Ha|split; [exact Hb|]].
  assert (0 ≠ 1) as Hne by lia.
  destruct (proj1 (Swap_exchanges small_and_large 0 1 _ _ _ _ _ _ Ha Hb) Hne)
    as (s' & Hrun & Ha' & Hb' & _).
  exists s'. exact (conj Hrun (conj Ha' Hb')).
Defined.

(** [v[1]] on [1, 2, 3]. *)
Lemma Vector_at_bounds_witness :
  holds three_ints 0 (Some 2) 4 [1; 2; 3]
  ∧ Vector_at 0 1 three_ints = Ret 2 three_ints.
Proof.
  assert (holds three_ints 0 (Some 2) 4 [1; 2; 3]) as Hh by holds_now.
  split; [exact Hh|].
  exact (Vector_at_bounds three_ints 0 (Some 2) 4 [1; 2; 3] 1 Hh).
Defined.

(** Destroying [1, 2, 3]. *)
Lemma Vector_dtor_releases_witness :
  holds three_ints 0 (Some 2) 4 [1; 2; 3]
  ∧ ∃ s', Vector_dtor 0 three_ints = Ret tt s'
          ∧ heap s' = released (Some 2) (heap three_ints)
          ∧ events_since three_ints s'
            = dtor_events 2 0 (length [1; 2; 3]) ++ [EvDelete 2].
Proof.
  assert (holds three_ints 0 (Some 2) 4 [1; 2; 3]) as Hh by holds_now.
  split; [exact Hh|].
  destruct (Vector_dtor_releases three_ints 0 (Some 2) 4 [1; 2; 3] Hh)
    as (s' & Hrun & _ & Hheap & Hev).
  exists s'. exact (conj Hrun (conj Hheap Hev)).
Defined.


(** [{ Vector<int> w(v); }] *)
Lemma copy_then_destroy_no_leak_witness :
  holds three_ints 0 (Some 2) 4 [1; 2; 3] ∧ heap_fresh three_ints
  ∧ vecs three_ints !! 1 = None
  ∧ ∃ s', (Vector_copy 1 0;; Vector_dtor 1) three_ints = Ret tt s'
          ∧ heap s' = heap three_ints ∧ vecs s' = vecs three_ints.
Proof.
  assert (holds three_ints 0 (Some 2) 4 [1; 2; 3]) as Hh by holds_now.
  assert (heap_fresh three_ints) as Hf by fresh_now.
  assert (vecs three_ints !! 1 = None) as Hnew by (by vm_compute).
  split; [exact Hh|split; [exact Hf|split; [exact Hnew|]]].
  pose proof (copy_then_destroy_no_leak three_ints 1 0 (Some 2) 4 [1; 2; 3]
                Hh Hf Hnew) as Hres.
  destruct ((Vector_copy 1 0;; Vector_dtor 1) three_ints) as [[] s'|s'|] eqn:Hrun.
  - exists s'. exact (conj eq_refl Hres).
  - by vm_compute in Hrun.
  - destruct Hres.
Defined.

(** [v = std::move(w)] for [v] holding [1, 2, 3] and [w] holding [0, 0]. *)
Lemma move_assign_abandons_storage_witness :
  0 ≠ 1 ∧ Some 3 ≠ Some 2
  ∧ holds three_and_two 0 (Some 2) 4 [1; 2; 3]
  ∧ holds three_and_two 1 (Some 3) 2 [0; 0]
  ∧ ∃ s', Vector_move_assign 0 1 three_and_two = Ret tt s'
          ∧ heap s' !! 2 = Some (block_of [1; 2; 3] 4)
          ∧ events_since three_and_two s' = [].
Proof.
  assert (0 ≠ 1) as Hne by lia.
  assert (Some 3 ≠ Some 2) as Hbuf by (intros [= ?]; lia).
  assert (holds three_and_two 0 (Some 2) 4 [1; 2; 3]) as Ha by holds_now.
  assert (holds three_and_two 1 (Some 3) 2 [0; 0]) as Hb by holds_now.
  split; [exact Hne|split; [exact Hbuf|split; [exact Ha|split; [exact Hb|]]]].
  destruct (move_assign_abandons_storage three_and_two 0 1 2 4 [1; 2; 3]
              (Some 3) 2 [0; 0] Hne Hbuf Ha Hb)
    as (s' & Hrun & Hheap & Hev & _).
  exists s'. exact (conj Hrun (conj Hheap Hev)).
Defined.

(** [v.PushBack(v[0])] on [1, 2, 3] in capacity four. *)
Lemma PushBack_own_element_witness :
  holds three_ints 0 (Some 2) 4 [1; 2; 3] ∧ heap_fresh three_ints
  ∧ [1; 2; 3] !! 0 = Some 1
  ∧ ∃ s' buf',
      PushBack_copy 0 (RSlot (mkPtr (Some 2) 0)) three_ints = Ret tt s'
      ∧ holds s' 0 buf' 4 [1; 2; 3; 1].
Proof.
  assert (holds three_ints 0 (Some 2) 4 [1; 2; 3]) as Hh by holds_now.
  assert (heap_fresh three_ints) as Hf by fresh_now.
  split; [exact Hh|split; [exact Hf|split; [reflexivity|]]].
  assert (∀ h : list Event,
            copy_ctor_throws h 1 = false ∧ move_ctor_throws h 1 = false) as Hntx
    by (by intros h).
  assert (∀ (h : list Event) (y : nat),
            y ∈ moved_from 1 :: [1; 2; 3] → relocation_throws h y = false) as Hntr
    by (by intros h y _).
  destruct (proj1 (PushBack_own_element three_ints 0 2 4 [1; 2; 3] 0 1
                     Hh Hf eq_refl Hntx Hntr)) as (s' & buf' & Hrun & Hh').
  exists s', buf'. exact (conj Hrun Hh').
Defined.


(** [v.PushBack(9); v.PopBack();] on [1, 2, 3]. *)
Lemma PushBack_then_PopBack_witness :
  holds three_ints 0 (Some 2) 4 [1; 2; 3] ∧ heap_fresh three_ints
  ∧ ∃ s' buf',
      (EmplaceBack 0 (ByCopy (RExt 9));; PopBack 0) three_ints = Ret tt s'
      ∧ holds s' 0 buf' 4 [1; 2; 3].
Proof.
  assert (holds three_ints 0 (Some 2) 4 [1; 2; 3]) as Hh by holds_now.
  assert (heap_fresh three_ints) as Hf by fresh_now.
  split; [exact Hh|split; [exact Hf|]].
  assert (∀ h : list Event, args_throws h (ByCopy (RExt 9)) 9 = false) as Hnta
    by reflexivity.
  assert (∀ (h : list Event) (x : nat),
            x ∈ [1; 2; 3] → relocation_throws h x = false) as Hntr
    by (by intros h x _).
  destruct (PushBack_then_PopBack three_ints 0 (Some 2) 4 [1; 2; 3]
              (ByCopy (RExt 9)) 9 Hh Hf eq_refl Hnta Hntr)
    as (s' & buf' & Hrun & Hh').
  exists s', buf'. exact (conj Hrun Hh').
Defined.

(** [v.Insert(v.begin() + 1, 9)] on [1, 2] in capacity two. *)
Lemma Emplace_full_relocates_each_once_witness :
  holds two_ints 0 (Some 1) (length [1; 2]) [1; 2] ∧ heap_fresh two_ints
  ∧ 1 < length [1; 2]
  ∧ ∃ s',
      Emplace 0 1 (ByCopy (RExt 9)) two_ints
      = Ret (mkPtr (Some (next two_ints)) 1) s'
      ∧ holds s' 0 (Some (next two_ints)) 4 [1; 9; 2]
      ∧ length (filter (λ e, relocates_from 1 e) (events_since two_ints s')) = 2.
Proof.
  assert (holds two_ints 0 (Some 1) (length [1; 2]) [1; 2]) as Hh by holds_now.
  assert (heap_fresh two_ints) as Hf by fresh_now.
  assert (1 < length [1; 2]) as Hpos by (simpl; lia).
  split; [exact Hh|split; [exact Hf|split; [exact Hpos|]]].
  assert (∀ h : list Event, args_throws h (ByCopy (RExt 9)) 9 = false) as Hnta
    by reflexivity.
  assert (∀ (h : list Event) (y : nat),
            y ∈ [1; 2] → relocation_throws h y = false) as Hntr
    by (by intros h y _).
  destruct (Emplace_full_relocates_each_once two_ints 0 1 [1; 2] 1
              (ByCopy (RExt 9)) 9 Hh Hf Hpos eq_refl Hnta Hntr)
    as (s' & Hrun & Hh' & _ & _ & Hrel & _).
  exists s'. exact (conj Hrun (conj Hh' Hrel)).
Defined.

(** [v.Erase(v.Insert(v.begin() + 1, 9))] on [1, 2, 3]. *)
Lemma Insert_then_Erase_witness :
  holds three_ints 0 (Some 2) 4 [1; 2; 3] ∧ heap_fresh three_ints
  ∧ 1 ≤ length [1; 2; 3]
  ∧ ∃ q s1 s2 buf',
      Emplace 0 1 (ByCopy (RExt 9)) three_ints = Ret q s1
      ∧ holds s1 0 buf' 4 [1; 9; 2; 3]
      ∧ Erase 0 1 s1 = Ret q s2
      ∧ holds s2 0 buf' 4 [1; 2; 3].
Proof.
  assert (holds three_ints 0 (Some 2) 4 [1; 2; 3]) as Hh by holds_now.
  assert (heap_fresh three_ints) as Hf by fresh_now.
  assert (1 ≤ length [1; 2; 3]) as Hpos by (simpl; lia).
  split; [exact Hh|split; [exact Hf|split; [exact Hpos|]]].
  assert (∀ h : list Event, args_throws h (ByCopy (RExt 9)) 9 = false) as Hnta
    by reflexivity.
  assert (moves_nothrow (9 :: [1; 2; 3])) as Hntm by (by intros h x _).
  assert (∀ (h : list Event) (y : nat),
            y ∈ [1; 2; 3] → relocation_throws h y = false) as Hntr
    by (by intros h y _).
  destruct (Insert_then_Erase three_ints 0 (Some 2) 4 [1; 2; 3] 1
              (ByCopy (RExt 9)) 9 Hh Hf Hpos eq_refl Hnta Hntm Hntr)
    as (q & s1 & s2 & buf' & Hrun1 & _ & Hh1 & Hrun2 & Hh2).
  exists q, s1, s2, buf'. exact (conj Hrun1 (conj Hh1 (conj Hrun2 Hh2))).
Defined.

(** [v = w] for [v] holding [1, 2, 3] in capacity four and [w] holding
    [0, 0]. *)
Lemma copy_assign_in_place_witness :
  holds three_and_two 0 (Some 2) 4 [1; 2; 3]
  ∧ holds three_and_two 1 (Some 3) 2 [0; 0]
  ∧ ∃ s', Vector_copy_assign 0 1 three_and_two = Ret tt s'
          ∧ holds s' 0 (Some 2) 4 [0; 0]
          ∧ next s' = next three_and_two.
Proof.
  assert (holds three_and_two 0 (Some 2) 4 [1; 2; 3]) as Ha by holds_now.
  assert (holds three_and_two 1 (Some 3) 2 [0; 0]) as Hb by holds_now.
  split; [exact Ha|split; [exact Hb|]].
  assert (0 ≠ 1) as Hne by lia.
  assert (Some 3 ≠ Some 2) as Hbuf by (intros [= ?]; lia).
  assert (length [0; 0] ≤ 4) as Hfit by (simpl; lia).
  assert (∀ (h : list Event) (y : nat),
            y ∈ [0; 0] →
            copy_assign_throws h y = false ∧ copy_ctor_throws h y = false) as Hnt
    by (by intros h y _).
  destruct (proj1 (copy_assign_in_place three_and_two 0 1 2 4 [1; 2; 3]
                     (Some 3) 2 [0; 0] Ha Hb) Hne Hbuf Hfit Hnt)
    as (s' & Hrun & Ha' & _ & Hnx & _).
  exists s'. exact (conj Hrun (conj Ha' Hnx)).
Defined.



(** [int& r = v.EmplaceBack(9);] on [1, 2, 3]. *)
Lemma EmplaceBack_returns_new_element_witness :
  holds three_ints 0 (Some 2) 4 [1; 2; 3] ∧ heap_fresh three_ints
  ∧ ∃ q s',
      EmplaceBack 0 (ByCopy (RExt 9)) three_ints = Ret q s'
      ∧ read_slot q s' = Ret 9 s'
      ∧ Vector_at 0 (length [1; 2; 3]) s' = Ret 9 s'.
Proof.
  assert (holds three_ints 0 (Some 2) 4 [1; 2; 3]) as Hh by holds_now.
  assert (heap_fresh three_ints) as Hf by fresh_now.
  split; [exact Hh|split; [exact Hf|]].
  assert (∀ h : list Event, args_throws h (ByCopy (RExt 9)) 9 = false) as Hnta
    by reflexivity.
  assert (∀ (h : list Event) (x : nat),
            x ∈ [1; 2; 3] → relocation_throws h x = false) as Hntr
    by (by intros h x _).
  destruct (EmplaceBack_returns_new_element three_ints 0 (Some 2) 4 [1; 2; 3]
              (ByCopy (RExt 9)) 9 Hh Hf eq_refl Hnta Hntr)
    as (q & s' & Hrun & _ & _ & Hread & Hat).
  exists q, s'. exact (conj Hrun (conj Hread Hat)).
Defined.

(** An append to [1, 2, 3] whose constructor throws. *)
Lemma EmplaceBack_spare_all_or_nothing_witness :
  holds three_ints 0 (Some 2) 4 [1; 2; 3] ∧ length [1; 2; 3] < 4
  ∧ EmplaceBack 0 (FromArgs None) three_ints = Throw three_ints.
Proof.
  assert (holds three_ints 0 (Some 2) 4 [1; 2; 3]) as Hh by holds_now.
  assert (length [1; 2; 3] < 4) as Hlt by (simpl; lia).
  split; [exact Hh|split; [exact Hlt|]].
  pose proof (EmplaceBack_spare_all_or_nothing three_ints 0 2 4 [1; 2; 3]
                (FromArgs None) Hh Hlt I) as Hres.
  destruct (EmplaceBack 0 (FromArgs None) three_ints) as [q s'|s'|] eqn:Hrun.
  - by vm_compute in Hrun.
  - by rewrite Hres.
  - destruct Hres.
Defined.

(** [Vector<int> w(std::move(v));] for [v] holding [1, 2, 3]. *)
Lemma moved_from_is_empty_witness :
  holds three_ints 0 (Some 2) 4 [1; 2; 3] ∧ vecs three_ints !! 1 = None
  ∧ heap_fresh three_ints
  ∧ ∃ s1 s2,
      Vector_move 1 0 three_ints = Ret tt s1
      ∧ Vector_dtor 0 s1 = Ret tt s2
      ∧ heap s2 = heap three_ints
      ∧ holds s2 1 (Some 2) 4 [1; 2; 3].
Proof.
  assert (holds three_ints 0 (Some 2) 4 [1; 2; 3]) as Hh.
  { split; [by vm_compute|split; [simpl; lia|by vm_compute]]. }
  assert (vecs three_ints !! 1 = None) as Hnew by (by vm_compute).
  assert (heap_fresh three_ints) as Hf.
  { unfold heap_fresh. apply (bool_decide_unpack _). by vm_compute. }
  split; [exact Hh|split; [exact Hnew|split; [exact Hf|]]].
  assert (∀ h : list Event, args_throws h (ByCopy (RExt 9)) 9 = false) as Hnta
    by reflexivity.
  destruct (moved_from_is_empty three_ints 1 0 (Some 2) 4 [1; 2; 3]
              (ByCopy (RExt 9)) 9 Hh Hnew Hf eq_refl Hnta)
    as (s1 & Hrun1 & _ & (s2 & Hrun2 & Hheap & _ & Hh2) & _).
  exists s1, s2. exact (conj Hrun1 (conj Hrun2 (conj Hheap Hh2))).
Defined.
